(** * Cartesian Genetic Programming: the Individual class and the search driver

    A shallow embedding of [evolution.py] (with [diff_count] of [util.py]
    and the function set of [problems.py]) and the properties of its
    genome representation, active-node resolver, evaluation engine and
    (1 + lambda) driver.

    The program is Python 2.  Lists are modelled by Coq lists with Python's
    indexing and slicing written out (negative indices, clamped slices);
    exceptions by an error result; the module-level random generator by an
    explicit sequence of raw draws that the sampling functions consume. *)

From Stdlib Require Import ZArith QArith Lia String.
From stdpp Require Import base tactics option list sorting.

Local Open Scope Z_scope.

(** ** Python results *)

Inductive exn := ValueError | IndexError | TypeError | ZeroDivisionError.

Inductive result (A : Type) :=
  | Ok (a : A)
  | Raise (e : exn).
Arguments Ok {A} a.
Arguments Raise {A} e.

Definition result_bind {A B} (r : result A) (k : A → result B) : result B :=
  match r with
  | Ok a => k a
  | Raise e => Raise e
  end.

Global Instance result_mbind : MBind result := fun A B k r => result_bind r k.
Global Instance result_mret : MRet result := fun A a => Ok a.

Fixpoint result_map {A B} (f : A → result B) (l : list A) : result (list B) :=
  match l with
  | [] => Ok []
  | x :: l' =>
      match f x with
      | Raise e => Raise e
      | Ok y =>
          match result_map f l' with
          | Raise e => Raise e
          | Ok ys => Ok (y :: ys)
          end
      end
  end.

(** ** Python lists: indexing and slicing *)

Section pylist.
Context {A : Type}.

(** The position an index denotes: [i] itself when [0 <= i < len], and
    [len + i] when [-len <= i < 0]; anything else is out of range. *)
Definition py_index (l : list A) (i : Z) : option nat :=
  let n := Z.of_nat (length l) in
  if (0 <=? i) && (i <? n) then Some (Z.to_nat i)
  else if (- n <=? i) && (i <? 0) then Some (Z.to_nat (i + n))
  else None.

(** [l[i]] *)
Definition py_getitem (l : list A) (i : Z) : result A :=
  match py_index l i with
  | Some p => match l !! p with Some x => Ok x | None => Raise IndexError end
  | None => Raise IndexError
  end.

(** [l[i] = x] *)
Definition py_setitem (l : list A) (i : Z) (x : A) : result (list A) :=
  match py_index l i with
  | Some p => Ok (<[p:=x]> l)
  | None => Raise IndexError
  end.

(** A slice bound is clamped into [0, len], a negative one counted from
    the end first. *)
Definition py_clamp (l : list A) (i : Z) : nat :=
  let n := Z.of_nat (length l) in
  Z.to_nat (if i <? 0 then Z.max 0 (i + n) else Z.min i n).

(** [l[lo:hi]] *)
Definition py_slice (l : list A) (lo hi : Z) : list A :=
  take (py_clamp l hi - py_clamp l lo)%nat (drop (py_clamp l lo) l).

(** [l[lo:]] *)
Definition py_slice_from (l : list A) (lo : Z) : list A :=
  drop (py_clamp l lo) l.

(** [l[lo:] = xs] *)
Definition py_slice_from_assign (l : list A) (lo : Z) (xs : list A) : list A :=
  take (py_clamp l lo) l ++ xs.
End pylist.

(** ** The random generator

    [random.random()] is a 53-bit fraction [k / 2^53]; a run of the program
    is given the sequence of the numerators it will draw.  A computation
    that would draw from the exhausted sequence has not finished:
    [OutOfDraws] is the outcome of a loop that is still running. *)

Definition draws := list Z.

Inductive outcome (A : Type) :=
  | Ret (a : A) (rest : draws)
  | Throw (e : exn)
  | OutOfDraws.
Arguments Ret {A} a rest.
Arguments Throw {A} e.
Arguments OutOfDraws {A}.

Definition rand (A : Type) := draws → outcome A.

Definition rand_ret {A} (a : A) : rand A := fun d => Ret a d.

Definition rand_bind {A B} (m : rand A) (k : A → rand B) : rand B :=
  fun d =>
    match m d with
    | Ret a rest => k a rest
    | Throw e => Throw e
    | OutOfDraws => OutOfDraws
    end.

Definition rand_lift {A} (r : result A) : rand A :=
  fun d => match r with Ok a => Ret a d | Raise e => Throw e end.

Global Instance rand_mbind : MBind rand := fun A B k m => rand_bind m k.
Global Instance rand_mret : MRet rand := fun A a => rand_ret a.

Definition two53 : Z := 2 ^ 53.

(** The numerator of the fraction a raw draw stands for. *)
Definition fraction (k : Z) : Z := k mod two53.

(** A product of two doubles is the double nearest to the exact product,
    the one with the even last bit when two are as near.  For the exact
    product [n / 2^53] that is a rounding of [n] to its 53 leading bits:
    [round53 n / 2^53] is the double the multiplication returns. *)
Definition round53 (n : Z) : Z :=
  let shift := Z.log2 n - 52 in
  if shift <=? 0 then n
  else
    let q := n / 2 ^ shift in
    let r := n mod 2 ^ shift in
    let half := 2 ^ (shift - 1) in
    if (half <? r) || ((r =? half) && Z.odd q)
    then (q + 1) * 2 ^ shift
    else q * 2 ^ shift.

(** [int(random.random() * width)]: the fraction times [width], in
    double precision, cut to an integer.  ([width] is the length of a list
    of the program or the width of a range of gene values; such a number
    is below [2^53] and is itself a double.) *)
Definition scale (k : Z) (width : Z) : Z := round53 (fraction k * width) / two53.

(** [random.random() < rate] *)
Definition random_below (rate : Q) : rand bool :=
  fun d =>
    match d with
    | [] => OutOfDraws
    | k :: rest => Ret (fraction k * Zpos (Qden rate) <? Qnum rate * two53) rest
    end.

(** [random.randrange(start, stop)]: an empty range is a [ValueError],
    raised before anything is drawn. *)
Definition randrange (start stop : Z) : rand Z :=
  fun d =>
    if stop <=? start then Throw ValueError
    else match d with
         | [] => OutOfDraws
         | k :: rest => Ret (start + scale k (stop - start)) rest
         end.

(** [random.choice(seq)]: [seq[int(random.random() * len(seq))]]. *)
Definition choice {A} (seq : list A) : rand A :=
  fun d =>
    match d with
    | [] => OutOfDraws
    | k :: rest =>
        match seq !! Z.to_nat (scale k (Z.of_nat (length seq))) with
        | Some x => Ret x rest
        | None => Throw IndexError
        end
    end.

(** [while True: body], the body returning [inl s] to go round again with
    the loop variables [s], and [inr a] to leave the loop with [a]. *)
Fixpoint while_true_fuel {S A} (fuel : nat) (body : S → rand (S + A)) (s : S)
  : rand A :=
  fun d =>
    match fuel with
    | O => OutOfDraws
    | Datatypes.S fuel' =>
        match body s d with
        | Ret (inl s') rest => while_true_fuel fuel' body s' rest
        | Ret (inr a) rest => Ret a rest
        | Throw e => Throw e
        | OutOfDraws => OutOfDraws
        end
    end.

(** The loops of this program draw at least once in every round, so a
    run on [d] makes at most [length d] complete rounds. *)
Definition while_true {S A} (body : S → rand (S + A)) (s : S) : rand A :=
  fun d => while_true_fuel (Datatypes.S (length d)) body s d.

(** [for x in xs: body], threading the loop variables. *)
Fixpoint for_each {X S} (xs : list X) (body : X → S → rand S) (s : S) : rand S :=
  match xs with
  | [] => rand_ret s
  | x :: xs' => rand_bind (body x s) (for_each xs' body)
  end.

Fixpoint rand_map {A B} (f : A → rand B) (l : list A) : rand (list B) :=
  match l with
  | [] => rand_ret []
  | x :: l' =>
      rand_bind (f x) (fun y => rand_bind (rand_map f l') (fun ys => rand_ret (y :: ys)))
  end.

(** ** The objects a genome holds

    A node's function gene holds a function object of [function_list], its
    connection genes and the output genes hold integers.  The core never
    looks inside a function: it compares function objects (by identity),
    calls them, and, as Python 2 orders any two objects, may sort them. *)

Class Runtime (func value : Type) := {
  func_eq_dec :: EqDecision func;
  (** CPython 2's default order on function objects (by type name, then
      address); nothing is assumed of it *)
  func_le : relation func;
  func_le_dec :: RelDecision func_le;
  (** calling a function on the list of its arguments *)
  call : func → list value → result value;
  (** the value [None] *)
  py_None : value
}.

Section individual.
Context {func value : Type} `{!Runtime func value}.

Inductive gene :=
  | GFun (f : func)
  | GInt (z : Z).

Global Instance gene_eq_dec : EqDecision gene.
Proof. solve_decision. Defined.

(** [a != b] *)
Definition gene_ne (a b : gene) : bool := bool_decide (a ≠ b).

(** [choice != invalid], where [invalid] is a gene or [None] *)
Definition differs (choice : gene) (invalid : option gene) : bool :=
  match invalid with
  | None => true
  | Some g => gene_ne choice g
  end.

(** [acting >= 0]: in Python 2 a number is smaller than any object that
    is not a number, so a function object passes the test. *)
Definition ge0 (acting : gene) : Prop :=
  match acting with
  | GInt z => 0 ≤ z
  | GFun _ => True
  end.

Global Instance ge0_dec acting : Decision (ge0 acting).
Proof. destruct acting; simpl; apply _. Defined.

(** Python 2's order on the objects of a gene list, as [sorted] uses it *)
Definition gene_le (a b : gene) : Prop :=
  match a, b with
  | GInt x, GInt y => x ≤ y
  | GInt _, GFun _ => True
  | GFun _, GInt _ => False
  | GFun f, GFun g => func_le f g
  end.

Global Instance gene_le_dec : RelDecision gene_le.
Proof. intros [f|x] [g|y]; simpl; apply _. Defined.

(** [sorted(l)] *)
Definition sorted (l : list gene) : list gene := merge_sort gene_le l.

(** A Python [set] of genes: a list without repetitions, whose order
    does not matter. *)
Definition py_set (l : list gene) : list gene := remove_dups l.

(** [s.update(l)] *)
Definition set_update (s l : list gene) : list gene := remove_dups (s ++ l).

(** [x in s] *)
Definition set_in (x : gene) (s : list gene) : bool := bool_decide (x ∈ s).

(** The operand of an integer operation: a function object there is a
    [TypeError]. *)
Definition as_int (g : gene) : result Z :=
  match g with
  | GInt z => Ok z
  | GFun _ => Raise TypeError
  end.

(** *** The class [Individual] *)

Record Individual := {
  node_step : nat;
  input_length : nat;
  graph_length : nat;
  function_list : list func;
  output_length : nat;
  genes : list gene;
  active : list gene;
  scratch : list value;
  fitness : Q
}.

Definition set_genes (self : Individual) (g : list gene) : Individual :=
  {| node_step := node_step self; input_length := input_length self;
     graph_length := graph_length self; function_list := function_list self;
     output_length := output_length self; genes := g; active := active self;
     scratch := scratch self; fitness := fitness self |}.

Definition set_active (self : Individual) (a : list gene) : Individual :=
  {| node_step := node_step self; input_length := input_length self;
     graph_length := graph_length self; function_list := function_list self;
     output_length := output_length self; genes := genes self; active := a;
     scratch := scratch self; fitness := fitness self |}.

Definition set_scratch (self : Individual) (s : list value) : Individual :=
  {| node_step := node_step self; input_length := input_length self;
     graph_length := graph_length self; function_list := function_list self;
     output_length := output_length self; genes := genes self;
     active := active self; scratch := s; fitness := fitness self |}.

Definition set_fitness (self : Individual) (f : Q) : Individual :=
  {| node_step := node_step self; input_length := input_length self;
     graph_length := graph_length self; function_list := function_list self;
     output_length := output_length self; genes := genes self;
     active := active self; scratch := scratch self; fitness := f |}.

(** [sys.maxint] of a 64-bit CPython 2 *)
Definition sys_maxint : Z := 2 ^ 63 - 1.

(** [random_gene(self, index, invalid=None)] *)
Definition random_gene (self : Individual) (index : nat) (invalid : option gene)
  : rand gene :=
  if (node_step self =? 0)%nat then rand_lift (Raise ZeroDivisionError) else
  let node_number := (index / node_step self)%nat in
  let gene_number := Z.of_nat (index mod node_step self) in
  (* If the gene is used to specify output locations *)
  let '(node_number, gene_number) :=
    if (graph_length self <=? node_number)%nat
    then (graph_length self, -1)
    else (node_number, gene_number) in
  if gene_number =? 0 then
    (* the gene controls the function of a node *)
    if (length (function_list self) =? 1)%nat then
      rand_lift (f ← py_getitem (function_list self) 0; Ok (GFun f))
    else
      while_true (fun _ : unit =>
        choice ← choice (function_list self);
        if differs (GFun choice) invalid
        then rand_ret (inr (GFun choice))
        else rand_ret (inl ())) ()
  else
    (* the gene controls a connection / output location *)
    if (node_number + input_length self =? 1)%nat then rand_ret (GInt (-1))
    else
      while_true (fun _ : unit =>
        choice ← randrange (- Z.of_nat (input_length self)) (Z.of_nat node_number);
        if differs (GInt choice) invalid
        then rand_ret (inr (GInt choice))
        else rand_ret (inl ())) ().

(** [copy(self)]: every field is the source's, and [genes] is a new list
    with the same elements.  (In this by-value reading a new list is an
    equal list; the object identities are the subject of the store model
    further down.) *)
Definition copy (self : Individual) : Individual :=
  let new := self in
  set_genes new (genes self).

(** [connections(self, node_index)] *)
Definition connections (self : Individual) (node_index : Z) : list gene :=
  let node_start := Z.of_nat (node_step self) * node_index in
  py_slice (genes self) (node_start + 1) (node_start + Z.of_nat (node_step self)).

(** The loop of [determine_active_nodes]:
    [for node_index in reversed(range(self.graph_length))]. *)
Definition active_sweep (self : Individual) (seed : list gene) : list gene :=
  foldl (fun act node_index =>
           if set_in (GInt (Z.of_nat node_index)) act
           then set_update act (connections self (Z.of_nat node_index))
           else act)
        seed (reverse (seq 0 (graph_length self))).

(** [determine_active_nodes(self)] *)
Definition determine_active_nodes (self : Individual) : Individual :=
  let act := py_set (py_slice_from (genes self) (- Z.of_nat (output_length self))) in
  let act := active_sweep self act in
  set_active self (sorted (filter ge0 act)).
End individual.

Arguments gene : clear implicits.
Arguments Individual : clear implicits.

(** ** The scratch buffer

    [evaluate] works in place on [self.scratch].  Its reads and writes go
    through the operations below, which also keep the list of the indices
    used, newest first; the list has no influence on what is computed. *)

Inductive access :=
  | Load (i : Z)
  | Store (i : Z).

Record mem (value : Type) := Mem {
  cells : list value;
  log : list access
}.
Arguments Mem {value} cells log.
Arguments cells {value} m.
Arguments log {value} m.

Definition scratchM (value A : Type) : Type := mem value → result A * mem value.

Definition scratch_ret {value A} (a : A) : scratchM value A := fun m => (Ok a, m).

Definition scratch_bind {value A B} (c : scratchM value A) (k : A → scratchM value B)
  : scratchM value B :=
  fun m =>
    match c m with
    | (Ok a, m') => k a m'
    | (Raise e, m') => (Raise e, m')
    end.

Global Instance scratch_mbind {value} : MBind (scratchM value) :=
  fun A B k c => scratch_bind c k.
Global Instance scratch_mret {value} : MRet (scratchM value) :=
  fun A a => scratch_ret a.

Definition scratch_lift {value A} (r : result A) : scratchM value A := fun m => (r, m).

(** [self.scratch[i]] *)
Definition scratch_get {value} (i : Z) : scratchM value value :=
  fun m => (py_getitem (cells m) i, Mem (cells m) (Load i :: log m)).

(** [self.scratch[i] = v] *)
Definition scratch_set {value} (i : Z) (v : value) : scratchM value () :=
  fun m =>
    match py_setitem (cells m) i v with
    | Ok c => (Ok (), Mem c (Store i :: log m))
    | Raise e => (Raise e, Mem (cells m) (Store i :: log m))
    end.

(** [self.scratch[lo:] = xs]: the slots from the clamped bound on are
    replaced by [xs], which are then the last slots of the buffer. *)
Definition scratch_assign_from {value} (lo : Z) (xs : list value) : scratchM value () :=
  fun m =>
    let start := py_clamp (cells m) lo in
    (Ok (), Mem (py_slice_from_assign (cells m) lo xs)
                (reverse (Store ∘ Z.of_nat <$> seq start (length xs)) ++ log m)).

Fixpoint scratch_map {value A B} (f : A → scratchM value B) (l : list A)
  : scratchM value (list B) :=
  match l with
  | [] => scratch_ret []
  | x :: l' =>
      scratch_bind (f x) (fun y =>
      scratch_bind (scratch_map f l') (fun ys => scratch_ret (y :: ys)))
  end.

Fixpoint scratch_for {value A} (l : list A) (body : A → scratchM value ())
  : scratchM value () :=
  match l with
  | [] => scratch_ret ()
  | x :: l' => scratch_bind (body x) (fun _ => scratch_for l' body)
  end.

(** [diff_count(data1, data2)] of [util.py] *)
Definition diff_count {A} `{!EqDecision A} (data1 data2 : list A) : nat :=
  length (filter (fun xy => xy.1 ≠ xy.2) (zip data1 data2)).

Section methods.
Context {func value : Type} `{!Runtime func value}.
Local Abbreviation gene := (gene func).
Local Abbreviation Individual := (Individual func value).

(** [function( *args)]: calling an integer is a [TypeError]. *)
Definition call_gene (function : gene) (args : list value) : result value :=
  match function with
  | GFun f => call f args
  | GInt _ => Raise TypeError
  end.

(** [self.scratch[g]] for an object [g] of the gene list: indexing a list
    by a function object is a [TypeError]. *)
Definition scratch_at (g : gene) : scratchM value value :=
  i ← scratch_lift (as_int g); scratch_get i.

(** The body of [evaluate(self, inputs)], on the scratch buffer. *)
Definition evaluate_body (self : Individual) (inputs : list value)
  : scratchM value (list value) :=
  (* Start by loading the input values into scratch *)
  _ ← scratch_assign_from (- Z.of_nat (length inputs)) (reverse inputs);
  (* Loop through the active genes in order *)
  _ ← scratch_for (active self) (fun node_index =>
        node ← scratch_lift (as_int node_index);
        function ← scratch_lift
          (py_getitem (genes self) (node * Z.of_nat (node_step self)));
        args ← scratch_map scratch_at (connections self node);
        r ← scratch_lift (call_gene function args);
        scratch_set node r);
  (* Extract outputs from the scratch space *)
  scratch_map scratch_at
              (py_slice_from (genes self) (- Z.of_nat (output_length self))).

Definition evaluate_run (self : Individual) (inputs : list value)
  : result (list value) * mem value :=
  evaluate_body self inputs (Mem (scratch self) []).

(** [evaluate(self, inputs)]: what the call returns, ... *)
Definition evaluate (self : Individual) (inputs : list value) : result (list value) :=
  (evaluate_run self inputs).1.

(** ... the individual it leaves behind, ... *)
Definition evaluated (self : Individual) (inputs : list value) : Individual :=
  set_scratch self (cells (evaluate_run self inputs).2).


(** One round of the loop of [mutate], for the gene at [index]. *)
Definition mutate_round (mutation_rate : Q) (index : nat) (mutant : Individual)
  : rand Individual :=
  hit ← random_below mutation_rate;
  if hit : bool then
    old ← rand_lift (py_getitem (genes mutant) (Z.of_nat index));
    new ← random_gene mutant index (Some old);
    gs ← rand_lift (py_setitem (genes mutant) (Z.of_nat index) new);
    rand_ret (set_genes mutant gs)
  else rand_ret mutant.

(** [mutate(self, mutation_rate)] *)
Definition mutate (self : Individual) (mutation_rate : Q) : rand Individual :=
  let mutant := copy self in
  mutant ← for_each (seq 0 (length (genes mutant))) (mutate_round mutation_rate) mutant;
  (* Have the mutant recalculate its active genes *)
  rand_ret (determine_active_nodes mutant).

(** One round of the loop of [one_active_mutation]. *)
Definition one_active_round (self mutant : Individual)
  : rand (Individual + Individual) :=
  (* Choose an index at random *)
  index ← randrange 0 (Z.of_nat (length (genes mutant)));
  (* Get a new value for that gene *)
  newval ← random_gene mutant (Z.to_nat index) None;
  old ← rand_lift (py_getitem (genes mutant) index);
  (* If that value is different than the current value *)
  if gene_ne newval old then
    gs ← rand_lift (py_setitem (genes mutant) index newval);
    let mutant := set_genes mutant gs in
    (* Determine if that gene was part of an active node *)
    let node_number := (Z.to_nat index / node_step self)%nat in
    if (graph_length self <=? node_number)%nat
       || bool_decide (GInt (Z.of_nat node_number) ∈ active self)
    then rand_ret (inr mutant)
    else rand_ret (inl mutant)
  else rand_ret (inl mutant).

(** [one_active_mutation(self, _)] *)
Definition one_active_mutation (self : Individual) (_ : Q) : rand Individual :=
  let mutant := copy self in
  mutant ← while_true (one_active_round self) mutant;
  (* Have the mutant recalculate its active genes *)
  rand_ret (determine_active_nodes mutant).

(** [asym_phenotypic_difference(self, other)] *)
Definition asym_phenotypic_difference (self other : Individual) : result nat :=
  (* Count the differences in the output locations *)
  let count :=
    diff_count (py_slice_from (genes self) (- Z.of_nat (output_length self)))
               (py_slice_from (genes other) (- Z.of_nat (output_length self))) in
  (* For each active node *)
  foldl (fun acc node_index =>
           count ← acc;
           node ← as_int node_index;
           let index := node * Z.of_nat (node_step self) in
           (* Count the number of different connection genes *)
           let count := (count + diff_count (connections self node)
                                            (connections other node))%nat in
           (* Include differences in the function gene *)
           a ← py_getitem (genes self) index;
           b ← py_getitem (genes other) index;
           Ok (count + (if gene_ne a b then 1 else 0))%nat)
        (Ok count) (active self).

(** [self < other] and [self <= other] compare the fitness only. *)
Definition __lt__ (self other : Individual) : bool :=
  negb (Qle_bool (fitness other) (fitness self)).

Definition __le__ (self other : Individual) : bool :=
  Qle_bool (fitness self) (fitness other).

(** [Individual(graph_length, input_length, output_length, max_arity,
    function_list)] *)
Definition __init__ (graph_length input_length output_length max_arity : nat)
    (function_list : list func) : rand Individual :=
  let self :=
    {| node_step := max_arity + 1; input_length := input_length;
       graph_length := graph_length; function_list := function_list;
       output_length := output_length; genes := []; active := [];
       scratch := []; fitness := 0 |} in
  gs ← rand_map (fun index => random_gene self index None)
       (seq 0 (graph_length * node_step self + output_length));
  let self := determine_active_nodes (set_genes self gs) in
  let self := set_scratch self (replicate (graph_length + input_length) py_None) in
  rand_ret (set_fitness self (inject_Z (- sys_maxint))).
End methods.

(** ** The function set of [problems.py] *)

Module Problems.

(** The values the benchmark problems compute with: integers (the 0/1
    inputs), the booleans [nand] and [nor] return, and [None], which fills
    a fresh scratch buffer. *)
Inductive pyval :=
  | PyNone
  | PyBool (b : bool)
  | PyInt (z : Z).

Inductive pyfunc := or_ | and_ | nand | nor.

Global Instance pyfunc_eq_dec : EqDecision pyfunc.
Proof. solve_decision. Defined.

Global Instance pyval_eq_dec : EqDecision pyval.
Proof. solve_decision. Defined.

(** Python's truth value of an object *)
Definition truthy (v : pyval) : bool :=
  match v with
  | PyNone => false
  | PyBool b => b
  | PyInt z => negb (z =? 0)
  end.

(** [x and y], [x or y] and [not x] *)
Definition py_and (x y : pyval) : pyval := if truthy x then y else x.
Definition py_or (x y : pyval) : pyval := if truthy x then x else y.
Definition py_not (x : pyval) : pyval := PyBool (negb (truthy x)).

(** [x & y] and [x | y]: bitwise on integers, a boolean counting as 0 or 1
    next to an integer; two booleans give a boolean; [None] has neither. *)
Definition bitwise (op : Z → Z → Z) (bop : bool → bool → bool) (x y : pyval)
  : result pyval :=
  match x, y with
  | PyBool a, PyBool b => Ok (PyBool (bop a b))
  | PyInt a, PyInt b => Ok (PyInt (op a b))
  | PyBool a, PyInt b => Ok (PyInt (op (Z.b2z a) b))
  | PyInt a, PyBool b => Ok (PyInt (op a (Z.b2z b)))
  | _, _ => Raise TypeError
  end.

(** A call of one of [binary_operators]; every one of them takes exactly
    two arguments. *)
Definition apply (f : pyfunc) (args : list pyval) : result pyval :=
  match args with
  | [x; y] =>
      match f with
      | or_ => bitwise Z.lor orb x y
      | and_ => bitwise Z.land andb x y
      | nand => Ok (py_not (py_and x y))
      | nor => Ok (py_not (py_or x y))
      end
  | _ => Raise TypeError
  end.

(** The position of a function in [binary_operators] stands for its address. *)
Definition address (f : pyfunc) : Z :=
  match f with or_ => 0 | and_ => 1 | nand => 2 | nor => 3 end.

Global Instance runtime : Runtime pyfunc pyval := {|
  func_le := fun f g => address f ≤ address g;
  func_le_dec := fun f g => decide (address f ≤ address g);
  call := apply;
  py_None := PyNone
|}.

Definition binary_operators : list pyfunc := [or_; and_; nand; nor].

(** *** The training inputs and the ground-truth functions

    The inputs of the benchmark problems are tuples of the integers 0
    and 1.  A bit is a [bool] here ([false] for 0), and a string of the
    digits ['0'] and ['1'], as [''.join(map(str, inputs))] builds and
    [map(int, ...)] takes apart, is the list of its bits. *)

(** [itertools.product(pool, repeat=n)]: the tuples in the order in which
    the last position changes first. *)
Fixpoint product {A} (pool : list A) (repeat : nat) : list (list A) :=
  match repeat with
  | O => [[]]
  | S n => x ← pool; rest ← product pool n; [x :: rest]
  end.

(** [binary_range(config)], for [config['input_length']] *)
Definition binary_range (input_length : nat) : list (list bool) :=
  product [false; true] input_length.

(** [s.rjust(width, fill)] and [s.ljust(width, fill)]: a string that is
    already as long as [width] is returned as it is. *)
Definition rjust {A} (s : list A) (width : nat) (fill : A) : list A :=
  replicate (width - length s) fill ++ s.

Definition ljust {A} (s : list A) (width : nat) (fill : A) : list A :=
  s ++ replicate (width - length s) fill.

(** [single_bit_set(config)], for [config['input_length']] *)
Definition single_bit_set (input_length : nat) : list (list bool) :=
  (fun i => ljust (rjust [true] (i + 1) false) input_length false)
    <$> seq 0 input_length.

(** [sum(inputs)] *)
Definition sum (inputs : list bool) : Z := foldr Z.add 0 (Z.b2z <$> inputs).

(** [even_parity(inputs)] *)
Definition even_parity (inputs : list bool) : list Z :=
  [(sum inputs + 1) mod 2].

(** The number a string of binary digits denotes, most significant digit
    first. *)
Definition binary_value (s : list bool) : N :=
  foldl (fun acc b => (2 * acc + N.b2n b)%N) 0%N s.

(** [int(s, 2)]: the empty string is a [ValueError]. *)
Definition int2 (s : list bool) : result N :=
  match s with
  | [] => Raise ValueError
  | _ => Ok (binary_value s)
  end.

Fixpoint positive_digits (p : positive) : list bool :=
  match p with
  | xH => [true]
  | xO p' => positive_digits p' ++ [false]
  | xI p' => positive_digits p' ++ [true]
  end.

(** [bin(n)[2:]] for [n >= 0]: the binary digits of [n] without leading
    zeros, and ['0'] for 0. *)
Definition bin (n : N) : list bool :=
  match n with
  | N0 => [false]
  | Npos p => positive_digits p
  end.

(** [binary_multiply(inputs)] *)
Definition binary_multiply (inputs : list bool) : result (list bool) :=
  (* convert the two binary numbers to integers *)
  let joined := inputs in
  let middle := (length joined / 2)%nat in
  let a := take middle joined in
  let b := drop middle joined in
  (* multiply the two numbers and convert back to binary *)
  x ← int2 a;
  y ← int2 b;
  let multiplied := bin (x * y) in
  (* pad the result to have enough bits *)
  let extended := rjust multiplied (length inputs) false in
  Ok extended.

(** [binary_decode(inputs)] *)
Definition binary_decode (inputs : list bool) : result (list Z) :=
  let combined := inputs in
  let width := (2 ^ length inputs)%nat in
  let base := replicate width 0 in
  i ← int2 combined;
  py_setitem base (Z.of_N i) 1.

End Problems.

(** * What the specification says of a genome *)

(** A property of every element of a list together with its position. *)
Fixpoint all_indexed {A} (P : nat → A → Prop) (start : nat) (l : list A) : Prop :=
  match l with
  | [] => True
  | x :: l' => P start x ∧ all_indexed P (S start) l'
  end.

Global Instance all_indexed_dec {A} (P : nat → A → Prop)
  `{!∀ i x, Decision (P i x)} start l : Decision (all_indexed P start l).
Proof. revert start. induction l; simpl; intros; apply _. Defined.

Section specs.
Context {func value : Type} `{!Runtime func value}.
Local Abbreviation gene := (gene func).
Local Abbreviation Individual := (Individual func value).

(** An integer gene with a value in [[lo, hi)]. *)
Definition in_range (lo hi : Z) (g : gene) : Prop :=
  match g with
  | GInt v => lo ≤ v < hi
  | GFun _ => False
  end.

Global Instance in_range_dec lo hi g : Decision (in_range lo hi g).
Proof. destruct g; simpl; apply _. Defined.

(** The gene at [index] is an output gene. *)
Definition output_index (self : Individual) (index : nat) : Prop :=
  (graph_length self * node_step self ≤ index)%nat.

Global Instance output_index_dec self index : Decision (output_index self index).
Proof. unfold output_index. apply _. Defined.

(** The gene at [index] is the function gene of a node. *)
Definition function_index (self : Individual) (index : nat) : Prop :=
  (index < graph_length self * node_step self)%nat ∧ (index mod node_step self = 0)%nat.

(** The legal values of the gene at [index]: an entry of [function_list]
    for a function gene, a reference in [[-input_length, node)] for a
    connection gene of [node], in [[-input_length, graph_length)] for an
    output gene. *)
Definition legal (self : Individual) (index : nat) (g : gene) : Prop :=
  if decide (output_index self index) then
    in_range (- Z.of_nat (input_length self)) (Z.of_nat (graph_length self)) g
  else if decide (index mod node_step self = 0)%nat then
    match g with GFun f => f ∈ function_list self | GInt _ => False end
  else
    in_range (- Z.of_nat (input_length self))
             (Z.of_nat (index / node_step self)) g.

Global Instance legal_dec self index g : Decision (legal self index g).
Proof. unfold legal. repeat case_decide; try apply _. destruct g; apply _. Defined.

(** The acyclicity rule for the gene at [index]: a connection gene of
    node [i] refers below [i], an output gene below [graph_length], and
    neither below [-input_length]; function genes are not concerned. *)
Definition acyclic_at (self : Individual) (index : nat) (g : gene) : Prop :=
  if decide (output_index self index) then
    in_range (- Z.of_nat (input_length self)) (Z.of_nat (graph_length self)) g
  else if decide (index mod node_step self = 0)%nat then True
  else
    in_range (- Z.of_nat (input_length self))
             (Z.of_nat (index / node_step self)) g.

Global Instance acyclic_at_dec self index g : Decision (acyclic_at self index g).
Proof. unfold acyclic_at. repeat case_decide; apply _. Defined.

(** The acyclicity invariant of a gene array. *)
Definition acyclic (self : Individual) : Prop :=
  all_indexed (acyclic_at self) 0 (genes self).

(** The shape [__init__] gives an individual and nothing changes:
    [node_step] is [max_arity + 1], the gene array has a function gene and
    [max_arity] connection genes per node and then the output genes, and
    the scratch buffer has a slot per node and per input. *)
Definition shaped (self : Individual) : Prop :=
  (0 < node_step self)%nat
  ∧ length (genes self) = (graph_length self * node_step self + output_length self)%nat
  ∧ length (scratch self) = (graph_length self + input_length self)%nat.

Global Instance shaped_dec self : Decision (shaped self).
Proof. unfold shaped. apply _. Defined.

(** The gene at [index] has more than one legal value. *)
Definition several_legal (self : Individual) (index : nat) : Prop :=
  ∃ g1 g2, legal self index g1 ∧ legal self index g2 ∧ g1 ≠ g2.

(** The bound of the references the gene at [index] may hold: its node
    for a connection gene, [graph_length] for an output gene. *)
Definition reference_bound (self : Individual) (index : nat) : nat :=
  if decide (output_index self index) then graph_length self
  else (index / node_step self)%nat.

(** The value a round of the resampling loops of [random_gene] obtains from
    the draw [k], for the gene at [index]. *)
Definition candidate (self : Individual) (index : nat) (k : Z) : option gene :=
  if decide (¬ output_index self index ∧ (index mod node_step self = 0)%nat) then
    GFun <$> function_list self !! Z.to_nat (scale k (Z.of_nat (length (function_list self))))
  else
    Some (GInt (- Z.of_nat (input_length self)
               + scale k (Z.of_nat (reference_bound self index)
                          - - Z.of_nat (input_length self)))).

(** Every gene holds a legal value. *)
Definition legal_genes (self : Individual) : Prop :=
  ∀ index g, genes self !! index = Some g → legal self index g.

(** Two individuals of the same configuration. *)
Definition same_config (a b : Individual) : Prop :=
  node_step a = node_step b ∧ input_length a = input_length b
  ∧ graph_length a = graph_length b ∧ function_list a = function_list b
  ∧ output_length a = output_length b.

(** Two individuals of the same sizes: [graph_length], [input_length],
    [output_length] and [max_arity] (as [node_step]). *)
Definition same_sizes (a b : Individual) : Prop :=
  node_step a = node_step b ∧ input_length a = input_length b
  ∧ graph_length a = graph_length b ∧ output_length a = output_length b.

(** The output genes: the final [output_length] entries of the array. *)
Definition output_genes (self : Individual) : list gene :=
  drop (length (genes self) - output_length self) (genes self).

(** The connection genes of a node: the genes at offsets
    [1 .. node_step - 1] from the node's function gene. *)
Definition connection_genes (self : Individual) (node : nat) : list gene :=
  take (node_step self - 1) (drop (node * node_step self + 1) (genes self)).

(** Full backward traversal: a reference is reached when an output gene
    holds it, or a connection gene of a reached node does. *)
Inductive reachable (self : Individual) : Z → Prop :=
  | reach_output v :
      GInt v ∈ output_genes self → reachable self v
  | reach_connection node v :
      reachable self (Z.of_nat node) →
      (node < graph_length self)%nat →
      GInt v ∈ connection_genes self node →
      reachable self v.

(** The active set is the one [determine_active_nodes] computes from the
    genes. *)
Definition consistent (self : Individual) : Prop :=
  active self = active (determine_active_nodes self).

Global Instance consistent_dec self : Decision (consistent self).
Proof. unfold consistent. apply _. Defined.

(** The gene at [index] belongs to an output slot or to a node of the
    active set of [self]. *)
Definition active_index (self : Individual) (index : nat) : Prop :=
  (graph_length self ≤ index / node_step self)%nat
  ∨ GInt (Z.of_nat (index / node_step self)) ∈ active self.

Global Instance active_index_dec self index : Decision (active_index self index).
Proof. unfold active_index. apply _. Defined.

(** What a mutation keeps of the parent, while it replaces genes by values
    [random_gene] returns: the configuration, the number of genes, the
    scratch buffer and the fitness; and, with at least one input, the
    acyclicity invariant and the legality of the genes. *)
Definition kept (self mutant : Individual) : Prop :=
  same_config self mutant
  ∧ length (genes mutant) = length (genes self)
  ∧ scratch mutant = scratch self
  ∧ fitness mutant = fitness self
  ∧ ((1 ≤ input_length self)%nat → acyclic self → acyclic mutant)
  ∧ ((1 ≤ input_length self)%nat → legal_genes self → legal_genes mutant).

(** What the loop of [one_active_mutation] keeps true of the mutant: its
    genes at output slots and in active nodes of the parent are the
    parent's. *)
Definition one_active_inv (self mutant : Individual) : Prop :=
  kept self mutant
  ∧ (∀ j, active_index self j → genes mutant !! j = genes self !! j).

(** What holds when the loop is left: one gene at an output slot or in an
    active node of the parent has changed, and no other such gene. *)
Definition one_active_post (self mutant : Individual) : Prop :=
  kept self mutant
  ∧ (∃ index : nat,
       (index < length (genes self))%nat
       ∧ active_index self index
       ∧ genes mutant !! index ≠ genes self !! index
       ∧ ∀ j, j ≠ index → active_index self j → genes mutant !! j = genes self !! j).

(** The individuals a run produces: built by [__init__], returned by a
    mutation of one, or one of these after an evaluation (on as many
    inputs as [input_length]) or with a fitness attached. *)
Inductive produced : Individual → Prop :=
  | produced_init gl il ol ma fl d self rest :
      __init__ gl il ol ma fl d = Ret self rest →
      produced self
  | produced_mutate self rate d mutant rest :
      produced self →
      mutate self rate d = Ret mutant rest →
      produced mutant
  | produced_one_active self rate d mutant rest :
      produced self →
      one_active_mutation self rate d = Ret mutant rest →
      produced mutant
  | produced_evaluated self inputs :
      produced self →
      length inputs = input_length self →
      produced (evaluated self inputs)
  | produced_scored self f :
      produced self →
      produced (set_fitness self f).


(** No resampling can change a gene of [self]: whatever is drawn,
    [random_gene] returns the value the gene has. *)
Definition frozen (self : Individual) : Prop :=
  ∀ index d g rest,
    (index < length (genes self))%nat →
    random_gene self index None d = Ret g rest →
    genes self !! index = Some g.

(** The slot of a buffer of [n] slots that an index denotes. *)
Definition slot (n : nat) (i : Z) : Z := if i <? 0 then i + Z.of_nat n else i.

Definition access_index (a : access) : Z :=
  match a with Load i | Store i => i end.

(** An index within the bounds of a buffer of [n] slots. *)
Definition in_bounds (n : nat) (a : access) : Prop :=
  - Z.of_nat n ≤ access_index a < Z.of_nat n.

(** In a trace (oldest access first), every slot that is read has been
    written before. *)
Fixpoint loads_follow_stores (n : nat) (written : list Z) (trace : list access) : Prop :=
  match trace with
  | [] => True
  | Store i :: trace' => loads_follow_stores n (slot n i :: written) trace'
  | Load i :: trace' => slot n i ∈ written ∧ loads_follow_stores n written trace'
  end.
End specs.

(** ** Objects: the instances and the lists they share

    In the definitions above an individual is a value.  The program works
    on objects: [copy] makes a new instance whose attributes refer to the
    objects the source's attributes refer to, the caller of [generate]
    sets the fitness of the instance it is handed, and [evaluate] writes
    into a list that every copy of an instance shares.  Here the
    instances and the lists that are updated in place (the gene lists and
    the scratch buffers) live in a heap and are referred to by their
    position in it; [function_list] and [active], which are never updated
    in place, stay values. *)

Module Objects.

(** A reference is a position in the heap. *)
Abbreviation ref := nat.

Section objects.
Context {func value : Type} `{!Runtime func value}.
Local Abbreviation gene := (gene func).
Local Abbreviation Individual := (Individual func value).

(** The attributes of an instance of [Individual]. *)
Record instance := {
  attr_node_step : nat;
  attr_input_length : nat;
  attr_graph_length : nat;
  attr_function_list : list func;
  attr_output_length : nat;
  attr_genes : ref;
  attr_active : list gene;
  attr_scratch : ref;
  attr_fitness : Q
}.

Definition set_attr_genes (o : instance) (a : ref) : instance :=
  {| attr_node_step := attr_node_step o; attr_input_length := attr_input_length o;
     attr_graph_length := attr_graph_length o;
     attr_function_list := attr_function_list o;
     attr_output_length := attr_output_length o; attr_genes := a;
     attr_active := attr_active o; attr_scratch := attr_scratch o;
     attr_fitness := attr_fitness o |}.

Definition set_attr_active (o : instance) (a : list gene) : instance :=
  {| attr_node_step := attr_node_step o; attr_input_length := attr_input_length o;
     attr_graph_length := attr_graph_length o;
     attr_function_list := attr_function_list o;
     attr_output_length := attr_output_length o; attr_genes := attr_genes o;
     attr_active := a; attr_scratch := attr_scratch o;
     attr_fitness := attr_fitness o |}.

Definition set_attr_fitness (o : instance) (f : Q) : instance :=
  {| attr_node_step := attr_node_step o; attr_input_length := attr_input_length o;
     attr_graph_length := attr_graph_length o;
     attr_function_list := attr_function_list o;
     attr_output_length := attr_output_length o; attr_genes := attr_genes o;
     attr_active := attr_active o; attr_scratch := attr_scratch o;
     attr_fitness := f |}.

(** What the class attribute [Individual.mutate] is bound to. *)
Inductive method := Mutate | OneActiveMutation.

(** The dictionary [output] of [generate].  The program adds floating
    point numbers into [estimated]; the sum is kept as an exact rational
    here, and nothing below depends on its value. *)
Record output := {
  skipped : nat;
  estimated : Q
}.

Record heap := {
  gene_lists : list (list gene);
  value_lists : list (list value);
  instances : list instance;
  mutate_method : method;
  output_dict : output
}.

Definition set_gene_lists (h : heap) (l : list (list gene)) : heap :=
  {| gene_lists := l; value_lists := value_lists h; instances := instances h;
     mutate_method := mutate_method h; output_dict := output_dict h |}.

Definition set_value_lists (h : heap) (l : list (list value)) : heap :=
  {| gene_lists := gene_lists h; value_lists := l; instances := instances h;
     mutate_method := mutate_method h; output_dict := output_dict h |}.

Definition set_instances (h : heap) (l : list instance) : heap :=
  {| gene_lists := gene_lists h; value_lists := value_lists h; instances := l;
     mutate_method := mutate_method h; output_dict := output_dict h |}.

Definition set_mutate_method (h : heap) (m : method) : heap :=
  {| gene_lists := gene_lists h; value_lists := value_lists h;
     instances := instances h; mutate_method := m;
     output_dict := output_dict h |}.

Definition set_output_dict (h : heap) (o : output) : heap :=
  {| gene_lists := gene_lists h; value_lists := value_lists h;
     instances := instances h; mutate_method := mutate_method h;
     output_dict := o |}.

(** No reference of a Python program dangles; the lookups are made total
    with values that are never seen. *)
Definition no_instance : instance :=
  {| attr_node_step := 0%nat; attr_input_length := 0%nat;
     attr_graph_length := 0%nat; attr_function_list := [];
     attr_output_length := 0%nat; attr_genes := 0%nat;
     attr_active := []; attr_scratch := 0%nat; attr_fitness := 0%Q |}.

Definition instance_at (h : heap) (r : ref) : instance :=
  default no_instance (instances h !! r).

Definition gene_list (h : heap) (a : ref) : list gene :=
  default [] (gene_lists h !! a).

Definition value_list (h : heap) (a : ref) : list value :=
  default [] (value_lists h !! a).

(** The individual an instance stands for at a moment. *)
Definition view (h : heap) (r : ref) : Individual :=
  let o := instance_at h r in
  {| node_step := attr_node_step o; input_length := attr_input_length o;
     graph_length := attr_graph_length o; function_list := attr_function_list o;
     output_length := attr_output_length o;
     genes := gene_list h (attr_genes o); active := attr_active o;
     scratch := value_list h (attr_scratch o); fitness := attr_fitness o |}.

(** *** Programs on the heap that draw random numbers *)

Definition prog (A : Type) : Type := heap → draws → outcome (A * heap).

Definition prog_ret {A} (a : A) : prog A := fun h d => Ret (a, h) d.

Definition prog_bind {A B} (c : prog A) (k : A → prog B) : prog B :=
  fun h d =>
    match c h d with
    | Ret (a, h') rest => k a h' rest
    | Throw e => Throw e
    | OutOfDraws => OutOfDraws
    end.

Global Instance prog_mbind : MBind prog := fun A B k c => prog_bind c k.
Global Instance prog_mret : MRet prog := fun A a => prog_ret a.

Definition lift_rand {A} (m : rand A) : prog A :=
  fun h d =>
    match m d with
    | Ret a rest => Ret (a, h) rest
    | Throw e => Throw e
    | OutOfDraws => OutOfDraws
    end.

Definition lift_result {A} (r : result A) : prog A := lift_rand (rand_lift r).

(** Reading the heap, and changing it. *)
Definition reads {A} (f : heap → A) : prog A := fun h d => Ret (f h, h) d.

Definition writes (f : heap → heap) : prog () := fun h d => Ret ((), f h) d.

(** [for x in xs: body] *)
Fixpoint prog_for {X} (xs : list X) (body : X → prog ()) : prog () :=
  match xs with
  | [] => prog_ret ()
  | x :: xs' => prog_bind (body x) (fun _ => prog_for xs' body)
  end.

(** [[f(x) for x in xs]] *)
Fixpoint prog_map {X Y} (f : X → prog Y) (xs : list X) : prog (list Y) :=
  match xs with
  | [] => prog_ret []
  | x :: xs' =>
      prog_bind (f x) (fun y =>
      prog_bind (prog_map f xs') (fun ys => prog_ret (y :: ys)))
  end.

(** [for x in xs: body], threading loop variables. *)
Fixpoint prog_fold {X S} (xs : list X) (body : X → S → prog S) (s : S) : prog S :=
  match xs with
  | [] => prog_ret s
  | x :: xs' => prog_bind (body x s) (prog_fold xs' body)
  end.

(** A loop, as [while_true]: the body returns [inl s] to go round again
    and [inr a] to leave.  A run on [d] is followed for [length d + 1]
    rounds; a loop that goes on is [OutOfDraws]. *)
Fixpoint prog_while_fuel {S A} (fuel : nat) (body : S → prog (S + A)) (s : S)
  : prog A :=
  fun h d =>
    match fuel with
    | O => OutOfDraws
    | Datatypes.S fuel' =>
        match body s h d with
        | Ret (inl s', h') rest => prog_while_fuel fuel' body s' h' rest
        | Ret (inr a, h') rest => Ret (a, h') rest
        | Throw e => Throw e
        | OutOfDraws => OutOfDraws
        end
    end.

Definition prog_while {S A} (body : S → prog (S + A)) (s : S) : prog A :=
  fun h d => prog_while_fuel (Datatypes.S (length d)) body s h d.

(** *** Allocation and attribute access *)

(** A new instance with the attributes [o]. *)
Definition new_instance (o : instance) : prog ref :=
  fun h d => Ret (length (instances h), set_instances h (instances h ++ [o])) d.

(** A new list with the elements [l]. *)
Definition new_gene_list (l : list gene) : prog ref :=
  fun h d => Ret (length (gene_lists h), set_gene_lists h (gene_lists h ++ [l])) d.

Definition new_value_list (l : list value) : prog ref :=
  fun h d => Ret (length (value_lists h), set_value_lists h (value_lists h ++ [l])) d.

(** The attributes of [self]. *)
Definition attrs (self : ref) : prog instance := reads (fun h => instance_at h self).

(** Rebinding attributes of [self]. *)
Definition rebind (self : ref) (f : instance → instance) : prog () :=
  writes (fun h => set_instances h (<[self := f (instance_at h self)]> (instances h))).

(** [self.genes], the list and its elements. *)
Definition genes_of (self : ref) : prog (list gene) :=
  reads (fun h => gene_list h (attr_genes (instance_at h self))).

(** [self.genes[index] = x] *)
Definition set_gene (self : ref) (index : Z) (x : gene) : prog () :=
  gs ← genes_of self;
  gs ← lift_result (py_setitem gs index x);
  writes (fun h => set_gene_lists h
            (<[attr_genes (instance_at h self) := gs]> (gene_lists h))).

(** *** The methods, on instances *)

(** [copy(self)]: [copy.copy] makes an instance with the same attribute
    bindings; then the attribute [genes] of the new instance is bound to
    a new list. *)
Definition copy (self : ref) : prog ref :=
  o ← attrs self;
  new ← new_instance o;
  gs ← genes_of self;
  a ← new_gene_list gs;
  _ ← rebind new (fun o => set_attr_genes o a);
  prog_ret new.

(** [determine_active_nodes(self)] binds [self.active] to a new list. *)
Definition determine_active_nodes (self : ref) : prog () :=
  act ← reads (fun h => active (determine_active_nodes (view h self)));
  rebind self (fun o => set_attr_active o act).

(** [self.random_gene(index, invalid)] reads the sizes and [function_list]. *)
Definition random_gene (self : ref) (index : nat) (invalid : option gene)
  : prog gene :=
  me ← reads (fun h => view h self);
  lift_rand (random_gene me index invalid).

(** [mutate(self, mutation_rate)] *)
Definition mutate (self : ref) (mutation_rate : Q) : prog ref :=
  mutant ← copy self;
  gs ← genes_of mutant;
  _ ← prog_for (seq 0 (length gs)) (fun index =>
        hit ← lift_rand (random_below mutation_rate);
        if hit : bool then
          gs ← genes_of mutant;
          old ← lift_result (py_getitem gs (Z.of_nat index));
          new ← random_gene mutant index (Some old);
          set_gene mutant (Z.of_nat index) new
        else prog_ret ());
  (* Have the mutant recalculate its active genes *)
  _ ← determine_active_nodes mutant;
  prog_ret mutant.

(** [one_active_mutation(self, _)] *)
Definition one_active_mutation (self : ref) (_ : Q) : prog ref :=
  mutant ← copy self;
  _ ← prog_while (fun _ : unit =>
        (* Choose an index at random *)
        gs ← genes_of mutant;
        index ← lift_rand (randrange 0 (Z.of_nat (length gs)));
        (* Get a new value for that gene *)
        newval ← random_gene mutant (Z.to_nat index) None;
        gs ← genes_of mutant;
        old ← lift_result (py_getitem gs index);
        (* If that value is different than the current value *)
        if gene_ne newval old then
          _ ← set_gene mutant index newval;
          (* Determine if that gene was part of an active node *)
          me ← attrs self;
          let node_number := (Z.to_nat index / attr_node_step me)%nat in
          if (attr_graph_length me <=? node_number)%nat
             || bool_decide (GInt (Z.of_nat node_number) ∈ attr_active me)
          then prog_ret (inr ())
          else prog_ret (inl ())
        else prog_ret (inl ())) ();
  (* Have the mutant recalculate its active genes *)
  _ ← determine_active_nodes mutant;
  prog_ret mutant.

(** [self.mutate(mutation_rate)], through the class attribute. *)
Definition call_mutate (self : ref) (mutation_rate : Q) : prog ref :=
  m ← reads mutate_method;
  match m with
  | Mutate => mutate self mutation_rate
  | OneActiveMutation => one_active_mutation self mutation_rate
  end.

(** [self.asym_phenotypic_difference(other)] *)
Definition asym_phenotypic_difference (self other : ref) : prog nat :=
  r ← reads (fun h => asym_phenotypic_difference (view h self) (view h other));
  lift_result r.

(** [self.evaluate(inputs)] works in place on the list [self.scratch]
    refers to; what it has written stays there, also when it raises. *)
Definition evaluate (self : ref) (inputs : list value) (h : heap)
  : result (list value) * heap :=
  let run := evaluate_run (view h self) inputs in
  (run.1, set_value_lists h
            (<[attr_scratch (instance_at h self) := cells run.2]> (value_lists h))).

(** [self < other] and [self <= other] *)
Definition lt (self other : ref) : prog bool :=
  reads (fun h => __lt__ (view h self) (view h other)).

Definition le (self other : ref) : prog bool :=
  reads (fun h => __le__ (view h self) (view h other)).

(** An instance for the individual [self], with a new gene list and a
    new scratch buffer. *)
Definition allocate (self : Individual) : prog ref :=
  g ← new_gene_list (genes self);
  s ← new_value_list (scratch self);
  new_instance {| attr_node_step := node_step self;
                  attr_input_length := input_length self;
                  attr_graph_length := graph_length self;
                  attr_function_list := function_list self;
                  attr_output_length := output_length self;
                  attr_genes := g; attr_active := active self;
                  attr_scratch := s; attr_fitness := fitness self |}.

(** [Individual(graph_length, input_length, output_length, max_arity,
    function_list)] *)
Definition new_individual (gl il ol ma : nat) (fl : list func) : prog ref :=
  self ← lift_rand (__init__ gl il ol ma fl);
  allocate self.

(** [max(l)], for a list of objects compared by [lt]: the scan keeps the
    item it holds unless the next one is greater, that is, unless the one
    it holds is less than the next.  The maximum of an empty list is a
    [ValueError]. *)
Definition py_max {A} (lt : A → A → bool) (l : list A) : result A :=
  match l with
  | [] => Raise ValueError
  | x :: l' => Ok (foldl (fun best item => if lt best item then item else best) x l')
  end.

(** *** The search driver *)

(** The dictionary [config]. *)
Record config := {
  config_graph_length : nat;
  config_input_length : nat;
  config_output_length : nat;
  config_max_arity : nat;
  config_function_list : list func;
  config_mutation_rate : Q;
  config_off_size : nat;
  config_speed : string
}.

Section generate.
(** What the caller of the generator does with the individual it is
    handed, before it asks for the next one. *)
Variable consumer : ref → prog ().
Variable config : config.

Definition speed_is (s : string) : bool := String.eqb (config_speed config) s.

(** [output['estimated'] += x] and [output['skipped'] += 1] *)
Definition add_estimated (x : Q) : prog () :=
  writes (fun h => set_output_dict h
            {| skipped := skipped (output_dict h);
               estimated := (estimated (output_dict h) + x)%Q |}).

Definition add_skipped : prog () :=
  writes (fun h => set_output_dict h
            {| skipped := (skipped (output_dict h) + 1)%nat;
               estimated := estimated (output_dict h) |}).

(** The loop [while change == 0] of the speed [accumulate]; the loop
    variables are [prev], [mutant] and [change]. *)
Definition accumulate_loop (parent : ref) (prev mutant : ref) (change : nat)
  : prog (ref * ref) :=
  prog_while (fun '(prev, mutant, change) =>
      if (change =? 0)%nat then
        let prev := mutant in
        mutant ← call_mutate prev (config_mutation_rate config);
        change ← asym_phenotypic_difference parent mutant;
        prog_ret (inl (prev, mutant, change))
      else prog_ret (inr (prev, mutant)))
    (prev, mutant, change).

(** The end of the body of the loop over the offspring: the [yield], and
    what follows it. *)
Definition hand_over (parent : ref) (index : nat) (prev mutant : ref)
    (mutants : list ref) : prog (list ref) :=
  _ ← consumer mutant;
  if speed_is "accumulate" then
    (* If the mutant is strickly worse, use the last equivalent *)
    worse ← lt mutant parent;
    prog_ret (<[index := if worse : bool then prev else mutant]> mutants)
  else prog_ret mutants.

(** The body of [for index, mutant in enumerate(mutants)]. *)
Definition offspring_round (parent : ref) (active : nat) (slot : nat * ref)
    (mutants : list ref) : prog (list ref) :=
  let '(index, mutant) := slot in
  _ ← add_estimated (Qpower (1 - config_mutation_rate config)%Q (Z.of_nat active));
  let prev := mutant in
  if negb (speed_is "normal" || speed_is "single") then
    change ← asym_phenotypic_difference parent mutant;
    if (change =? 0)%nat then
      _ ← add_skipped;
      if speed_is "skip" then prog_ret mutants
      else if speed_is "accumulate" then
        '(prev, mutant) ← accumulate_loop parent prev mutant change;
        hand_over parent index prev mutant mutants
      else hand_over parent index prev mutant mutants
    else hand_over parent index prev mutant mutants
  else hand_over parent index prev mutant mutants.

(** One generation, up to the generation boundary: the offspring slots. *)
Definition offspring (parent : ref) : prog (list ref) :=
  mutants ← prog_map (fun _ : nat => call_mutate parent (config_mutation_rate config))
                     (seq 0 (config_off_size config));
  me ← attrs parent;
  let active := (config_output_length config
                 + length (attr_active me) * (config_max_arity config + 1))%nat in
  prog_fold (imap (fun index mutant => (index, mutant)) mutants)
            (offspring_round parent active) mutants.

(** [best_child = max(mutants)] *)
Definition best_child (mutants : list ref) : prog ref :=
  r ← reads (fun h => py_max (fun a b => __lt__ (view h a) (view h b)) mutants);
  lift_result r.

(** The generation boundary: the parent of the next generation. *)
Definition select (parent : ref) (mutants : list ref) : prog ref :=
  best_child ← best_child mutants;
  replace ← le parent best_child;
  if replace : bool then prog_ret best_child else prog_ret parent.

(** The body of the loop [while True] of [generate]. *)
Definition generation (parent : ref) : prog ref :=
  mutants ← offspring parent;
  select parent mutants.

(** [generate(config, output)]; it returns nothing. *)
Definition generate : prog Empty_set :=
  _ ← writes (fun h => set_output_dict h {| skipped := 0%nat; estimated := 0%Q |});
  _ ← (if speed_is "single"
       then writes (fun h => set_mutate_method h OneActiveMutation)
       else prog_ret ());
  parent ← new_individual (config_graph_length config) (config_input_length config)
                          (config_output_length config) (config_max_arity config)
                          (config_function_list config);
  _ ← consumer parent;
  prog_while (fun parent =>
      parent ← generation parent;
      prog_ret (inl parent))
    parent.
End generate.
End objects.
End Objects.

(** ** Invariants of the loops *)

Section invariants.
Context {func value : Type} `{!Runtime func value}.
Local Abbreviation gene := (gene func).
Local Abbreviation Individual := (Individual func value).

(** The sweep of [determine_active_nodes], before it looks at the nodes
    below [k]: the set holds reached references only, among them every
    output gene, and with a node from [k] on it holds the node's
    connection genes. *)
Definition sweep_inv (self : Individual) (k : nat) (act : list gene) : Prop :=
  (∀ g, g ∈ act → ∃ v, g = GInt v ∧ reachable self v)
  ∧ (∀ g, g ∈ output_genes self → g ∈ act)
  ∧ (∀ node : nat, (k ≤ node < graph_length self)%nat →
       GInt (Z.of_nat node) ∈ act →
       ∀ g, g ∈ connection_genes self node → g ∈ act).

(** The integers of a gene list. *)
Definition ints (l : list gene) : list Z :=
  omap (λ g, match g with GInt v => Some v | GFun _ => None end) l.
End invariants.

(** The state of the scratch buffer of [n] slots, of which the first [gl]
    are node slots, while [evaluate] runs, after the nodes [done]: the
    buffer has kept its size, the indices used were within its bounds,
    every slot read had been written, and the input slots and the slots
    of the nodes done have been written. *)
Definition run_inv {value} (n gl : nat) (done : list Z) (m : mem value) : Prop :=
  length (cells m) = n
  ∧ Forall (in_bounds n) (log m)
  ∧ loads_follow_stores n [] (reverse (log m))
  ∧ (∀ p : nat, (gl ≤ p < n)%nat → Store (Z.of_nat p) ∈ log m)
  ∧ (∀ v, v ∈ done → Store v ∈ log m).


(** Two runs of a computation on the scratch buffer, from states related
    by [P]: they end alike, and when they return, in states related by [Q]. *)
Definition sim {value A} (c : scratchM value A) (P Q : mem value → mem value → Prop)
  : Prop :=
  ∀ m1 m2, P m1 m2 →
    (c m1).1 = (c m2).1 ∧ (∀ a, (c m1).1 = Ok a → Q (c m1).2 (c m2).2).

(** Two scratch buffers in the state [run_inv] that went through the same
    accesses and agree on the slots written. *)
Definition rel_inv {value} (n gl : nat) (done : list Z) (m1 m2 : mem value) : Prop :=
  run_inv n gl done m1 ∧ run_inv n gl done m2
  ∧ log m1 = log m2
  ∧ (∀ j, Store j ∈ log m1 →
       cells m1 !! Z.to_nat (slot n j) = cells m2 !! Z.to_nat (slot n j)).

(** A computation on the scratch buffer that leaves the buffer as long
    as it was, also when it raises. *)
Definition keeps_length {value A} (c : scratchM value A) : Prop :=
  ∀ m, length (cells (c m).2) = length (cells m).

Section object_invariants.
Context {func value : Type} `{!Runtime func value}.
Local Abbreviation heap := (Objects.heap (func:=func) (value:=value)).

(** Nothing that exists in [h] has changed in [h']: every instance has
    its attributes, every gene list and scratch buffer its elements; new
    instances and new gene lists may have come. *)
Definition preserved (h h' : heap) : Prop :=
  (∀ r o, Objects.instances h !! r = Some o → Objects.instances h' !! r = Some o)
  ∧ (∀ a l, Objects.gene_lists h !! a = Some l → Objects.gene_lists h' !! a = Some l)
  ∧ Objects.value_lists h' = Objects.value_lists h
  ∧ Objects.mutate_method h' = Objects.mutate_method h
  ∧ Objects.output_dict h' = Objects.output_dict h.

(** The heap while a mutation works on the clone of [o] it has made in
    [h]: the clone is the one new instance, its gene list the one new
    list, and the list has kept its length. *)
Definition cloning (h : heap) (o : Objects.instance) (h1 : heap) : Prop :=
  Objects.instances h1
    = Objects.instances h ++ [Objects.set_attr_genes o (length (Objects.gene_lists h))]
  ∧ (∃ l, Objects.gene_lists h1 = Objects.gene_lists h ++ [l]
          ∧ length l = length (Objects.gene_list h (Objects.attr_genes o)))
  ∧ Objects.value_lists h1 = Objects.value_lists h
  ∧ Objects.mutate_method h1 = Objects.mutate_method h
  ∧ Objects.output_dict h1 = Objects.output_dict h.

(** A caller of [generate] that leaves every instance but the one it is
    handed as it is: it sets the fitness of that one. *)
Definition keeps_others
    (consumer : Objects.ref → Objects.prog (func:=func) (value:=value) ()) : Prop :=
  ∀ r h d h' rest, consumer r h d = Ret ((), h') rest →
    ∀ r', r' ≠ r → Objects.instances h' !! r' = Objects.instances h !! r'.

(** A caller that refuses an individual whose difference from [parent]
    is 0, and does with any other what [consumer] does. *)
Definition refusing (parent : Objects.ref)
    (consumer : Objects.ref → Objects.prog (func:=func) (value:=value) ())
    (r : Objects.ref) : Objects.prog (func:=func) (value:=value) () :=
  change ← Objects.asym_phenotypic_difference parent r;
  if (change =? 0)%nat then Objects.lift_result (Raise TypeError)
  else consumer r.

(** What the speeds [normal] and [single] make of the loop over the
    offspring: every mutant is counted and handed to the caller. *)
Definition hand_over_all (consumer : Objects.ref → Objects.prog (func:=func) (value:=value) ())
    (config : Objects.config (func:=func)) (parent : Objects.ref)
  : Objects.prog (func:=func) (value:=value) (list Objects.ref) :=
  mutants ← Objects.prog_map
               (fun _ : nat => Objects.call_mutate parent (Objects.config_mutation_rate config))
               (seq 0 (Objects.config_off_size config));
  me ← Objects.attrs parent;
  _ ← Objects.prog_for mutants (fun mutant =>
        _ ← Objects.add_estimated
              (Qpower (1 - Objects.config_mutation_rate config)%Q
                      (Z.of_nat (Objects.config_output_length config
                                 + length (Objects.attr_active me)
                                   * (Objects.config_max_arity config + 1))));
        consumer mutant);
  Objects.prog_ret mutants.
End object_invariants.

(** ** Concrete individuals over the function set of [problems.py] *)

Module Examples.
Import Problems.

(** A raw draw that [randrange] and [choice] over [n] values map to the
    value at position [i]: the first whose fraction is [i / n] or more. *)
Definition pick (i n : Z) : Z := (i * two53 + n - 1) / n.

Definition unset : Q := inject_Z (- sys_maxint).

(** What [Individual(1, 0, 1, 0, [and_])] builds: one node without
    connections, no input, one output. *)
Definition no_input : Individual pyfunc pyval :=
  {| node_step := 1; input_length := 0; graph_length := 1;
     function_list := [and_]; output_length := 1;
     genes := [GFun and_; GInt (-1)]; active := [];
     scratch := [PyNone]; fitness := unset |}.

(** Two nodes over one input, of which the output uses the first only. *)
Definition two_nodes : Individual pyfunc pyval :=
  {| node_step := 3; input_length := 1; graph_length := 2;
     function_list := [or_; and_]; output_length := 1;
     genes := [GFun or_; GInt (-1); GInt (-1);
               GFun or_; GInt (-1); GInt 0;
               GInt 0];
     active := [GInt 0];
     scratch := [PyNone; PyNone; PyNone]; fitness := unset |}.

(** Draws that make [one_active_mutation] change the function gene of the
    inactive node 1 to [and_] and then the output gene to [-1]. *)
Definition two_changes : draws := [pick 3 7; pick 1 2; pick 6 7; pick 0 3].

Definition two_nodes_mutant : Individual pyfunc pyval :=
  {| node_step := 3; input_length := 1; graph_length := 2;
     function_list := [or_; and_]; output_length := 1;
     genes := [GFun or_; GInt (-1); GInt (-1);
               GFun and_; GInt (-1); GInt 0;
               GInt (-1)];
     active := [];
     scratch := [PyNone; PyNone; PyNone]; fitness := unset |}.

(** What [Individual(2, 1, 0, 2, [and_])] builds on the draws
    [pick 1 2; pick 0 2]: two nodes and no output. *)
Definition no_output : Individual pyfunc pyval :=
  {| node_step := 3; input_length := 1; graph_length := 2;
     function_list := [and_]; output_length := 0;
     genes := [GFun and_; GInt (-1); GInt (-1);
               GFun and_; GInt 0; GInt (-1)];
     active := [GInt 0; GFun and_];
     scratch := [PyNone; PyNone; PyNone]; fitness := unset |}.

(** [two_nodes] with another function in node 1, which its output does
    not use. *)
Definition two_nodes_inactive : Individual pyfunc pyval :=
  {| node_step := 3; input_length := 1; graph_length := 2;
     function_list := [or_; and_]; output_length := 1;
     genes := [GFun or_; GInt (-1); GInt (-1);
               GFun and_; GInt (-1); GInt 0;
               GInt 0];
     active := [GInt 0];
     scratch := [PyNone; PyNone; PyNone]; fitness := unset |}.

(** Two of the individuals [Individual(1, 2, 1, 2, [and_])] builds: one
    whose output is the first input, and one whose output is the node. *)
Definition and_first : Individual pyfunc pyval :=
  {| node_step := 3; input_length := 2; graph_length := 1;
     function_list := [and_]; output_length := 1;
     genes := [GFun and_; GInt (-1); GInt (-1); GInt (-1)];
     active := [];
     scratch := [PyNone; PyNone; PyNone]; fitness := unset |}.

Definition and_node : Individual pyfunc pyval :=
  {| node_step := 3; input_length := 2; graph_length := 1;
     function_list := [and_]; output_length := 1;
     genes := [GFun and_; GInt (-2); GInt (-1); GInt 0];
     active := [GInt 0];
     scratch := [PyNone; PyNone; PyNone]; fitness := unset |}.

(** What [Individual(0, 1, 1, 0, [and_])] builds: no node, and one
    output, which can only be the input. *)
Definition only_output : Individual pyfunc pyval :=
  {| node_step := 1; input_length := 1; graph_length := 0;
     function_list := [and_]; output_length := 1;
     genes := [GInt (-1)]; active := [];
     scratch := [PyNone]; fitness := unset |}.

(** A function set of one function that takes any number of arguments,
    as [lambda *args: 1] does, and returns 1. *)
Inductive constant := one.

Global Instance constant_eq_dec : EqDecision constant.
Proof. solve_decision. Defined.

Global Instance constant_runtime : Runtime constant pyval := {|
  func_le := fun _ _ => True;
  func_le_dec := fun _ _ => left I;
  call := fun _ _ => Ok (PyInt 1);
  py_None := PyNone
|}.



(** A heap with nothing in it. *)
Definition empty_heap : Objects.heap (func:=pyfunc) (value:=pyval) :=
  {| Objects.gene_lists := []; Objects.value_lists := [];
     Objects.instances := []; Objects.mutate_method := Objects.Mutate;
     Objects.output_dict := {| Objects.skipped := 0; Objects.estimated := 0 |} |}.

(** The heap that holds instances for the individuals [l], in this
    order, each with a gene list and a scratch buffer of its own. *)
Definition allocated (l : list (Individual pyfunc pyval))
  : Objects.heap (func:=pyfunc) (value:=pyval) :=
  match Objects.prog_for l (fun x => Objects.prog_bind (Objects.allocate x)
                                       (fun _ => Objects.prog_ret ()))
                         empty_heap [] with
  | Ret (_, h) _ => h
  | _ => empty_heap
  end.

(** A caller of [generate] that gives every individual the fitness [f]. *)
Definition score (f : Q) (r : Objects.ref) : Objects.prog (func:=pyfunc) (value:=pyval) () :=
  Objects.rebind r (fun o => Objects.set_attr_fitness o f).

(** Two offspring per generation of two nodes over one input. *)
Definition two_offspring (rate : Q) (speed : string)
  : Objects.config (func:=pyfunc) :=
  {| Objects.config_graph_length := 2; Objects.config_input_length := 1;
     Objects.config_output_length := 1; Objects.config_max_arity := 2;
     Objects.config_function_list := [or_; and_];
     Objects.config_mutation_rate := rate; Objects.config_off_size := 2;
     Objects.config_speed := speed |}.

(** A configuration that asks for no offspring. *)
Definition no_offspring : Objects.config (func:=pyfunc) :=
  {| Objects.config_graph_length := 2; Objects.config_input_length := 1;
     Objects.config_output_length := 1; Objects.config_max_arity := 2;
     Objects.config_function_list := [or_; and_];
     Objects.config_mutation_rate := 1 # 2; Objects.config_off_size := 0;
     Objects.config_speed := "normal" |}.

(** A raw draw that is not below the rate 1/2, and one that is. *)
Definition miss : Z := pick 1 2.
Definition hit : Z := 0.

End Examples.

(** ** Tactics *)

(** A decidable closed statement, by evaluation. *)
Ltac by_decide :=
  match goal with
  | |- ?P => let dec := constr:(_ : Decision P) in
             apply (@bool_decide_unpack P dec); vm_compute; exact I
  end.


(** Mapping over the stack of sorted runs that [merge_sort] keeps. *)
Definition stack_fmap {A B} (f : A → B) (st : list (option (list A)))
  : list (option (list B)) :=
  fmap (M:=list) (fmap (M:=option) (fmap (M:=list) f)) st.

(** * Properties *)

(** ** Results, Python lists and the random generator *)

Lemma result_bind_ok {A B} (r : result A) (k : A → result B) b :
  (r ≫= k) = Ok b ↔ ∃ a, r = Ok a ∧ k a = Ok b.
Proof.
  unfold mbind, result_mbind, result_bind. destruct r; split.
  - eauto.
  - intros (? & [= ->] & ?). done.
  - done.
  - intros (? & [=] & ?).
Qed.

Lemma rand_bind_ret {A B} (m : rand A) (k : A → rand B) d b rest :
  (m ≫= k) d = Ret b rest ↔ ∃ a d', m d = Ret a d' ∧ k a d' = Ret b rest.
Proof.
  unfold mbind, rand_mbind, rand_bind. destruct (m d); split;
    first [ by eauto | by intros (? & ? & [= -> ->] & ?) | done
          | by intros (? & ? & [=] & ?) ].
Qed.

Lemma rand_lift_ret {A} (r : result A) d a rest :
  rand_lift r d = Ret a rest ↔ r = Ok a ∧ rest = d.
Proof. unfold rand_lift. destruct r; split; [intros [= -> ->]|intros [[= ->] ->]|..]; naive_solver. Qed.

Lemma rand_ret_ret {A} (a b : A) d rest :
  rand_ret a d = Ret b rest ↔ a = b ∧ rest = d.
Proof. unfold rand_ret. split; [intros [= -> ->]|intros [-> ->]]; done. Qed.

Lemma py_index_Some {A} (l : list A) i p :
  py_index l i = Some p ↔
  (0 ≤ i < Z.of_nat (length l) ∧ p = Z.to_nat i)
  ∨ (- Z.of_nat (length l) ≤ i < 0 ∧ p = Z.to_nat (i + Z.of_nat (length l))).
Proof.
  unfold py_index.
  destruct (0 <=? i) eqn:E1, (i <? Z.of_nat (length l)) eqn:E2;
    destruct (- Z.of_nat (length l) <=? i) eqn:E3, (i <? 0) eqn:E4; simpl;
    split; intros Hp; simplify_eq; try lia;
    try (destruct Hp as [[? ->]|[? ->]]; first [done | lia]).
  all: first [left; split; [lia|done] | right; split; [lia|done]].
Qed.

Lemma py_index_lt {A} (l : list A) i p :
  py_index l i = Some p → (p < length l)%nat.
Proof. rewrite py_index_Some. lia. Qed.

Lemma py_index_nat {A} (l : list A) (i : nat) :
  (i < length l)%nat → py_index l (Z.of_nat i) = Some i.
Proof. intros. apply py_index_Some. left. split; lia. Qed.

Lemma py_getitem_nat {A} (l : list A) (i : nat) x :
  py_getitem l (Z.of_nat i) = Ok x ↔ l !! i = Some x.
Proof.
  unfold py_getitem. destruct (decide (i < length l)%nat) as [Hi|Hi].
  - rewrite py_index_nat by done. destruct (l !! i); naive_solver.
  - rewrite (lookup_ge_None_2 l i) by lia.
    destruct (py_index l (Z.of_nat i)) as [p|] eqn:Hp; [|done].
    apply py_index_Some in Hp. lia.
Qed.

Lemma py_setitem_nat {A} (l : list A) (i : nat) x l' :
  py_setitem l (Z.of_nat i) x = Ok l' ↔ (i < length l)%nat ∧ l' = <[i:=x]> l.
Proof.
  unfold py_setitem. destruct (decide (i < length l)%nat) as [Hi|Hi].
  - rewrite py_index_nat by done. naive_solver.
  - destruct (py_index l (Z.of_nat i)) as [p|] eqn:Hp; [|naive_solver].
    apply py_index_Some in Hp. lia.
Qed.

Lemma two53_pos : 0 < two53.
Proof. done. Qed.

Lemma fraction_bounds k : 0 ≤ fraction k < two53.
Proof. unfold fraction. apply Z.mod_pos_bound, two53_pos. Qed.

(** Rounding to 53 bits changes a number by at most one part in [2^53]. *)
Lemma round53_bounds n :
  0 ≤ n → 0 ≤ round53 n ∧ round53 n * two53 ≤ n * (two53 + 1).
Proof.
  intros Hn. pose proof two53_pos as H53. unfold round53.
  destruct (Z.leb_spec (Z.log2 n - 52) 0) as [_|Hs]; [nia|].
  assert (0 < n) as Hpos.
  { destruct (Z.lt_trichotomy 0 n) as [|[<-|]]; [done|simpl in Hs; lia|lia]. }
  pose proof (Z.log2_spec n Hpos) as [Hlow _].
  set (s := Z.log2 n - 52) in *.
  assert (Z.log2 n = 53 + (s - 1)) as Hlog by lia.
  rewrite Hlog, Z.pow_add_r in Hlow by lia. fold two53 in Hlow.
  assert (2 ^ s = 2 * 2 ^ (s - 1)) as Hpow.
  { rewrite <-Z.pow_succ_r by lia. f_equal. lia. }
  assert (0 < 2 ^ (s - 1)) as Hhalf by (apply Z.pow_pos_nonneg; lia).
  pose proof (Z.div_mod n (2 ^ s) ltac:(lia)) as Hdiv.
  pose proof (Z.mod_pos_bound n (2 ^ s) ltac:(lia)) as Hmod.
  assert (0 ≤ n / 2 ^ s) as Hq by (apply Z.div_pos; lia).
  destruct (_ || _) eqn:Hup.
  - assert (2 ^ (s - 1) ≤ n mod 2 ^ s) as Hr.
    { apply orb_true_iff in Hup as [Hlt|[Heq _]%andb_true_iff]; lia. }
    nia.
  - nia.
Qed.

Lemma scale_bounds k width : 0 < width → 0 ≤ scale k width < width.
Proof.
  intros Hw. unfold scale. pose proof (fraction_bounds k) as Hk.
  pose proof two53_pos as H53.
  destruct (round53_bounds (fraction k * width)) as [H0 Hle]; [nia|]. split.
  - by apply Z.div_pos.
  - apply Z.div_lt_upper_bound; [done|]. nia.
Qed.

Lemma randrange_ret start stop d v rest :
  randrange start stop d = Ret v rest →
  start ≤ v < stop ∧ ∃ k, d = k :: rest.
Proof.
  unfold randrange. case_match; [done|]. destruct d as [|k d]; [done|].
  intros [= <- <-]. pose proof (scale_bounds k (stop - start)). split; [lia|eauto].
Qed.

Lemma choice_ret {A} (seq : list A) d x rest :
  choice seq d = Ret x rest → x ∈ seq ∧ ∃ k, d = k :: rest.
Proof.
  unfold choice. destruct d as [|k d]; [done|]. case_match eqn:Hx; [|done].
  intros [= <- <-]. split; [by eapply list_elem_of_lookup_2|eauto].
Qed.

(** A loop invariant for [while True]. *)
Lemma while_true_fuel_ret {S A} (I : S → Prop) (P : A → Prop) (body : S → rand (S + A)) :
  (∀ s d s' rest, I s → body s d = Ret (inl s') rest → I s') →
  (∀ s d a rest, I s → body s d = Ret (inr a) rest → P a) →
  ∀ fuel s d a rest, I s → while_true_fuel fuel body s d = Ret a rest → P a.
Proof.
  intros Hcont Hbreak. induction fuel as [|fuel IH]; simpl; [done|].
  intros s d a rest Hs. destruct (body s d) as [[s'|a'] rest'| |] eqn:Hb; try done.
  - intros. eapply IH; [|done]. eauto.
  - intros [= <- <-]. eauto.
Qed.

Lemma while_true_ret {S A} (I : S → Prop) (P : A → Prop) (body : S → rand (S + A)) :
  (∀ s d s' rest, I s → body s d = Ret (inl s') rest → I s') →
  (∀ s d a rest, I s → body s d = Ret (inr a) rest → P a) →
  ∀ s d a rest, I s → while_true body s d = Ret a rest → P a.
Proof. intros ?? s d a rest. unfold while_true. by apply while_true_fuel_ret. Qed.

(** ** [random_gene] *)

Section random_gene.
Context {func value : Type} `{!Runtime func value}.
Local Abbreviation gene := (gene func).
Local Abbreviation Individual := (Individual func value).
Implicit Types (self : Individual) (g : gene) (d rest : draws).

Lemma output_index_div self index :
  node_step self ≠ 0%nat →
  (graph_length self ≤ index / node_step self)%nat ↔ output_index self index.
Proof.
  intros Hns. unfold output_index. split; intros Hle.
  - destruct (decide (graph_length self * node_step self ≤ index)%nat); [done|].
    assert (index / node_step self < graph_length self)%nat; [|lia].
    apply Nat.div_lt_upper_bound; lia.
  - apply Nat.div_le_lower_bound; lia.
Qed.

(** The bound of the references a gene may hold: its node, or
    [graph_length] for an output gene. *)
Lemma random_gene_ret self index invalid d g rest :
  random_gene self index invalid d = Ret g rest →
  node_step self ≠ 0%nat ∧
  ((¬ output_index self index ∧ (index mod node_step self = 0)%nat ∧
     ∃ f, g = GFun f ∧ f ∈ function_list self ∧
       ((function_list self = [f] ∧ rest = d)
        ∨ (length (function_list self) ≠ 1%nat ∧ differs g invalid = true)))
   ∨ ((output_index self index ∨ (index mod node_step self ≠ 0)%nat) ∧
      ∃ node : nat,
        node = (if decide (output_index self index) then graph_length self
                else index / node_step self)%nat ∧
        (((node + input_length self)%nat = 1%nat ∧ g = GInt (-1) ∧ rest = d)
         ∨ ((node + input_length self)%nat ≠ 1%nat ∧ differs g invalid = true ∧
            ∃ v, g = GInt v ∧ - Z.of_nat (input_length self) ≤ v < Z.of_nat node)))).
Proof.
  unfold random_gene. destruct (Nat.eqb_spec (node_step self) 0) as [|Hns]; [by destruct d|].
  pose proof (output_index_div self index Hns) as Hout.
  intros Hret. split; [done|].
  destruct (Nat.leb_spec (graph_length self) (index / node_step self)) as [Hle|Hlt].
  - (* an output gene *)
    assert (output_index self index) as Ho by (by apply Hout).
    simpl in Hret. right. split; [by left|]. exists (graph_length self).
    rewrite decide_True by done. split; [done|].
    destruct (Nat.eqb_spec (graph_length self + input_length self) 1) as [H1|H1].
    + apply rand_ret_ret in Hret as [<- ->]. by left.
    + right. split; [done|].
      revert Hret.
      apply (while_true_ret (λ _, True) (λ g, differs g invalid = true ∧
        ∃ v, g = GInt v ∧ - Z.of_nat (input_length self) ≤ v < Z.of_nat (graph_length self)));
        [done| |done].
      intros [] d' a rest' _ (c & d'' & Hc & Hk)%rand_bind_ret.
      apply randrange_ret in Hc as [Hc _].
      destruct (differs (GInt c) invalid) eqn:Hd; apply rand_ret_ret in Hk as [[=] ->].
      subst. eauto.
  - assert (¬ output_index self index) as Ho by (rewrite <-Hout; lia).
    destruct (Z.eqb_spec (Z.of_nat (index mod node_step self)) 0) as [H0|H0].
    + (* a function gene *)
      left. split; [done|]. split; [lia|].
      destruct (Nat.eqb_spec (length (function_list self)) 1) as [H1|H1].
      * apply rand_lift_ret in Hret as [(f & Hf & [= <-])%result_bind_ok ->].
        exists f. destruct (function_list self) as [|f' [|??]] eqn:Hfl; try done.
        vm_compute in Hf. simplify_eq. split; [done|]. split; [apply list_elem_of_here|by left].
      * revert Hret.
        apply (while_true_ret (λ _, True) (λ g, ∃ f, g = GFun f ∧ f ∈ function_list self ∧
          ((function_list self = [f] ∧ rest = d)
           ∨ (length (function_list self) ≠ 1%nat ∧ differs g invalid = true))));
          [done| |done].
        intros [] d' a rest' _ (c & d'' & Hc & Hk)%rand_bind_ret.
        apply choice_ret in Hc as [Hc _].
        destruct (differs (GFun c) invalid) eqn:Hd; apply rand_ret_ret in Hk as [[=] ->].
        subst. eauto 10.
    + (* a connection gene *)
      right. split; [right; lia|]. exists (index / node_step self)%nat.
      rewrite decide_False by done. split; [done|].
      destruct (Nat.eqb_spec (index / node_step self + input_length self) 1) as [H1|H1].
      * apply rand_ret_ret in Hret as [<- ->]. by left.
      * right. split; [done|].
        revert Hret.
        apply (while_true_ret (λ _, True) (λ g, differs g invalid = true ∧
          ∃ v, g = GInt v ∧
               - Z.of_nat (input_length self) ≤ v < Z.of_nat (index / node_step self)%nat));
          [done| |done].
        intros [] d' a rest' _ (c & d'' & Hc & Hk)%rand_bind_ret.
        apply randrange_ret in Hc as [Hc _].
        destruct (differs (GInt c) invalid) eqn:Hd; apply rand_ret_ret in Hk as [[=] ->].
        subst. eauto.
Qed.
End random_gene.

(** ** Legal genes and the acyclicity invariant *)

Lemma all_indexed_lookup {A} (P : nat → A → Prop) start (l : list A) :
  all_indexed P start l ↔ ∀ i x, l !! i = Some x → P (start + i)%nat x.
Proof.
  revert start. induction l as [|y l IH]; intros start; simpl.
  - split; [by intros _ i x|done].
  - rewrite IH. split.
    + intros [Hy Hl] [|i] x; simpl.
      * intros [= <-]. by rewrite Nat.add_0_r.
      * intros Hx. replace (start + S i)%nat with (S start + i)%nat by lia. eauto.
    + intros Hall. split.
      * specialize (Hall 0%nat y). rewrite Nat.add_0_r in Hall. eauto.
      * intros i x Hx. specialize (Hall (S i) x).
        replace (start + S i)%nat with (S start + i)%nat in Hall by lia. eauto.
Qed.

Lemma for_each_ret {X S} (I : S → Prop) (xs : list X) (body : X → S → rand S) :
  (∀ x s d s' rest, x ∈ xs → I s → body x s d = Ret s' rest → I s') →
  ∀ s d s' rest, I s → for_each xs body s d = Ret s' rest → I s'.
Proof.
  induction xs as [|x xs IH]; simpl; intros Hbody s d s' rest Hs.
  - by intros [<- _]%rand_ret_ret.
  - unfold rand_bind. destruct (body x s d) as [s1 d1| |] eqn:Hb; [|done..].
    apply IH; [|eapply Hbody; [left|..]; done].
    intros ???????. eapply Hbody; [by right|done..].
Qed.

Lemma rand_map_ret {A B} (f : A → rand B) (l : list A) d ys rest :
  rand_map f l d = Ret ys rest →
  Forall2 (λ x y, ∃ d1 d2, f x d1 = Ret y d2) l ys.
Proof.
  revert d ys rest. induction l as [|x l IH]; simpl; intros d ys rest.
  - intros [<- _]%rand_ret_ret. constructor.
  - unfold rand_bind at 1. destruct (f x d) as [y d1| |] eqn:Hf; [|done..].
    unfold rand_bind. destruct (rand_map f l d1) as [ys' d2| |] eqn:Hm; [|done..].
    intros [<- _]%rand_ret_ret. constructor; [by eauto|]. by eapply IH.
Qed.

Section acyclic.
Context {func value : Type} `{!Runtime func value}.
Local Abbreviation gene := (gene func).
Local Abbreviation Individual := (Individual func value).
Implicit Types (self mutant : Individual) (g : gene) (d rest : draws).

Lemma legal_acyclic_at (self : Individual) index (g : gene) :
  legal self index g → acyclic_at self index g.
Proof. unfold legal, acyclic_at. by repeat case_decide. Qed.

Lemma legal_same_config (a : Individual) (b : Individual) index (g : gene) :
  same_config a b → legal a index g → legal b index g.
Proof.
  intros (Hns & Hil & Hgl & Hfl & Hol). unfold legal.
  repeat case_decide; unfold output_index in *;
    rewrite <-?Hns, <-?Hil, <-?Hgl, <-?Hfl in *; first [done | lia].
Qed.

Lemma acyclic_at_same_config (a : Individual) (b : Individual) index (g : gene) :
  same_config a b → acyclic_at a index g → acyclic_at b index g.
Proof.
  intros (Hns & Hil & Hgl & Hfl & Hol). unfold acyclic_at.
  repeat case_decide; unfold output_index in *;
    rewrite <-?Hns, <-?Hil, <-?Hgl, <-?Hfl in *; first [done | lia].
Qed.

Lemma acyclic_lookup (self : Individual) :
  acyclic self ↔ ∀ index g, genes self !! index = Some g → acyclic_at self index g.
Proof. unfold acyclic. by rewrite all_indexed_lookup. Qed.

Lemma acyclic_insert (self : Individual) (mutant : Individual) index (g : gene) :
  same_config self mutant →
  acyclic mutant → acyclic_at self index g →
  acyclic (set_genes mutant (<[index:=g]> (genes mutant))).
Proof.
  rewrite !acyclic_lookup. intros Hcfg Hm Hg j x. simpl.
  destruct (decide (j = index)) as [->|Hne].
  - intros Hx. apply list_lookup_insert_Some in Hx as [(_ & <- & _)|[? _]]; [|done].
    by apply (acyclic_at_same_config self).
  - rewrite list_lookup_insert_ne by done. apply Hm.
Qed.

(** With at least one input, whatever [random_gene] returns is a legal
    value of the gene. *)
Lemma random_gene_legal (self : Individual) index invalid d (g : gene) rest :
  (1 ≤ input_length self)%nat →
  random_gene self index invalid d = Ret g rest →
  legal self index g.
Proof.
  intros Hil (Hns & [(Ho & Hmod & f & -> & Hf & _)|(Hk & node & Hnode & Hg)])%random_gene_ret.
  - unfold legal. by rewrite decide_False, decide_True.
  - assert (in_range (- Z.of_nat (input_length self)) (Z.of_nat node) g) as Hr.
    { destruct Hg as [(? & -> & _)|(_ & _ & v & -> & ?)]; simpl; lia. }
    unfold legal. case_decide; subst node; [done|].
    rewrite decide_False; [done|]. by destruct Hk.
Qed.

Lemma legal_genes_acyclic (self : Individual) : legal_genes self → acyclic self.
Proof.
  intros Hl. apply acyclic_lookup. intros index g Hg. by apply legal_acyclic_at, Hl.
Qed.

Lemma legal_genes_insert (self : Individual) (mutant : Individual) index (g : gene) :
  same_config self mutant →
  legal_genes mutant → legal self index g →
  legal_genes (set_genes mutant (<[index:=g]> (genes mutant))).
Proof.
  intros Hcfg Hm Hg j x. simpl.
  destruct (decide (j = index)) as [->|Hne].
  - intros Hx. apply list_lookup_insert_Some in Hx as [(_ & <- & _)|[? _]]; [|done].
    by apply (legal_same_config self).
  - rewrite list_lookup_insert_ne by done. intros Hx.
    apply (legal_same_config mutant); [done|]. by apply Hm.
Qed.

Lemma same_config_sym (a : Individual) (b : Individual) :
  same_config a b → same_config b a.
Proof. intros (?&?&?&?&?). by repeat split. Qed.

Lemma kept_refl (self : Individual) : kept self self.
Proof. by repeat split. Qed.

Lemma kept_copy (self : Individual) : kept self (copy self).
Proof. by repeat split. Qed.

Lemma kept_determine_active_nodes (self : Individual) (mutant : Individual) :
  kept self mutant → kept self (determine_active_nodes mutant).
Proof. done. Qed.

(** Replacing a gene by what [random_gene] returns for it. *)
Lemma kept_insert (self : Individual) (mutant : Individual) index invalid d (new : gene) rest :
  kept self mutant →
  random_gene mutant index invalid d = Ret new rest →
  kept self (set_genes mutant (<[index:=new]> (genes mutant))).
Proof.
  intros (Hcfg & Hlen & Hscr & Hfit & Hacy & Hleg) Hnew.
  assert ((1 ≤ input_length self)%nat → legal self index new) as Hlegal.
  { intros Hil. apply (legal_same_config mutant); [by apply same_config_sym|].
    eapply random_gene_legal; [|done]. destruct Hcfg as (?&?&?&?&?). lia. }
  split_and!; try done.
  - by simpl; rewrite length_insert.
  - intros Hil Hself. apply (acyclic_insert self); [done|by apply Hacy|].
    by apply legal_acyclic_at, Hlegal.
  - intros Hil Hself. apply (legal_genes_insert self); [done|by apply Hleg|].
    by apply Hlegal.
Qed.

Lemma mutate_round_kept (self : Individual) rate index (mutant : Individual) d (mutant' : Individual) rest :
  kept self mutant →
  mutate_round rate index mutant d = Ret mutant' rest →
  kept self mutant'.
Proof.
  intros Hm (hit & d1 & _ & Hk)%rand_bind_ret. destruct hit.
  - apply rand_bind_ret in Hk as (old & d2 & _ & Hk).
    apply rand_bind_ret in Hk as (new & d3 & Hnew & Hk).
    apply rand_bind_ret in Hk as (gs & d4 & [Hgs ->]%rand_lift_ret & [<- ->]%rand_ret_ret).
    apply py_setitem_nat in Hgs as [_ ->]. by eapply kept_insert.
  - by apply rand_ret_ret in Hk as [<- _].
Qed.

Lemma mutate_kept (self : Individual) rate d (mutant : Individual) rest :
  mutate self rate d = Ret mutant rest →
  kept self mutant ∧ consistent mutant.
Proof.
  intros (m & d1 & Hloop & [<- ->]%rand_ret_ret)%rand_bind_ret.
  split; [|done]. apply kept_determine_active_nodes.
  revert Hloop. apply (for_each_ret (kept self)); [|apply kept_copy].
  intros index m0 d0 m1 d2 _ ?. by apply mutate_round_kept.
Qed.
End acyclic.

(** ** [one_active_mutation] *)

Section one_active.
Context {func value : Type} `{!Runtime func value}.
Local Abbreviation gene := (gene func).
Local Abbreviation Individual := (Individual func value).

Lemma one_active_round_spec (self mutant : Individual) d r rest :
  one_active_inv self mutant →
  one_active_round self mutant d = Ret r rest →
  match r with
  | inl mutant' => one_active_inv self mutant'
  | inr mutant' => one_active_post self mutant'
  end.
Proof.
  intros (Hkept & Hsame) (i & d1 & Hi & Hk)%rand_bind_ret.
  apply randrange_ret in Hi as [Hi _].
  apply rand_bind_ret in Hk as (newval & d2 & Hnew & Hk).
  apply rand_bind_ret in Hk as (old & d3 & [Hold ->]%rand_lift_ret & Hk).
  rewrite <-(Z2Nat.id i) in Hold, Hk by lia. set (index := Z.to_nat i) in *.
  apply py_getitem_nat in Hold.
  destruct (gene_ne newval old) eqn:Hne; [|by apply rand_ret_ret in Hk as [<- _]].
  apply rand_bind_ret in Hk as (gs & d4 & [Hgs ->]%rand_lift_ret & Hk).
  rewrite Nat2Z.id in Hk.
  apply py_setitem_nat in Hgs as [Hlt ->].
  apply bool_decide_eq_true in Hne.
  pose proof (kept_insert _ _ _ _ _ _ _ Hkept Hnew) as Hkept'.
  assert (∀ j, j ≠ index → active_index self j →
    <[index:=newval]> (genes mutant) !! j = genes self !! j) as Hother.
  { intros j Hj Hact. rewrite list_lookup_insert_ne by done. by apply Hsame. }
  destruct Hkept as (_ & Hlen & _).
  cbv zeta in Hk.
  destruct ((graph_length self <=? index / node_step self)%nat
            || bool_decide (GInt (Z.of_nat (index / node_step self)) ∈ active self))
    eqn:Hact; apply rand_ret_ret in Hk as [<- _].
  - assert (active_index self index) as Hidx.
    { apply orb_true_iff in Hact as [Hle%Nat.leb_le|Hin%bool_decide_eq_true];
        [by left|by right]. }
    split; [done|].
    exists index. split; [lia|]. split; [done|]. split; [|done].
    simpl. rewrite list_lookup_insert_eq by done.
    rewrite <-(Hsame index Hidx), Hold. congruence.
  - apply orb_false_iff in Hact as [Hle%Nat.leb_gt Hin%bool_decide_eq_false].
    split; [done|].
    intros j Hj. apply Hother; [|done]. intros ->.
    destruct Hj as [?|?]; [lia|done].
Qed.

Lemma one_active_mutation_spec (self mutant : Individual) r d rest :
  one_active_mutation self r d = Ret mutant rest →
  one_active_post self mutant ∧ consistent mutant.
Proof.
  intros (m & d1 & Hloop & [<- ->]%rand_ret_ret)%rand_bind_ret.
  split; [|done].
  cut (one_active_post self m); [done|].
  revert Hloop. apply (while_true_ret (one_active_inv self)).
  - intros m0 d0 m1 d2 Hinv Hr. apply (one_active_round_spec _ _ _ _ _ Hinv Hr).
  - intros m0 d0 m1 d2 Hinv Hr. apply (one_active_round_spec _ _ _ _ _ Hinv Hr).
  - split; [apply kept_copy|done].
Qed.
End one_active.

(** ** [__init__] *)

Section init.
Context {func value : Type} `{!Runtime func value}.
Local Abbreviation gene := (gene func).
Local Abbreviation Individual := (Individual func value).

Lemma init_spec (gl il ol ma : nat) (fl : list func) d (self : Individual) rest :
  __init__ gl il ol ma fl d = Ret self rest →
  node_step self = (ma + 1)%nat
  ∧ input_length self = il
  ∧ graph_length self = gl
  ∧ function_list self = fl
  ∧ output_length self = ol
  ∧ shaped self
  ∧ consistent self
  ∧ scratch self = replicate (gl + il) py_None
  ∧ fitness self = inject_Z (- sys_maxint)
  ∧ ((1 ≤ il)%nat → legal_genes self).
Proof.
  unfold __init__. intros (gs & d1 & Hgs & [<- ->]%rand_ret_ret)%rand_bind_ret.
  apply rand_map_ret in Hgs.
  pose proof (Forall2_length _ _ _ Hgs) as Hlen. rewrite length_seq in Hlen.
  simpl in Hlen.
  refine (conj eq_refl (conj eq_refl (conj eq_refl (conj eq_refl (conj eq_refl
    (conj _ (conj eq_refl (conj eq_refl (conj eq_refl _))))))))).
  - unfold shaped; simpl. rewrite length_replicate. lia.
  - intros Hil index g Hg. simpl in Hg.
    destruct (Forall2_lookup_r _ _ _ _ _ Hgs Hg) as (i & Hi & d2 & d3 & Hr).
    apply lookup_seq in Hi as [-> _].
    apply random_gene_legal in Hr; [|done].
    eapply legal_same_config; [|exact Hr]. done.
Qed.
End init.

(** ** [random_gene] with a value to avoid *)

(** A resampling loop whose rounds each use one draw returns at the first
    draw that makes it leave. *)
Lemma resample_returns {A} (body : unit → rand (unit + A)) (step : Z → unit + A) :
  (∀ k rest, body () (k :: rest) = Ret (step k) rest) →
  ∀ d, (∃ k a, k ∈ d ∧ step k = inr a) →
  ∃ a rest, while_true body () d = Ret a rest.
Proof.
  intros Hbody. unfold while_true.
  induction d as [|k d IH]; intros (k' & a & Hin & Hstep).
  - by apply elem_of_nil in Hin.
  - simpl. rewrite Hbody. destruct (step k) as [[]|a'] eqn:Hk; [|by eauto].
    apply IH. exists k', a. split; [|done].
    apply elem_of_cons in Hin as [->|?]; [congruence|done].
Qed.

Section random_gene_avoid.
Context {func value : Type} `{!Runtime func value}.
Local Abbreviation gene := (gene func).
Local Abbreviation Individual := (Individual func value).

Lemma differs_Some (g avoid : gene) : differs g (Some avoid) = true ↔ g ≠ avoid.
Proof. unfold differs, gene_ne. by rewrite bool_decide_eq_true. Qed.

Lemma several_legal_function (self : Individual) index :
  ¬ output_index self index → (index mod node_step self = 0)%nat →
  several_legal self index →
  length (function_list self) ≠ 1%nat.
Proof.
  intros Ho Hmod (g1 & g2 & H1 & H2 & Hne) Hlen. unfold legal in *.
  rewrite decide_False, decide_True in H1, H2 by done.
  destruct (function_list self) as [|f [|??]]; try done.
  destruct g1, g2; try done. apply list_elem_of_singleton in H1, H2. congruence.
Qed.

Lemma several_legal_reference (self : Individual) index :
  output_index self index ∨ (index mod node_step self ≠ 0)%nat →
  several_legal self index →
  (2 ≤ reference_bound self index + input_length self)%nat.
Proof.
  intros Hk (g1 & g2 & H1 & H2 & Hne). unfold legal, reference_bound in *.
  case_decide.
  - destruct g1, g2; simpl in *; try done.
    assert (z ≠ z0) by congruence. lia.
  - rewrite decide_False in H1, H2 by (by destruct Hk).
    destruct g1, g2; simpl in *; try done.
    assert (z ≠ z0) by congruence. lia.
Qed.

Lemma random_gene_returns (self : Individual) index (avoid : gene) d :
  (0 < node_step self)%nat →
  several_legal self index →
  (∃ k g, k ∈ d ∧ candidate self index k = Some g ∧ g ≠ avoid) →
  ∃ g rest, random_gene self index (Some avoid) d = Ret g rest.
Proof.
  intros Hns Hsev (k & g & Hk & Hcand & Hne).
  pose proof (output_index_div self index ltac:(lia)) as Hout.
  unfold random_gene. destruct (Nat.eqb_spec (node_step self) 0) as [|_]; [lia|].
  unfold candidate, reference_bound in Hcand.
  destruct (Nat.leb_spec (graph_length self) (index / node_step self)) as [Hle|Hlt].
  - assert (output_index self index) as Ho by (by apply Hout).
    pose proof (several_legal_reference self index (or_introl Ho) Hsev) as H2.
    unfold reference_bound in H2. rewrite decide_True in H2 by done.
    rewrite decide_False, decide_True in Hcand by tauto. simpl.
    destruct (Nat.eqb_spec (graph_length self + input_length self) 1) as [|_]; [lia|].
    apply (resample_returns _ (λ k,
      let c := GInt (- Z.of_nat (input_length self)
        + scale k (Z.of_nat (graph_length self) - - Z.of_nat (input_length self))) in
      if differs c (Some avoid) then inr c else inl ())).
    + intros k' rest. unfold mbind, rand_mbind, rand_bind, randrange.
      rewrite (proj2 (Z.leb_gt _ _)) by lia. simpl. by case_match.
    + exists k, g. split; [done|]. simplify_eq. cbv zeta.
      by rewrite (proj2 (differs_Some _ _)).
  - assert (¬ output_index self index) as Ho by (rewrite <-Hout; lia).
    destruct (Z.eqb_spec (Z.of_nat (index mod node_step self)) 0) as [H0|H0].
    + pose proof (several_legal_function self index Ho ltac:(lia) Hsev) as H2.
      rewrite decide_True in Hcand by (split; [done|lia]).
      destruct (Nat.eqb_spec (length (function_list self)) 1) as [|_]; [done|].
      destruct (function_list self !! Z.to_nat (scale k (Z.of_nat (length (function_list self)))))
        as [f|] eqn:Hf; [|done]. simpl in Hcand. simplify_eq.
      assert (function_list self ≠ []) as Hfl by (by intros Hnil; rewrite Hnil in Hf).
      apply (resample_returns _ (λ k,
        match function_list self !! Z.to_nat (scale k (Z.of_nat (length (function_list self)))) with
        | Some c => if differs (GFun c) (Some avoid) then inr (GFun c) else inl ()
        | None => inl ()
        end)).
      * intros k' rest. unfold mbind, rand_mbind, rand_bind, choice.
        destruct (function_list self
                    !! Z.to_nat (scale k' (Z.of_nat (length (function_list self)))))
          as [c|] eqn:Hc; [by case_match|].
        apply lookup_ge_None in Hc.
        pose proof (scale_bounds k' (Z.of_nat (length (function_list self)))) as Hs.
        destruct (function_list self); [done|]. simpl in *. lia.
      * exists k, (GFun f). split; [done|]. rewrite Hf.
        by rewrite (proj2 (differs_Some _ _)).
    + assert (index mod node_step self ≠ 0)%nat as Hmod by lia.
      pose proof (several_legal_reference self index (or_intror Hmod) Hsev) as H2.
      unfold reference_bound in H2. rewrite decide_False in H2 by done.
      rewrite decide_False, decide_False in Hcand by tauto.
      destruct (Nat.eqb_spec (index / node_step self + input_length self) 1) as [|_]; [lia|].
      apply (resample_returns _ (λ k,
        let c := GInt (- Z.of_nat (input_length self)
          + scale k (Z.of_nat (index / node_step self) - - Z.of_nat (input_length self))) in
        if differs c (Some avoid) then inr c else inl ())).
      * intros k' rest. unfold mbind, rand_mbind, rand_bind, randrange.
        rewrite (proj2 (Z.leb_gt _ _)) by lia. simpl. by case_match.
      * exists k, g. split; [done|]. simplify_eq. cbv zeta.
        by rewrite (proj2 (differs_Some _ _)).
Qed.
End random_gene_avoid.

(** ** Sorting a list of integer genes *)

Lemma list_merge_fmap {A B} (R1 : relation A) (R2 : relation B)
    `{!RelDecision R1, !RelDecision R2} (f : A → B) :
  (∀ x y, R1 x y ↔ R2 (f x) (f y)) →
  ∀ l1 l2, f <$> list_merge R1 l1 l2 = list_merge R2 (f <$> l1) (f <$> l2).
Proof.
  intros Hf. induction l1 as [|x1 l1 IH1]; intros l2.
  - by rewrite fmap_nil, !list_merge_nil_l.
  - induction l2 as [|x2 l2 IH2]; [by rewrite fmap_nil, !list_merge_nil_r|].
    rewrite !fmap_cons, !list_merge_cons.
    destruct (decide (R1 x1 x2)) as [H1|H1], (decide (R2 (f x1) (f x2))) as [H2|H2];
      try (by apply Hf in H1); try (by apply Hf in H2).
    + by rewrite fmap_cons, IH1.
    + by rewrite fmap_cons, IH2.
Qed.

Lemma merge_list_to_stack_fmap {A B} (R1 : relation A) (R2 : relation B)
    `{!RelDecision R1, !RelDecision R2} (f : A → B) :
  (∀ x y, R1 x y ↔ R2 (f x) (f y)) →
  ∀ st l, stack_fmap f (merge_list_to_stack R1 st l)
          = merge_list_to_stack R2 (stack_fmap f st) (f <$> l).
Proof.
  intros Hf. unfold stack_fmap.
  induction st as [|[l'|] st IH]; intros l; simpl; [done| |done].
  by rewrite IH, (list_merge_fmap R1 R2).
Qed.

Lemma merge_stack_fmap {A B} (R1 : relation A) (R2 : relation B)
    `{!RelDecision R1, !RelDecision R2} (f : A → B) :
  (∀ x y, R1 x y ↔ R2 (f x) (f y)) →
  ∀ st, f <$> merge_stack R1 st = merge_stack R2 (stack_fmap f st).
Proof.
  intros Hf. unfold stack_fmap.
  induction st as [|[l'|] st IH]; simpl; [done| |done].
  by rewrite (list_merge_fmap R1 R2), IH.
Qed.

Lemma merge_sort_fmap {A B} (R1 : relation A) (R2 : relation B)
    `{!RelDecision R1, !RelDecision R2} (f : A → B) :
  (∀ x y, R1 x y ↔ R2 (f x) (f y)) →
  ∀ l, f <$> merge_sort R1 l = merge_sort R2 (f <$> l).
Proof.
  intros Hf l. unfold merge_sort.
  change (@nil (option (list B))) with (stack_fmap f []).
  generalize (@nil (option (list A))). induction l as [|x l IH]; intros st; simpl.
  - by apply merge_stack_fmap.
  - rewrite IH. by rewrite (merge_list_to_stack_fmap R1 R2).
Qed.

Lemma StronglySorted_le_lt (l : list Z) :
  NoDup l → StronglySorted Z.le l → StronglySorted Z.lt l.
Proof.
  induction 2 as [|x l Hl IH Hx]; [constructor|].
  apply NoDup_cons in H as [Hnotin Hnd].
  constructor; [by apply IH|].
  apply Forall_forall. intros y Hy.
  assert (x ≠ y) by (intros ->; by apply Hnotin, list_elem_of_In).
  pose proof (proj1 (Forall_forall _ _) Hx y Hy). lia.
Qed.

Lemma merge_sort_Z (l : list Z) :
  NoDup l →
  StronglySorted Z.lt (merge_sort Z.le l) ∧ ∀ v, v ∈ merge_sort Z.le l ↔ v ∈ l.
Proof.
  intros Hnd. split.
  - apply StronglySorted_le_lt.
    + by rewrite merge_sort_Permutation.
    + apply StronglySorted_merge_sort; apply _.
  - intros v. by rewrite merge_sort_Permutation.
Qed.

(** ** [determine_active_nodes] *)

Lemma py_clamp_nonneg {A} (l : list A) (i : nat) :
  py_clamp l (Z.of_nat i) = (i `min` length l)%nat.
Proof.
  unfold py_clamp. destruct (Z.ltb_spec (Z.of_nat i) 0); lia.
Qed.

Lemma py_clamp_last {A} (l : list A) (k : nat) :
  (1 ≤ k)%nat → py_clamp l (- Z.of_nat k) = (length l - k)%nat.
Proof.
  intros Hk. unfold py_clamp. destruct (Z.ltb_spec (- Z.of_nat k) 0); lia.
Qed.

Lemma py_clamp_zero {A} (l : list A) : py_clamp l (- Z.of_nat 0) = 0%nat.
Proof. unfold py_clamp. simpl. lia. Qed.

Lemma ints_fmap {func} (l : list (gene func)) :
  Forall (λ g, ∃ v, g = GInt v) l → l = GInt <$> ints l.
Proof.
  induction 1 as [|g l [v ->] _ IH]; [done|]. unfold ints in *. simpl.
  by f_equal.
Qed.

Global Instance GInt_inj {func} : Inj (=) (=) (@GInt func).
Proof. by intros x y [= ->]. Qed.

Section active_set.
Context {func value : Type} `{!Runtime func value}.
Local Abbreviation gene := (gene func).
Local Abbreviation Individual := (Individual func value).

Variable self : Individual.
Hypothesis Hns : (0 < node_step self)%nat.
Hypothesis Hlen :
  length (genes self) = (graph_length self * node_step self + output_length self)%nat.
Hypothesis Hacy : acyclic self.

Lemma connections_genes (node : nat) :
  (node < graph_length self)%nat →
  connections self (Z.of_nat node) = connection_genes self node.
Proof.
  intros Hnode. unfold connections, connection_genes, py_slice.
  replace (Z.of_nat (node_step self) * Z.of_nat node + 1)
    with (Z.of_nat (node * node_step self + 1)) by lia.
  replace (Z.of_nat (node_step self) * Z.of_nat node + Z.of_nat (node_step self))
    with (Z.of_nat (node * node_step self + node_step self)) by lia.
  rewrite !py_clamp_nonneg.
  assert (node * node_step self + node_step self ≤ graph_length self * node_step self)%nat
    by nia.
  f_equal; [lia|f_equal; lia].
Qed.

Lemma connection_gene_lookup (node : nat) (g : gene) :
  g ∈ connection_genes self node →
  ∃ k, (1 ≤ k < node_step self)%nat ∧ genes self !! (node * node_step self + k)%nat = Some g.
Proof.
  unfold connection_genes. intros (j & Hj & Hlt)%elem_of_take.
  rewrite lookup_drop in Hj. exists (1 + j)%nat. split; [lia|].
  by replace (node * node_step self + (1 + j))%nat
    with (node * node_step self + 1 + j)%nat by lia.
Qed.

Lemma connection_gene_range (node : nat) (g : gene) :
  (node < graph_length self)%nat →
  g ∈ connection_genes self node →
  ∃ v, g = GInt v ∧ - Z.of_nat (input_length self) ≤ v < Z.of_nat node.
Proof.
  intros Hnode (k & Hk & Hg)%connection_gene_lookup.
  pose proof (proj1 (acyclic_lookup self) Hacy _ _ Hg) as Hat.
  set (index := (node * node_step self + k)%nat) in *.
  assert (index / node_step self = node)%nat as Hdiv.
  { symmetry. apply (Nat.div_unique index (node_step self) node k); lia. }
  assert (index mod node_step self = k)%nat as Hmod.
  { symmetry. apply (Nat.mod_unique index (node_step self) node k); lia. }
  unfold acyclic_at in Hat.
  rewrite decide_False in Hat by (unfold output_index; nia).
  rewrite decide_False, Hdiv in Hat by lia.
  destruct g as [f|v]; [done|]. eauto.
Qed.

Lemma output_gene_range (g : gene) :
  g ∈ output_genes self →
  ∃ v, g = GInt v ∧ - Z.of_nat (input_length self) ≤ v < Z.of_nat (graph_length self).
Proof.
  unfold output_genes. intros (j & Hj)%list_elem_of_lookup.
  rewrite lookup_drop in Hj.
  pose proof (proj1 (acyclic_lookup self) Hacy _ _ Hj) as Hat.
  unfold acyclic_at in Hat.
  rewrite decide_True in Hat by (unfold output_index; lia).
  destruct g as [f|v]; [done|]. eauto.
Qed.

Lemma sweep_inv_seed :
  (1 ≤ output_length self)%nat →
  sweep_inv self (graph_length self)
    (py_set (py_slice_from (genes self) (- Z.of_nat (output_length self)))).
Proof.
  intros Hol. unfold py_slice_from. rewrite py_clamp_last by done.
  fold (output_genes self). unfold py_set. split_and!.
  - intros g Hg. rewrite elem_of_remove_dups in Hg.
    destruct (output_gene_range g Hg) as (v & -> & _).
    exists v. split; [done|]. by apply reach_output.
  - intros g Hg. by rewrite elem_of_remove_dups.
  - intros node ?. lia.
Qed.

Lemma sweep_inv_step (k : nat) (act : list gene) :
  (k < graph_length self)%nat →
  sweep_inv self (S k) act →
  sweep_inv self k
    (if set_in (GInt (Z.of_nat k)) act
     then set_update act (connections self (Z.of_nat k)) else act).
Proof.
  intros Hk (Hsound & Hout & Hclosed). unfold set_in, set_update.
  rewrite connections_genes by done.
  destruct (bool_decide_reflect (GInt (Z.of_nat k) ∈ act)) as [Hin|Hnotin].
  - split_and!.
    + intros g Hg. rewrite elem_of_remove_dups, elem_of_app in Hg.
      destruct Hg as [Hg|Hg]; [by apply Hsound|].
      destruct (connection_gene_range k g Hk Hg) as (v & -> & _).
      exists v. split; [done|].
      destruct (Hsound _ Hin) as (? & [= <-] & Hreach).
      by apply (reach_connection self k).
    + intros g Hg. rewrite elem_of_remove_dups, elem_of_app. left. by apply Hout.
    + intros node Hnode Hact g Hg.
      rewrite elem_of_remove_dups, elem_of_app in Hact.
      rewrite elem_of_remove_dups, elem_of_app.
      destruct Hact as [Hact|Hact].
      * destruct (decide (node = k)) as [->|Hne]; [by right|].
        left. apply (Hclosed node); [lia|done..].
      * destruct (connection_gene_range k _ Hk Hact) as (v & [= <-] & Hv). lia.
  - split_and!; [done..|].
    intros node Hnode Hact. destruct (decide (node = k)) as [->|Hne]; [done|].
    apply Hclosed; [lia|done].
Qed.

Lemma sweep_inv_sweep (seed : list gene) :
  sweep_inv self (graph_length self) seed →
  sweep_inv self 0 (active_sweep self seed).
Proof.
  unfold active_sweep.
  assert (∀ n act, (n ≤ graph_length self)%nat → sweep_inv self n act →
    sweep_inv self 0
      (foldl (λ act node_index,
                if set_in (GInt (Z.of_nat node_index)) act
                then set_update act (connections self (Z.of_nat node_index))
                else act) act (reverse (seq 0 n)))) as Hgen; [|by apply Hgen].
  induction n as [|n IH]; intros act Hn Hinv; [done|].
  rewrite seq_S, reverse_snoc. simpl. apply IH; [lia|].
  apply sweep_inv_step; [lia|done].
Qed.

(** A set that satisfies the invariant for every node holds exactly the
    reached references. *)
Lemma sweep_inv_reachable (act : list gene) (v : Z) :
  sweep_inv self 0 act → GInt v ∈ act ↔ reachable self v.
Proof.
  intros (Hsound & Hout & Hclosed). split.
  - intros (? & [= <-] & ?)%Hsound. done.
  - induction 1 as [v Hv|node v _ IH Hnode Hv]; [by apply Hout|].
    apply (Hclosed node); [lia|done..].
Qed.

Lemma determine_active_nodes_spec :
  (1 ≤ output_length self)%nat →
  ∃ nodes : list Z,
    active (determine_active_nodes self) = GInt <$> nodes
    ∧ StronglySorted Z.lt nodes
    ∧ ∀ v, v ∈ nodes ↔ 0 ≤ v ∧ reachable self v.
Proof.
  intros Hol. unfold determine_active_nodes. simpl.
  set (act := active_sweep self _).
  assert (sweep_inv self 0 act) as Hinv
    by (by apply sweep_inv_sweep, sweep_inv_seed).
  assert (NoDup act) as Hnd.
  { unfold act, active_sweep. generalize (reverse (seq 0 (graph_length self))).
    intros l. set (seed := py_set _).
    assert (NoDup seed) as Hseed by apply NoDup_remove_dups. clearbody seed.
    revert seed Hseed. induction l as [|x l IH]; intros seed Hseed; [done|].
    simpl. apply IH. case_match; [apply NoDup_remove_dups|done]. }
  assert (filter ge0 act = GInt <$> ints (filter ge0 act)) as Hints.
  { apply ints_fmap, Forall_forall. intros g Hg. rewrite list_elem_of_filter in Hg.
    destruct Hg as [_ Hg].
    destruct (proj1 Hinv g Hg) as (v & -> & _). eauto. }
  assert (NoDup (ints (filter ge0 act))) as Hnd'.
  { apply (NoDup_fmap (@GInt func)). rewrite <-Hints. by apply NoDup_filter. }
  destruct (merge_sort_Z _ Hnd') as [Hsorted Hmem].
  exists (merge_sort Z.le (ints (filter ge0 act))). split_and!.
  - unfold sorted. rewrite Hints at 1.
    symmetry. by apply (merge_sort_fmap Z.le gene_le).
  - done.
  - intros v. rewrite Hmem, <-(list_elem_of_fmap_inj (@GInt func)), <-Hints.
    rewrite list_elem_of_filter. simpl. by rewrite (sweep_inv_reachable act v Hinv).
Qed.
End active_set.

(** ** [evaluate] *)

Lemma scratch_bind_ok {value A B} (c : scratchM value A) (k : A → scratchM value B)
    m a m' :
  c m = (Ok a, m') → (c ≫= k) m = k a m'.
Proof. intros Hc. unfold mbind, scratch_mbind, scratch_bind. by rewrite Hc. Qed.

Lemma scratch_bind_raise {value A B} (c : scratchM value A) (k : A → scratchM value B)
    m e m' :
  c m = (Raise e, m') → (c ≫= k) m = (Raise e, m').
Proof. intros Hc. unfold mbind, scratch_mbind, scratch_bind. by rewrite Hc. Qed.



Lemma loads_follow_stores_snoc n written trace a :
  loads_follow_stores n written (trace ++ [a]) ↔
  loads_follow_stores n written trace
  ∧ match a with
    | Load i => slot n i ∈ written ∨ ∃ j, Store j ∈ trace ∧ slot n j = slot n i
    | Store _ => True
    end.
Proof.
  revert written. induction trace as [|b trace IH]; intros written; simpl.
  - destruct a; simpl; [|tauto]. split.
    + intros [? _]. auto.
    + intros [_ [?|(j & Hj & _)]]; [done|by apply elem_of_nil in Hj].
  - destruct b as [i|i].
    + rewrite IH. destruct a as [i'|i']; [|tauto]. split.
      * intros (? & ? & [?|(j & ? & ?)]); (split; [done|]); [by left|].
        right. exists j. split; [by right|done].
      * intros ((? & ?) & [?|(j & Hj & ?)]); (split; [done|split; [done|]]); [by left|].
        apply elem_of_cons in Hj as [[=]|?]. right. eauto.
    + rewrite IH. destruct a as [i'|i']; [|tauto]. split.
      * intros (? & [Hw|(j & ? & ?)]); (split; [done|]).
        -- apply elem_of_cons in Hw as [Hw|?]; [|by left].
           right. exists i. split; [left|done].
        -- right. exists j. split; [by right|done].
      * intros (? & [?|(j & Hj & Hs)]); (split; [done|]).
        -- left. by right.
        -- apply elem_of_cons in Hj as [[= ->]|?]; [left; rewrite <-Hs; left|].
           right. eauto.
Qed.

Section scratch.
Context {value : Type}.
Implicit Types (m : mem value) (n gl : nat).

Lemma run_inv_get n gl done m i :
  run_inv n gl done m →
  - Z.of_nat n ≤ i < Z.of_nat n →
  (∃ j, Store j ∈ log m ∧ slot n j = slot n i) →
  ∃ y, scratch_get i m = (Ok y, Mem (cells m) (Load i :: log m))
       ∧ run_inv n gl done (Mem (cells m) (Load i :: log m)).
Proof.
  intros (Hlen & Hb & Hl & Hin & Hdone) Hi (j & Hj & Hs). unfold scratch_get.
  assert (∃ y, py_getitem (cells m) i = Ok y) as [y ->].
  { unfold py_getitem. destruct (py_index (cells m) i) as [p|] eqn:Hp.
    - pose proof (py_index_lt _ _ _ Hp) as Hlt.
      apply lookup_lt_is_Some_2 in Hlt as [y ->]. eauto.
    - exfalso. unfold py_index in Hp. rewrite Hlen in Hp.
      destruct (Z.leb_spec 0 i), (Z.ltb_spec i (Z.of_nat n)),
        (Z.leb_spec (- Z.of_nat n) i), (Z.ltb_spec i 0); simpl in Hp; done || lia. }
  exists y. split; [done|]. split_and!; simpl; try done.
  - by constructor.
  - rewrite reverse_cons. apply loads_follow_stores_snoc. split; [done|].
    right. exists j. split; [|done]. by apply elem_of_reverse.
  - intros p Hp. right. by apply Hin.
  - intros v Hv. right. by apply Hdone.
Qed.

Lemma run_inv_set n gl done m v (r : value) :
  run_inv n gl done m →
  0 ≤ v < Z.of_nat n →
  ∃ m', scratch_set v r m = (Ok (), m') ∧ run_inv n gl (done ++ [v]) m'.
Proof.
  intros (Hlen & Hb & Hl & Hin & Hdone) Hv. unfold scratch_set, py_setitem.
  rewrite <-(Z2Nat.id v), py_index_nat by lia.
  eexists. split; [done|]. split_and!; simpl.
  - by rewrite length_insert.
  - constructor; [|done]. unfold in_bounds. simpl. lia.
  - rewrite reverse_cons. apply loads_follow_stores_snoc. by split.
  - intros p Hp. right. by apply Hin.
  - intros w [Hw|Hw%list_elem_of_singleton]%elem_of_app.
    + right. by apply Hdone.
    + subst. rewrite Z2Nat.id by lia. left.
Qed.

Lemma run_inv_load_inputs n gl (cells0 : list value) (inputs : list value) :
  length cells0 = n → (1 ≤ length inputs)%nat → (gl + length inputs = n)%nat →
  ∃ m', scratch_assign_from (- Z.of_nat (length inputs)) (reverse inputs) (Mem cells0 [])
          = (Ok (), m')
        ∧ run_inv n gl [] m'.
Proof.
  intros Hlen Hk Hn. unfold scratch_assign_from. eexists. split; [done|].
  simpl. rewrite py_clamp_last by done.
  replace (length cells0 - length inputs)%nat with gl by lia.
  rewrite length_reverse, app_nil_r.
  unfold py_slice_from_assign. rewrite py_clamp_last by done.
  replace (length cells0 - length inputs)%nat with gl by lia.
  split_and!; simpl.
  - rewrite length_app, length_take, length_reverse. lia.
  - apply Forall_forall. intros a Ha. rewrite elem_of_reverse in Ha.
    apply list_elem_of_fmap in Ha as (p & -> & Hp). apply elem_of_seq in Hp.
    unfold in_bounds. simpl. lia.
  - rewrite reverse_involutive.
    generalize (@nil Z). generalize (seq gl (length inputs)).
    induction l as [|p l IH]; intros w; simpl; [done|]. apply IH.
  - intros p Hp. apply elem_of_reverse, list_elem_of_fmap. exists p.
    split; [done|]. apply elem_of_seq. lia.
  - intros v Hv. by apply elem_of_nil in Hv.
Qed.



End scratch.

(** ** [evaluate] on a well-formed individual *)

Lemma ints_GInt {func} (l : list Z) : ints (GInt (func:=func) <$> l) = l.
Proof. unfold ints. induction l; simpl; [done|]. by f_equal. Qed.

Lemma ints_snoc {func} (l : list (gene func)) v : ints (l ++ [GInt v]) = ints l ++ [v].
Proof. unfold ints. by rewrite omap_app. Qed.

Lemma StronglySorted_lt_before (l1 l2 : list Z) v w :
  StronglySorted Z.lt (l1 ++ v :: l2) → w ∈ l1 ++ v :: l2 → w < v → w ∈ l1.
Proof.
  intros Hs Hw Hlt. apply elem_of_app in Hw as [?|Hw]; [done|].
  apply StronglySorted_app in Hs as (_ & _ & Hs).
  apply StronglySorted_cons in Hs as [Hall _].
  apply elem_of_cons in Hw as [->|Hw]; [lia|].
  pose proof (proj1 (Forall_forall _ _) Hall w Hw). lia.
Qed.

Section evaluate_safe.
Context {func value : Type} `{!Runtime func value}.
Local Abbreviation gene := (gene func).
Local Abbreviation Individual := (Individual func value).

Variable self : Individual.
Hypothesis Hns : (0 < node_step self)%nat.
Hypothesis Hlen :
  length (genes self) = (graph_length self * node_step self + output_length self)%nat.
Hypothesis Hacy : acyclic self.
Hypothesis Hol : (1 ≤ output_length self)%nat.

Lemma reachable_range v :
  reachable self v →
  - Z.of_nat (input_length self) ≤ v < Z.of_nat (graph_length self).
Proof.
  induction 1 as [v Hv|node v _ _ Hnode Hv].
  - by destruct (output_gene_range self Hns Hlen Hacy _ Hv) as (? & [= <-] & ?).
  - destruct (connection_gene_range self Hns Hlen Hacy _ _ Hnode Hv) as (? & [= <-] & ?).
    lia.
Qed.


Variable nodes : list Z.
Hypothesis Hactive : active self = GInt <$> nodes.
Hypothesis Hsorted : StronglySorted Z.lt nodes.
Hypothesis Hnodes : ∀ v, v ∈ nodes ↔ 0 ≤ v ∧ reachable self v.

Let n : nat := (graph_length self + input_length self)%nat.

Variable dom : value → Prop.




End evaluate_safe.

(** ** [evaluate] does not depend on what the scratch buffer held *)

Section sim.
Context {value : Type}.
Implicit Types (m : mem value) (P Q R : mem value → mem value → Prop).

Lemma sim_bind {A B} (c : scratchM value A) (k : A → scratchM value B) P Q R :
  sim c P Q → (∀ a, (∃ m, (c m).1 = Ok a) → sim (k a) Q R) → sim (c ≫= k) P R.
Proof.
  intros Hc Hk m1 m2 HP. destruct (Hc m1 m2 HP) as [Heq HQ].
  unfold mbind, scratch_mbind, scratch_bind.
  destruct (c m1) as [[a|e] m1'] eqn:H1, (c m2) as [[a'|e'] m2'] eqn:H2;
    simpl in *; simplify_eq; [|done].
  apply Hk; [exists m1; by rewrite H1|]. by apply (HQ a').
Qed.

Lemma sim_weaken {A} (c : scratchM value A) P P' Q :
  (∀ m1 m2, P m1 m2 → P' m1 m2) → sim c P' Q → sim c P Q.
Proof. intros HP Hc m1 m2 Hm. apply Hc, HP, Hm. Qed.

Lemma sim_lift {A} (r : result A) P : sim (scratch_lift r) P P.
Proof. intros m1 m2 HP. split; [done|]. by intros a _. Qed.

Lemma sim_ret {A} (a : A) P : sim (scratch_ret (value:=value) a) P P.
Proof. intros m1 m2 HP. split; [done|]. by intros a' _. Qed.

Lemma sim_map {A B} (f : A → scratchM value B) (l : list A) P :
  (∀ x, x ∈ l → sim (f x) P P) → sim (scratch_map f l) P P.
Proof.
  induction l as [|x l IH]; intros Hf; simpl; [apply sim_ret|].
  apply (sim_bind _ _ P P P); [apply Hf; left|]. intros y _.
  apply (sim_bind _ _ P P P); [|intros ys _; apply sim_ret].
  apply IH. intros x' Hx'. apply Hf. by right.
Qed.

Lemma sim_for {A} (I : list A → mem value → mem value → Prop)
    (body : A → scratchM value ()) (l : list A) :
  (∀ done x todo, l = done ++ x :: todo → sim (body x) (I done) (I (done ++ [x]))) →
  sim (scratch_for l body) (I []) (I l).
Proof.
  intros Hbody.
  assert (∀ todo done, l = done ++ todo → sim (scratch_for todo body) (I done) (I l))
    as Hgen; [|by apply (Hgen l [])].
  induction todo as [|x todo IH]; intros done Hl; simpl.
  - rewrite app_nil_r in Hl. subst. apply sim_ret.
  - apply (sim_bind _ _ _ (I (done ++ [x]))); [by eapply Hbody|].
    intros [] _. apply IH. by rewrite <-app_assoc.
Qed.

Lemma rel_inv_get n gl done i :
  - Z.of_nat n ≤ i < Z.of_nat n →
  sim (scratch_get i)
      (λ m1 m2, rel_inv n gl done m1 m2 ∧ ∃ j, Store j ∈ log m1 ∧ slot n j = slot n i)
      (rel_inv n gl done).
Proof.
  intros Hi m1 m2 [(H1 & H2 & Hlog & Hagree) (j & Hj & Hs)].
  destruct (run_inv_get n gl done m1 i H1 Hi) as (y1 & Hy1 & H1'); [by eauto|].
  destruct (run_inv_get n gl done m2 i H2 Hi) as (y2 & Hy2 & H2');
    [rewrite <-Hlog; by eauto|].
  pose proof (Hagree j Hj) as Hagj. rewrite Hs in Hagj.
  assert (∀ m y, length (cells m) = n →
    scratch_get i m = (Ok y, Mem (cells m) (Load i :: log m)) →
    cells m !! Z.to_nat (slot n i) = Some y) as Hval.
  { intros m y Hlen [= Hget]. unfold py_getitem in Hget.
    destruct (py_index (cells m) i) as [p|] eqn:Hp; [|done].
    replace (Z.to_nat (slot n i)) with p.
    - destruct (cells m !! p); by simplify_eq.
    - apply py_index_Some in Hp. rewrite Hlen in Hp. unfold slot.
      destruct (Z.ltb_spec i 0); lia. }
  pose proof (Hval m1 y1 (proj1 H1) Hy1) as Hv1.
  pose proof (Hval m2 y2 (proj1 H2) Hy2) as Hv2.
  assert (y1 = y2) as <- by congruence.
  rewrite Hy1, Hy2. simpl. split; [done|]. intros _ _.
  split_and!; [done..|by rewrite Hlog|]. simpl.
  intros j' [[=]|Hj']%elem_of_cons. by apply Hagree.
Qed.

Lemma rel_inv_set n gl done v (r : value) :
  0 ≤ v < Z.of_nat n →
  sim (scratch_set v r) (rel_inv n gl done) (rel_inv n gl (done ++ [v])).
Proof.
  intros Hv m1 m2 (H1 & H2 & Hlog & Hagree).
  destruct (run_inv_set n gl done m1 v r H1 Hv) as (m1' & Hs1 & H1').
  destruct (run_inv_set n gl done m2 v r H2 Hv) as (m2' & Hs2 & H2').
  rewrite Hs1, Hs2. simpl. split; [done|]. intros _ _.
  unfold scratch_set, py_setitem in Hs1, Hs2.
  rewrite <-(Z2Nat.id v), py_index_nat in Hs1, Hs2
    by (rewrite ?(proj1 H1), ?(proj1 H2); lia).
  simplify_eq. split_and!; [done..|simpl; by rewrite Hlog|]. simpl.
  intros j Hj.
  destruct (decide (Z.to_nat (slot n j) = Z.to_nat v)) as [->|Hne].
  - rewrite !list_lookup_insert_eq by (rewrite ?(proj1 H1), ?(proj1 H2); lia). done.
  - rewrite !list_lookup_insert_ne by done.
    apply elem_of_cons in Hj as [[= ->]|Hj]; [|by apply Hagree].
    exfalso. apply Hne. unfold slot. rewrite Z2Nat.id by lia.
    destruct (Z.ltb_spec v 0); [lia|done].
Qed.

Lemma rel_inv_load_inputs n gl (cells1 cells2 inputs : list value) :
  length cells1 = n → length cells2 = n →
  (1 ≤ length inputs)%nat → (gl + length inputs = n)%nat →
  sim (scratch_assign_from (- Z.of_nat (length inputs)) (reverse inputs))
      (λ m1 m2, m1 = Mem cells1 [] ∧ m2 = Mem cells2 [])
      (rel_inv n gl []).
Proof.
  intros Hl1 Hl2 Hk Hn m1 m2 [-> ->].
  destruct (run_inv_load_inputs n gl cells1 inputs Hl1 Hk Hn) as (m1' & Hs1 & H1).
  destruct (run_inv_load_inputs n gl cells2 inputs Hl2 Hk Hn) as (m2' & Hs2 & H2).
  rewrite Hs1, Hs2. simpl. split; [done|]. intros _ _.
  unfold scratch_assign_from in Hs1, Hs2. simpl in Hs1, Hs2.
  rewrite !py_clamp_last in Hs1, Hs2 by done. simplify_eq.
  split_and!; [done..|simpl; by rewrite Hl2|]. simpl.
  rewrite app_nil_r. intros j Hj. rewrite elem_of_reverse in Hj.
  apply list_elem_of_fmap in Hj as (p & [= ->] & Hp). apply elem_of_seq in Hp.
  unfold py_slice_from_assign. rewrite !py_clamp_last by done.
  assert (Z.to_nat (slot (length cells1) (Z.of_nat p)) = p) as ->.
  { unfold slot. destruct (Z.ltb_spec (Z.of_nat p) 0); lia. }
  rewrite !lookup_app_r by (rewrite length_take; lia).
  rewrite !length_take. f_equal. lia.
Qed.
End sim.

Section evaluate_stale.
Context {func value : Type} `{!Runtime func value}.
Local Abbreviation gene := (gene func).
Local Abbreviation Individual := (Individual func value).

Variable self : Individual.
Hypothesis Hns : (0 < node_step self)%nat.
Hypothesis Hlen :
  length (genes self) = (graph_length self * node_step self + output_length self)%nat.
Hypothesis Hacy : acyclic self.
Hypothesis Hol : (1 ≤ output_length self)%nat.
Variable nodes : list Z.
Hypothesis Hactive : active self = GInt <$> nodes.
Hypothesis Hsorted : StronglySorted Z.lt nodes.
Hypothesis Hnodes : ∀ v, v ∈ nodes ↔ 0 ≤ v ∧ reachable self v.

Let n : nat := (graph_length self + input_length self)%nat.

Lemma sim_read done w :
  - Z.of_nat (input_length self) ≤ w < Z.of_nat (graph_length self) →
  (0 ≤ w → w ∈ done) →
  sim (scratch_at (value:=value) (GInt w : gene))
      (rel_inv n (graph_length self) done) (rel_inv n (graph_length self) done).
Proof.
  intros Hw Hdone. unfold scratch_at.
  apply (sim_bind _ _ _ (rel_inv n (graph_length self) done)); [apply sim_lift|].
  intros i [_ [= <-]].
  eapply sim_weaken; [|apply rel_inv_get; subst n; lia].
  intros m1 m2 Hrel. split; [done|].
  destruct Hrel as ((_ & _ & _ & Hin & Hst) & _).
  destruct (decide (0 ≤ w)) as [H0|H0].
  - exists w. split; [by apply Hst, Hdone|done].
  - exists (Z.of_nat (Z.to_nat (w + Z.of_nat n))). split.
    + apply Hin. subst n. lia.
    + unfold slot.
      destruct (Z.ltb_spec (Z.of_nat (Z.to_nat (w + Z.of_nat n))) 0),
        (Z.ltb_spec w 0); subst n; lia.
Qed.

Lemma sim_node done v todo :
  nodes = done ++ v :: todo →
  sim (node ← scratch_lift (as_int (GInt v : gene));
       function ← scratch_lift (py_getitem (genes self) (node * Z.of_nat (node_step self)));
       args ← scratch_map scratch_at (connections self node);
       r ← scratch_lift (call_gene function args);
       scratch_set node r)
      (rel_inv n (graph_length self) done)
      (rel_inv n (graph_length self) (done ++ [v])).
Proof.
  intros Hsplit.
  assert (v ∈ nodes) as Hv by (rewrite Hsplit, elem_of_app; right; left).
  apply Hnodes in Hv as [Hv0 Hreach].
  pose proof (reachable_range self Hns Hlen Hacy Hol v Hreach) as Hvr.
  assert (Z.to_nat v < graph_length self)%nat as Hnode by lia.
  apply (sim_bind _ _ _ (rel_inv n (graph_length self) done)); [apply sim_lift|].
  intros ? [_ [= <-]].
  apply (sim_bind _ _ _ (rel_inv n (graph_length self) done)); [apply sim_lift|].
  intros function _.
  replace (connections self v) with (connection_genes self (Z.to_nat v))
    by (by rewrite <-(connections_genes self Hns Hlen), Z2Nat.id by (done || lia)).
  apply (sim_bind _ _ _ (rel_inv n (graph_length self) done)).
  { apply sim_map. intros g Hg.
    destruct (connection_gene_range self Hns Hlen Hacy _ _ Hnode Hg) as (w & -> & Hw).
    apply sim_read; [lia|].
    intros Hw0. apply (StronglySorted_lt_before done todo v); [by rewrite <-Hsplit| |lia].
    rewrite <-Hsplit. apply Hnodes. split; [done|].
    apply (reach_connection self (Z.to_nat v)); [by rewrite Z2Nat.id by lia|done..]. }
  intros args _.
  apply (sim_bind _ _ _ (rel_inv n (graph_length self) done)); [apply sim_lift|].
  intros r _. apply rel_inv_set. subst n. lia.
Qed.

(** With at least one input, the result of [evaluate] is the same from
    any two scratch buffers of the size [__init__] gives them. *)
Lemma evaluate_body_stale (inputs : list value) (cells1 cells2 : list value) :
  length cells1 = n → length cells2 = n →
  length inputs = input_length self →
  (evaluate_body self inputs (Mem cells1 [])).1
  = (evaluate_body self inputs (Mem cells2 [])).1.
Proof.
  intros Hl1 Hl2 Hinputs. destruct (decide (input_length self = 0)%nat) as [H0|H0].
  { destruct inputs; [|simpl in Hinputs; lia]. unfold evaluate_body.
    assert (∀ cells0 : list value,
      scratch_assign_from (- Z.of_nat (length (@nil value))) (reverse []) (Mem cells0 [])
      = (Ok (), Mem [] [])) as Hclear.
    { intros cells0. unfold scratch_assign_from, py_slice_from_assign. simpl.
      by rewrite !py_clamp_zero. }
    by rewrite (scratch_bind_ok _ _ (Mem cells1 []) () (Mem [] []) (Hclear cells1)),
      (scratch_bind_ok _ _ (Mem cells2 []) () (Mem [] []) (Hclear cells2)). }
  unfold evaluate_body.
  eapply (sim_bind _ _ (λ m1 m2, m1 = Mem cells1 [] ∧ m2 = Mem cells2 []));
    [apply (rel_inv_load_inputs n (graph_length self)); [done..|lia|subst n; lia]| |done].
  intros [] _.
  eapply sim_bind.
  - apply (sim_for (λ done, rel_inv n (graph_length self) (ints done))).
    intros done x todo Hsplit. rewrite Hactive in Hsplit.
    apply fmap_app_inv in Hsplit as (dz & tz' & -> & Htz & Hnz).
    symmetry in Htz. apply fmap_cons_inv in Htz as (v & tz & -> & -> & ->).
    rewrite ints_snoc, !ints_GInt. by apply (sim_node dz v tz).
  - intros [] _. rewrite Hactive, ints_GInt.
    unfold py_slice_from. rewrite py_clamp_last by done.
    fold (output_genes self). apply sim_map. intros g Hg.
    destruct (output_gene_range self Hns Hlen Hacy _ Hg) as (w & -> & Hw).
    apply sim_read; [done|].
    intros Hw0. apply Hnodes. split; [done|]. by apply reach_output.
Qed.
End evaluate_stale.

(** ** [asym_phenotypic_difference] *)

Lemma diff_count_zero {A} `{!EqDecision A} (l1 l2 : list A) :
  length l1 = length l2 → diff_count l1 l2 = 0%nat → l1 = l2.
Proof.
  revert l2. induction l1 as [|x l1 IH]; intros [|y l2]; try done.
  unfold diff_count. simpl. intros [= Hlen]. rewrite filter_cons. simpl.
  destruct (decide (x ≠ y)) as [|Heq]; [done|].
  apply dec_stable in Heq as ->. intros Hc. f_equal. by apply IH.
Qed.

Lemma py_clamp_length {A} (l1 l2 : list A) i :
  length l1 = length l2 → py_clamp l1 i = py_clamp l2 i.
Proof. intros Hlen. unfold py_clamp. by rewrite Hlen. Qed.

Lemma py_slice_length {A} (l1 l2 : list A) lo hi :
  length l1 = length l2 → length (py_slice l1 lo hi) = length (py_slice l2 lo hi).
Proof.
  intros Hlen. unfold py_slice.
  rewrite !length_take, !length_drop, !(py_clamp_length l1 l2), Hlen; done.
Qed.

Lemma py_slice_from_length {A} (l1 l2 : list A) lo :
  length l1 = length l2 → length (py_slice_from l1 lo) = length (py_slice_from l2 lo).
Proof.
  intros Hlen. unfold py_slice_from.
  rewrite !length_drop, !(py_clamp_length l1 l2), Hlen; done.
Qed.

Lemma scratch_bind_ext {value A B} (c1 c2 : scratchM value A)
    (k1 k2 : A → scratchM value B) m :
  c1 m = c2 m → (∀ a m', k1 a m' = k2 a m') → (c1 ≫= k1) m = (c2 ≫= k2) m.
Proof.
  intros Hc Hk. unfold mbind, scratch_mbind, scratch_bind. rewrite Hc.
  by destruct (c2 m) as [[a|e] m'].
Qed.

Lemma scratch_for_ext {value A} (body1 body2 : A → scratchM value ()) l :
  (∀ x m, x ∈ l → body1 x m = body2 x m) →
  ∀ m, scratch_for l body1 m = scratch_for l body2 m.
Proof.
  induction l as [|x l IH]; intros Hb m; simpl; [done|].
  unfold scratch_bind. rewrite Hb by left. destruct (body2 x m) as [[[]|e] m']; [|done].
  apply IH. intros x' m'' Hx'. apply Hb. by right.
Qed.

Section asym.
Context {func value : Type} `{!Runtime func value}.
Local Abbreviation gene := (gene func).
Local Abbreviation Individual := (Individual func value).

(** What a difference of zero says: [other] has the output genes of
    [self] and, for each object of the active list of [self], which is an
    integer, the function gene and the connection genes of that node. *)
Lemma asym_zero (self other : Individual) :
  length (genes self) = length (genes other) →
  node_step self = node_step other →
  asym_phenotypic_difference self other = Ok 0%nat →
  py_slice_from (genes other) (- Z.of_nat (output_length self))
    = py_slice_from (genes self) (- Z.of_nat (output_length self))
  ∧ Forall (λ node_index, ∃ node,
        as_int node_index = Ok node
        ∧ connections other node = connections self node
        ∧ py_getitem (genes other) (node * Z.of_nat (node_step self))
          = py_getitem (genes self) (node * Z.of_nat (node_step self)))
      (active self).
Proof.
  intros Hlen Hns. unfold asym_phenotypic_difference.
  set (step := λ (acc : result nat) (node_index : gene), _).
  assert (∀ l acc, foldl step acc l = Ok 0%nat →
    acc = Ok 0%nat ∧ Forall (λ node_index, ∃ node,
        as_int node_index = Ok node
        ∧ connections other node = connections self node
        ∧ py_getitem (genes other) (node * Z.of_nat (node_step self))
          = py_getitem (genes self) (node * Z.of_nat (node_step self))) l) as Hgen.
  { induction l as [|x l IH]; intros acc; simpl; [by split|].
    intros [Hstep Hl]%IH. unfold step in Hstep.
    apply result_bind_ok in Hstep as (count & -> & Hstep).
    apply result_bind_ok in Hstep as (node & Hnode & Hstep).
    apply result_bind_ok in Hstep as (a & Ha & Hstep).
    apply result_bind_ok in Hstep as (b & Hb & [= Hsum]).
    destruct (gene_ne a b) eqn:Hab; [lia|].
    apply bool_decide_eq_false, dec_stable in Hab as ->.
    split; [f_equal; lia|]. constructor; [|done].
    exists node. split; [done|]. split; [|by rewrite Ha, Hb].
    symmetry. apply diff_count_zero; [|lia].
    unfold connections. rewrite Hns. by apply py_slice_length. }
  intros [[= Hout] Hact]%Hgen. split; [|done].
  symmetry. apply diff_count_zero; [by apply py_slice_from_length|done].
Qed.

Lemma active_sweep_mono (self : Individual) (nodes : list nat) (act : list gene) g :
  g ∈ act →
  g ∈ foldl (λ act node_index,
               if set_in (GInt (Z.of_nat node_index)) act
               then set_update act (connections self (Z.of_nat node_index))
               else act) act nodes.
Proof.
  revert act. induction nodes as [|i nodes IH]; intros act Hg; simpl; [done|].
  apply IH. case_match; [|done]. unfold set_update.
  rewrite elem_of_remove_dups, elem_of_app. by left.
Qed.

Lemma active_sweep_ext (self other : Individual) (seed : list gene) :
  graph_length other = graph_length self →
  (∀ i : nat, GInt (Z.of_nat i) ∈ active_sweep self seed →
              connections other (Z.of_nat i) = connections self (Z.of_nat i)) →
  active_sweep other seed = active_sweep self seed.
Proof.
  unfold active_sweep. intros -> Hconn.
  revert seed Hconn. induction (reverse (seq 0 (graph_length self))) as [|i l IH];
    intros seed Hconn; simpl; [done|].
  simpl in Hconn.
  destruct (set_in (GInt (Z.of_nat i)) seed) eqn:Hin; [|by apply IH].
  rewrite Hconn; [by apply IH|].
  apply active_sweep_mono. unfold set_update.
  rewrite elem_of_remove_dups, elem_of_app. left. by apply bool_decide_eq_true in Hin.
Qed.

(** An individual with the output genes of [self] and the connection
    genes of the active nodes of [self] has the active set of [self]. *)
Lemma asym_zero_active (self other : Individual) :
  same_sizes self other →
  length (genes self) = length (genes other) →
  consistent self →
  asym_phenotypic_difference self other = Ok 0%nat →
  active (determine_active_nodes other) = active self.
Proof.
  intros (Hns & Hil & Hgl & Hol) Hlen Hcons Hzero.
  destruct (asym_zero self other Hlen Hns Hzero) as [Hout Hact].
  rewrite Hcons. unfold determine_active_nodes. simpl. rewrite <-Hol, Hout.
  f_equal. f_equal. apply active_sweep_ext; [done|].
  intros i Hi.
  assert (GInt (Z.of_nat i) ∈ active self) as Hin.
  { rewrite Hcons. unfold determine_active_nodes, sorted. simpl.
    rewrite merge_sort_Permutation, list_elem_of_filter. split; [simpl; lia|done]. }
  rewrite Forall_forall in Hact.
  by destruct (Hact _ Hin) as (node & [= <-] & Hconn & _).
Qed.

(** Such an individual, with the active set of [self], runs the program
    of [self] on a scratch buffer. *)
Lemma asym_zero_body (self other : Individual) (inputs : list value) m :
  same_sizes self other →
  length (genes self) = length (genes other) →
  active other = active self →
  asym_phenotypic_difference self other = Ok 0%nat →
  evaluate_body other inputs m = evaluate_body self inputs m.
Proof.
  intros (Hns & Hil & Hgl & Hol) Hlen Hactive Hzero.
  destruct (asym_zero self other Hlen Hns Hzero) as [Hout Hact].
  unfold evaluate_body. rewrite <-Hol, Hout, Hactive.
  apply scratch_bind_ext; [done|]. intros [] m0.
  apply scratch_bind_ext; [|done].
  apply scratch_for_ext. intros x m' Hx. rewrite Forall_forall in Hact.
  destruct (Hact _ Hx) as (node & Hnode & Hconn & Hfun).
  rewrite !(scratch_bind_ok _ _ m' node m') by (by unfold scratch_lift; rewrite Hnode).
  by rewrite <-Hns, Hfun, Hconn.
Qed.
End asym.

(** ** Programs on the heap *)

Section prog.
Context {func value : Type} `{!Runtime func value}.
Local Abbreviation gene := (gene func).
Local Abbreviation Individual := (Individual func value).
Local Abbreviation heap := (Objects.heap (func:=func) (value:=value)).
Local Abbreviation prog := (Objects.prog (func:=func) (value:=value)).

Lemma prog_bind_ret {A B} (c : prog A) (k : A → prog B) (h : heap) d b h' rest :
  (x ← c; k x) h d = Ret (b, h') rest →
  ∃ a h1 d1, c h d = Ret (a, h1) d1 ∧ k a h1 d1 = Ret (b, h') rest.
Proof.
  unfold mbind, Objects.prog_mbind, Objects.prog_bind.
  destruct (c h d) as [[a h1] d1| |]; [|done..]. eauto.
Qed.

Lemma prog_ret_ret {A} (a b : A) (h h' : heap) d rest :
  Objects.prog_ret a h d = Ret (b, h') rest → b = a ∧ h' = h ∧ rest = d.
Proof. by intros [= -> -> ->]. Qed.

Lemma reads_ret {A} (f : heap → A) (h h' : heap) d a rest :
  Objects.reads f h d = Ret (a, h') rest → a = f h ∧ h' = h ∧ rest = d.
Proof. by intros [= <- <- <-]. Qed.

Lemma writes_ret (f : heap → heap) (h h' : heap) d u rest :
  Objects.writes f h d = Ret (u, h') rest → h' = f h ∧ rest = d.
Proof. by intros [= _ <- <-]. Qed.

Lemma lift_rand_ret {A} (m : rand A) (h h' : heap) d a rest :
  Objects.lift_rand m h d = Ret (a, h') rest → m d = Ret a rest ∧ h' = h.
Proof. unfold Objects.lift_rand. destruct (m d); [|done..]. by intros [= -> -> ->]. Qed.

Lemma lift_result_ret {A} (r : result A) (h h' : heap) d a rest :
  Objects.lift_result r h d = Ret (a, h') rest → r = Ok a ∧ h' = h ∧ rest = d.
Proof.
  intros [Hr ->]%lift_rand_ret. destruct r; [|done]. by injection Hr as -> ->.
Qed.

Lemma prog_for_inv {X} (I : heap → Prop) (xs : list X) (body : X → prog ()) :
  (∀ x h d h' rest, x ∈ xs → I h → body x h d = Ret ((), h') rest → I h') →
  ∀ h d h' rest, I h → Objects.prog_for xs body h d = Ret ((), h') rest → I h'.
Proof.
  induction xs as [|x xs IH]; intros Hbody h d h' rest Hi; simpl.
  - by intros (_ & -> & _)%prog_ret_ret.
  - intros ([] & h1 & d1 & Hx & Hrest)%(prog_bind_ret (body x)).
    eapply IH; [|eapply Hbody; [left|done..]|done].
    intros y ????? ?. eapply Hbody; [by right|done..].
Qed.

Lemma prog_while_fuel_inv {S A} (I : S → heap → Prop) (P : A → heap → Prop)
    (body : S → prog (S + A)) :
  (∀ s h d r h' rest, I s h → body s h d = Ret (r, h') rest →
     match r with inl s' => I s' h' | inr a => P a h' end) →
  ∀ fuel s h d a h' rest,
    I s h → Objects.prog_while_fuel fuel body s h d = Ret (a, h') rest → P a h'.
Proof.
  intros Hbody fuel. induction fuel as [|fuel IH]; intros s h d a h' rest Hi; [done|].
  simpl. destruct (body s h d) as [[[s'|a'] h1] d1| |] eqn:Hb; [| |done..].
  - apply IH. apply (Hbody _ _ _ _ _ _ Hi Hb).
  - intros [= <- <- <-]. apply (Hbody _ _ _ _ _ _ Hi Hb).
Qed.

Lemma prog_while_inv {S A} (I : S → heap → Prop) (P : A → heap → Prop)
    (body : S → prog (S + A)) :
  (∀ s h d r h' rest, I s h → body s h d = Ret (r, h') rest →
     match r with inl s' => I s' h' | inr a => P a h' end) →
  ∀ s h d a h' rest,
    I s h → Objects.prog_while body s h d = Ret (a, h') rest → P a h'.
Proof. intros Hbody s h d a h' rest. by apply prog_while_fuel_inv. Qed.
End prog.

(** Taking apart a run of a program that has returned. *)
Ltac prog_inv H :=
  repeat match type of H with
  | (_ ≫= _) _ _ = Ret _ _ =>
      let a := fresh "a" in let h := fresh "h" in let d := fresh "d" in
      let Ha := fresh "Hrun" in
      apply prog_bind_ret in H as (a & h & d & Ha & H)
  end.

(** ** Mutation, on instances *)

Section object_methods.
Context {func value : Type} `{!Runtime func value}.
Local Abbreviation gene := (gene func).
Local Abbreviation Individual := (Individual func value).
Local Abbreviation heap := (Objects.heap (func:=func) (value:=value)).
Local Abbreviation prog := (Objects.prog (func:=func) (value:=value)).

Lemma py_setitem_length {A} (l : list A) i x l' :
  py_setitem l i x = Ok l' → length l' = length l.
Proof.
  unfold py_setitem. destruct (py_index l i); [|done].
  intros [= <-]. apply length_insert.
Qed.

Lemma preserved_refl (h : heap) : preserved h h.
Proof. by repeat split. Qed.

Lemma cloning_preserved (h : heap) o (h1 : heap) : cloning h o h1 → preserved h h1.
Proof.
  intros (Hi & (l & Hg & _) & Hv & Hm & Ho). split_and!; [| |done..].
  - intros r o' Hr. rewrite Hi. by apply lookup_app_l_Some.
  - intros a l' Ha. rewrite Hg. by apply lookup_app_l_Some.
Qed.

Lemma cloning_instance (h : heap) o (h1 : heap) :
  cloning h o h1 →
  Objects.instance_at h1 (length (Objects.instances h))
  = Objects.set_attr_genes o (length (Objects.gene_lists h)).
Proof.
  intros (Hi & _). unfold Objects.instance_at. by rewrite Hi, list_lookup_middle.
Qed.

(** Allocating an instance with the attributes of [self] does not change
    what [self] refers to. *)
Lemma instance_at_snoc (h : heap) (self : Objects.ref) :
  default Objects.no_instance
    ((Objects.instances h ++ [Objects.instance_at h self]) !! self)
  = Objects.instance_at h self.
Proof.
  unfold Objects.instance_at.
  destruct (Objects.instances h !! self) as [o|] eqn:Ho; simpl.
  - by rewrite (lookup_app_l_Some _ _ _ _ Ho).
  - apply lookup_ge_None in Ho. rewrite lookup_app_r by done.
    by destruct (self - length (Objects.instances h))%nat as [|[|?]].
Qed.

(** [copy] makes one instance and one gene list, and changes nothing. *)
Lemma copy_spec (self : Objects.ref) (h : heap) d new (h1 : heap) rest :
  Objects.copy self h d = Ret (new, h1) rest →
  new = length (Objects.instances h) ∧ rest = d
  ∧ cloning h (Objects.instance_at h self) h1
  ∧ Objects.gene_list h1 (length (Objects.gene_lists h))
    = Objects.gene_list h (Objects.attr_genes (Objects.instance_at h self)).
Proof.
  unfold Objects.copy. intros Hrun. prog_inv Hrun.
  apply reads_ret in Hrun0 as (-> & -> & ->).
  injection Hrun1 as <- <- <-.
  apply reads_ret in Hrun2 as (-> & -> & ->).
  injection Hrun3 as <- <- <-.
  apply writes_ret in Hrun4 as (-> & ->).
  apply prog_ret_ret in Hrun as (-> & -> & ->).
  unfold cloning, Objects.gene_list, Objects.instance_at. simpl.
  rewrite !list_lookup_middle by done. simpl.
  rewrite insert_app_r_alt by done. rewrite Nat.sub_diag. simpl.
  rewrite instance_at_snoc. fold (Objects.instance_at h self).
  rewrite list_lookup_middle by done.
  split_and!; try done. by eexists.
Qed.

(** Assigning to a gene of the clone keeps the state [cloning]. *)
Lemma set_gene_cloning (h : heap) o (h1 : heap) index x d u (h2 : heap) rest :
  cloning h o h1 →
  Objects.set_gene (length (Objects.instances h)) index x h1 d = Ret (u, h2) rest →
  cloning h o h2 ∧ rest = d.
Proof.
  intros Hc. pose proof (cloning_instance _ _ _ Hc) as Hat.
  destruct Hc as (Hi & (l & Hg & Hl) & Hv & Hm & Ho).
  unfold Objects.set_gene. intros Hrun. prog_inv Hrun.
  apply reads_ret in Hrun0 as (-> & -> & ->).
  apply lift_result_ret in Hrun1 as (Hset & -> & ->).
  apply writes_ret in Hrun as (-> & ->). split; [|done].
  rewrite Hat in *. simpl in *.
  unfold cloning. simpl. split_and!; [done| |done..].
  exists a0. split.
  - rewrite Hg, insert_app_r_alt by done. by rewrite Nat.sub_diag.
  - apply py_setitem_length in Hset. rewrite Hset, <-Hl.
    unfold Objects.gene_list. by rewrite Hg, list_lookup_middle.
Qed.

(** [determine_active_nodes] does not read the attribute [active]. *)
Lemma determine_active_nodes_set_active (self : Individual) a :
  active (determine_active_nodes (set_active self a))
  = active (determine_active_nodes self).
Proof. reflexivity. Qed.

(** What [determine_active_nodes] leaves of a heap in the state [cloning]:
    the clone has the active set of its genes. *)
Lemma determine_active_nodes_cloning (h : heap) o (h1 : heap) d u (h2 : heap) rest :
  cloning h o h1 →
  Objects.determine_active_nodes (length (Objects.instances h)) h1 d = Ret (u, h2) rest →
  rest = d
  ∧ preserved h h2
  ∧ length (Objects.instances h2) = S (length (Objects.instances h))
  ∧ length (Objects.gene_lists h2) = S (length (Objects.gene_lists h))
  ∧ (let o' := Objects.instance_at h2 (length (Objects.instances h)) in
     o' = Objects.set_attr_active
            (Objects.set_attr_genes o (length (Objects.gene_lists h)))
            (active (determine_active_nodes
                       (Objects.view h2 (length (Objects.instances h)))))
     ∧ length (Objects.gene_list h2 (Objects.attr_genes o'))
       = length (Objects.gene_list h (Objects.attr_genes o))).
Proof.
  intros Hc. pose proof (cloning_instance _ _ _ Hc) as Hat.
  pose proof (cloning_preserved _ _ _ Hc) as (Hpi & Hpg & Hpv & Hpm & Hpo).
  destruct Hc as (Hi & (l & Hg & Hl) & Hv & Hm & Ho).
  unfold Objects.determine_active_nodes. intros Hrun. prog_inv Hrun.
  apply reads_ret in Hrun0 as (-> & -> & ->).
  apply writes_ret in Hrun as (-> & ->). rewrite Hat.
  remember (active (determine_active_nodes
                      (Objects.view h1 (length (Objects.instances h))))) as act eqn:Hact.
  assert (<[length (Objects.instances h) :=
              Objects.set_attr_active
                (Objects.set_attr_genes o (length (Objects.gene_lists h))) act]>
            (Objects.instances h1)
          = Objects.instances h ++
              [Objects.set_attr_active
                 (Objects.set_attr_genes o (length (Objects.gene_lists h))) act])
    as Hins.
  { rewrite Hi, insert_app_r_alt by done. by rewrite Nat.sub_diag. }
  unfold preserved, Objects.instance_at, Objects.gene_list.
  cbn [Objects.instances Objects.gene_lists Objects.value_lists
       Objects.mutate_method Objects.output_dict Objects.set_instances].
  rewrite Hins, Hg, !length_app, list_lookup_middle by done.
  cbn [default length Objects.attr_genes Objects.set_attr_active
       Objects.set_attr_genes].
  rewrite list_lookup_middle by done.
  refine (conj eq_refl (conj _ (conj _ (conj _ (conj _ _))))); [|lia|lia| |done].
  - split_and!; [|by rewrite <-Hg|done..].
    intros r o' Hr. by apply lookup_app_l_Some.
  - unfold id. f_equal.
    transitivity (active (determine_active_nodes
                    (set_active (Objects.view h1 (length (Objects.instances h))) act)));
      [by rewrite determine_active_nodes_set_active|].
    do 2 f_equal.
    unfold Objects.view, Objects.instance_at, Objects.gene_list, Objects.value_list.
    cbn [Objects.instances Objects.gene_lists Objects.value_lists
         Objects.set_instances].
    rewrite Hi, !list_lookup_middle by done. reflexivity.
Qed.

(** The clone [mutate] returns. *)
Lemma mutate_cloning (self : Objects.ref) rate (h : heap) d mutant (h' : heap) rest :
  Objects.mutate self rate h d = Ret (mutant, h') rest →
  mutant = length (Objects.instances h)
  ∧ ∃ h1 d1, cloning h (Objects.instance_at h self) h1
             ∧ Objects.determine_active_nodes mutant h1 d1 = Ret ((), h') rest.
Proof.
  unfold Objects.mutate. intros Hrun.
  apply prog_bind_ret in Hrun as (m & h1 & d1 & Hcopy & Hrun).
  apply copy_spec in Hcopy as (-> & -> & Hc & _).
  apply prog_bind_ret in Hrun as (gs & h2 & d2 & Hgs & Hrun).
  apply reads_ret in Hgs as (-> & -> & ->).
  apply prog_bind_ret in Hrun as ([] & h3 & d3 & Hloop & Hrun).
  apply prog_bind_ret in Hrun as ([] & h4 & d4 & Hact & Hrun).
  apply prog_ret_ret in Hrun as (-> & -> & ->).
  split; [done|]. exists h3, d3. split; [|done].
  revert Hloop. apply prog_for_inv; [|done].
  intros index hx dx hx' restx _ Hcx Hbody.
  apply prog_bind_ret in Hbody as (hit & hy & dy & Hhit & Hbody).
  apply lift_rand_ret in Hhit as [_ ->].
  destruct hit; [|by apply prog_ret_ret in Hbody as (_ & -> & _)].
  apply prog_bind_ret in Hbody as (gs & hz & dz & Hgs & Hbody).
  apply reads_ret in Hgs as (-> & -> & ->).
  apply prog_bind_ret in Hbody as (old & hz & dz & Hold & Hbody).
  apply lift_result_ret in Hold as (_ & -> & ->).
  apply prog_bind_ret in Hbody as (new & hz & dz & Hnew & Hbody).
  unfold Objects.random_gene in Hnew.
  apply prog_bind_ret in Hnew as (me & hw & dw & Hme & Hnew).
  apply reads_ret in Hme as (-> & -> & ->).
  apply lift_rand_ret in Hnew as [_ ->].
  by apply (set_gene_cloning _ _ _ _ _ _ _ _ _ Hcx) in Hbody as [? _].
Qed.

(** The clone [one_active_mutation] returns. *)
Lemma one_active_mutation_cloning (self : Objects.ref) rate (h : heap) d mutant
    (h' : heap) rest :
  Objects.one_active_mutation self rate h d = Ret (mutant, h') rest →
  mutant = length (Objects.instances h)
  ∧ ∃ h1 d1, cloning h (Objects.instance_at h self) h1
             ∧ Objects.determine_active_nodes mutant h1 d1 = Ret ((), h') rest.
Proof.
  unfold Objects.one_active_mutation. intros Hrun.
  apply prog_bind_ret in Hrun as (m & h1 & d1 & Hcopy & Hrun).
  apply copy_spec in Hcopy as (-> & -> & Hc & _).
  apply prog_bind_ret in Hrun as ([] & h3 & d3 & Hloop & Hrun).
  apply prog_bind_ret in Hrun as ([] & h4 & d4 & Hact & Hrun).
  apply prog_ret_ret in Hrun as (-> & -> & ->).
  split; [done|]. exists h3, d3. split; [|done].
  revert Hloop.
  apply (prog_while_inv (λ _, cloning h (Objects.instance_at h self))
                        (λ _, cloning h (Objects.instance_at h self))); [|done].
  intros [] hx dx r hx' restx Hcx Hbody.
  apply prog_bind_ret in Hbody as (gs & hy & dy & Hgs & Hbody).
  apply reads_ret in Hgs as (-> & -> & ->).
  apply prog_bind_ret in Hbody as (index & hy & dy & Hindex & Hbody).
  apply lift_rand_ret in Hindex as [_ ->].
  apply prog_bind_ret in Hbody as (newval & hy & dz & Hnew & Hbody).
  unfold Objects.random_gene in Hnew.
  apply prog_bind_ret in Hnew as (me & hw & dw & Hme & Hnew).
  apply reads_ret in Hme as (-> & -> & ->).
  apply lift_rand_ret in Hnew as [_ ->].
  apply prog_bind_ret in Hbody as (gs & hy & dy' & Hgs & Hbody).
  apply reads_ret in Hgs as (-> & -> & ->).
  apply prog_bind_ret in Hbody as (old & hy & dy' & Hold & Hbody).
  apply lift_result_ret in Hold as (_ & -> & ->).
  destruct (gene_ne newval old).
  - apply prog_bind_ret in Hbody as ([] & hy & dy' & Hset & Hbody).
    apply (set_gene_cloning _ _ _ _ _ _ _ _ _ Hcx) in Hset as [Hc' _].
    apply prog_bind_ret in Hbody as (me & hz & dz' & Hme & Hbody).
    apply reads_ret in Hme as (-> & -> & ->).
    destruct (_ || _); apply prog_ret_ret in Hbody as (-> & -> & _); done.
  - by apply prog_ret_ret in Hbody as (-> & -> & _).
Qed.
End object_methods.

(** ** The maximum of a list *)

Section py_max.
Context {A : Type} (key : A → Q) (lt : A → A → bool).
Hypothesis lt_key : ∀ a b, lt a b = true ↔ (key a < key b)%Q.

(** The scan of [max] holds the first of the greatest items seen. *)
Lemma py_max_scan (x : A) (l : list A) :
  let best := foldl (fun best item => if lt best item then item else best) x l in
  ∃ i : nat,
    (x :: l) !! i = Some best
    ∧ (∀ j m, (x :: l) !! j = Some m → (key m <= key best)%Q)
    ∧ (∀ j m, (j < i)%nat → (x :: l) !! j = Some m → (key m < key best)%Q).
Proof.
  induction l as [|y l IH] using rev_ind; simpl.
  - exists 0%nat. split_and!; [done| |intros; lia].
    intros [|j] m; [|done]. intros [= ->]. apply Qle_refl.
  - rewrite foldl_app. simpl. destruct IH as (i & Hi & Hall & Hbefore).
    set (best := foldl _ x l) in *.
    pose proof (lookup_lt_Some _ _ _ Hi) as Hlt. simpl in Hlt.
    destruct (lt best y) eqn:Hy.
    + apply lt_key in Hy. exists (S (length l)). split_and!.
      * simpl. by rewrite list_lookup_middle.
      * intros j m Hm. change (x :: l ++ [y]) with ((x :: l) ++ [y]) in Hm.
        apply lookup_app_Some in Hm as [Hm|[_ Hm]].
        -- apply Qlt_le_weak. eapply Qle_lt_trans; [by eapply Hall|done].
        -- apply list_lookup_singleton_Some in Hm as [_ ->]. apply Qle_refl.
      * intros j m Hj Hm. change (x :: l ++ [y]) with ((x :: l) ++ [y]) in Hm.
        rewrite lookup_app_l in Hm by (simpl; lia).
        eapply Qle_lt_trans; [by eapply Hall|done].
    + assert (key y <= key best)%Q as Hle.
      { apply Qnot_lt_le. intros Hc. apply lt_key in Hc. congruence. }
      exists i. split_and!.
      * change (x :: l ++ [y]) with ((x :: l) ++ [y]). by apply lookup_app_l_Some.
      * intros j m Hm. change (x :: l ++ [y]) with ((x :: l) ++ [y]) in Hm.
        apply lookup_app_Some in Hm as [Hm|[_ Hm]]; [by eapply Hall|].
        by apply list_lookup_singleton_Some in Hm as [_ ->].
      * intros j m Hj Hm. change (x :: l ++ [y]) with ((x :: l) ++ [y]) in Hm.
        rewrite lookup_app_l in Hm by (simpl; lia). by eapply Hbefore.
Qed.

Lemma py_max_first (l : list A) (best : A) :
  Objects.py_max lt l = Ok best →
  ∃ i : nat,
    l !! i = Some best
    ∧ (∀ j m, l !! j = Some m → (key m <= key best)%Q)
    ∧ (∀ j m, (j < i)%nat → l !! j = Some m → (key m < key best)%Q).
Proof.
  destruct l as [|x l]; [done|]. intros [= <-]. apply py_max_scan.
Qed.
End py_max.

(** ** The generation boundary *)

Section boundary.
Context {func value : Type} `{!Runtime func value}.
Local Abbreviation heap := (Objects.heap (func:=func) (value:=value)).

Lemma lt_fitness (a b : Individual func value) :
  __lt__ a b = true ↔ (fitness a < fitness b)%Q.
Proof.
  unfold __lt__. rewrite negb_true_iff, <-not_true_iff_false, Qle_bool_iff.
  split; [apply Qnot_le_lt|apply Qlt_not_le].
Qed.

Lemma le_fitness (a b : Individual func value) :
  __le__ a b = true ↔ (fitness a <= fitness b)%Q.
Proof. apply Qle_bool_iff. Qed.

Lemma best_child_spec (mutants : list Objects.ref) (h : heap) d best (h' : heap) rest :
  Objects.best_child mutants h d = Ret (best, h') rest →
  h' = h ∧ rest = d
  ∧ ∃ i : nat,
      mutants !! i = Some best
      ∧ (∀ j m, mutants !! j = Some m →
           (fitness (Objects.view h m) <= fitness (Objects.view h best))%Q)
      ∧ (∀ j m, (j < i)%nat → mutants !! j = Some m →
           (fitness (Objects.view h m) < fitness (Objects.view h best))%Q).
Proof.
  unfold Objects.best_child. intros Hrun.
  apply prog_bind_ret in Hrun as (r & h1 & d1 & Hr & Hrun).
  apply reads_ret in Hr as (-> & -> & ->).
  apply lift_result_ret in Hrun as (Hmax & -> & ->).
  split_and!; [done..|].
  apply (py_max_first (λ m, fitness (Objects.view h m))) in Hmax; [done|].
  intros a b. apply lt_fitness.
Qed.

Lemma select_spec (parent : Objects.ref) (mutants : list Objects.ref) (h : heap) d
    parent' (h' : heap) rest :
  Objects.select parent mutants h d = Ret (parent', h') rest →
  h' = h ∧ rest = d
  ∧ ∃ best,
      Objects.best_child mutants h d = Ret (best, h) d
      ∧ parent' = (if __le__ (Objects.view h parent) (Objects.view h best)
                   then best else parent).
Proof.
  unfold Objects.select. intros Hrun.
  apply prog_bind_ret in Hrun as (best & h1 & d1 & Hbest & Hrun).
  pose proof (best_child_spec _ _ _ _ _ _ Hbest) as (-> & -> & _).
  apply prog_bind_ret in Hrun as (b & h2 & d2 & Hle & Hrun).
  apply reads_ret in Hle as (-> & -> & ->).
  destruct (__le__ _ _) eqn:Hle;
    apply prog_ret_ret in Hrun as (-> & -> & ->);
    (split_and!; [done..|]); exists best; by rewrite Hle.
Qed.
End boundary.

(** ** The parent during a generation *)

Section parent.
Context {func value : Type} `{!Runtime func value}.
Local Abbreviation heap := (Objects.heap (func:=func) (value:=value)).
Local Abbreviation prog := (Objects.prog (func:=func) (value:=value)).

Lemma prog_map_inv {X Y} (I : heap → Prop) (P : Y → Prop) (f : X → prog Y) (xs : list X) :
  (∀ x h d y h' rest, I h → f x h d = Ret (y, h') rest → I h' ∧ P y) →
  ∀ h d ys h' rest,
    I h → Objects.prog_map f xs h d = Ret (ys, h') rest → I h' ∧ Forall P ys.
Proof.
  intros Hf. induction xs as [|x xs IH]; intros h d ys h' rest Hi; simpl.
  - intros (-> & -> & _)%prog_ret_ret. by split.
  - intros (y & h1 & d1 & Hy & Hrest)%(prog_bind_ret (f x)).
    apply (prog_bind_ret (Objects.prog_map f xs)) in Hrest
      as (ys' & h2 & d2 & Hys & Hret).
    apply prog_ret_ret in Hret as (-> & -> & _).
    destruct (Hf _ _ _ _ _ _ Hi Hy) as [Hi1 Hp].
    destruct (IH _ _ _ _ _ Hi1 Hys) as [Hi2 Hps]. split; [done|by constructor].
Qed.

Lemma prog_fold_inv {X S} (I : heap → Prop) (xs : list X) (body : X → S → prog S) :
  (∀ x s h d s' h' rest, x ∈ xs → I h → body x s h d = Ret (s', h') rest → I h') →
  ∀ s h d s' h' rest,
    I h → Objects.prog_fold xs body s h d = Ret (s', h') rest → I h'.
Proof.
  induction xs as [|x xs IH]; intros Hbody s h d s' h' rest Hi; simpl.
  - by intros (_ & -> & _)%prog_ret_ret.
  - intros (s1 & h1 & d1 & Hx & Hrest)%(prog_bind_ret (body x s)).
    eapply IH; [|eapply Hbody; [left|done..]|done].
    intros y ??????? . eapply Hbody; [by right|done..].
Qed.

Lemma asym_ret (parent mutant : Objects.ref) (h h' : heap) d rest change :
  Objects.asym_phenotypic_difference parent mutant h d = Ret (change, h') rest →
  asym_phenotypic_difference (Objects.view h parent) (Objects.view h mutant) = Ok change
  ∧ h' = h ∧ rest = d.
Proof.
  unfold Objects.asym_phenotypic_difference.
  intros (r & h1 & d1 & Hr & Hl)%prog_bind_ret.
  apply reads_ret in Hr as (-> & -> & ->).
  by apply lift_result_ret in Hl as (? & -> & ->).
Qed.

(** A mutation, through the class attribute, returns a new instance and
    changes nothing that existed. *)
Lemma call_mutate_new (self : Objects.ref) rate (h : heap) d mutant (h' : heap) rest :
  Objects.call_mutate self rate h d = Ret (mutant, h') rest →
  mutant = length (Objects.instances h) ∧ preserved h h'.
Proof.
  unfold Objects.call_mutate.
  intros (m & h1 & d1 & Hm & Hrun)%prog_bind_ret.
  apply reads_ret in Hm as (-> & -> & ->).
  assert (mutant = length (Objects.instances h)
          ∧ ∃ h1 d1, cloning h (Objects.instance_at h self) h1
                     ∧ Objects.determine_active_nodes mutant h1 d1 = Ret ((), h') rest)
    as (-> & h1 & d1 & Hc & Hact).
  { destruct (Objects.mutate_method h);
      [by apply mutate_cloning in Hrun|by apply one_active_mutation_cloning in Hrun]. }
  split; [done|].
  by destruct (determine_active_nodes_cloning _ _ _ _ _ _ _ Hc Hact) as (_ & Hpres & _).
Qed.

Section generation.
Variable consumer : Objects.ref → prog ().
Variable config : Objects.config (func:=func).
Variable parent : Objects.ref.
Variable o : Objects.instance (func:=func).
Hypothesis consumer_keeps : keeps_others consumer.

(** The parent exists and has the attributes [o]. *)
Let at_parent (h : heap) : Prop := Objects.instances h !! parent = Some o.

Lemma call_mutate_parent (self : Objects.ref) rate (h : heap) d mutant (h' : heap) rest :
  at_parent h →
  Objects.call_mutate self rate h d = Ret (mutant, h') rest →
  at_parent h' ∧ mutant ≠ parent.
Proof.
  intros Hp (-> & Hpres & _)%call_mutate_new. split; [by apply Hpres|].
  apply lookup_lt_Some in Hp. lia.
Qed.

Lemma accumulate_loop_parent (prev mutant : Objects.ref) (change : nat)
    (h : heap) d prev' mutant' (h' : heap) rest :
  at_parent h → mutant ≠ parent →
  Objects.accumulate_loop config parent prev mutant change h d
  = Ret ((prev', mutant'), h') rest →
  at_parent h' ∧ mutant' ≠ parent.
Proof.
  intros Hp Hne Hloop. unfold Objects.accumulate_loop in Hloop.
  refine (prog_while_inv
    (λ s h, at_parent h ∧ s.1.2 ≠ parent)
    (λ a h, at_parent h ∧ a.2 ≠ parent) _ _ _ _ _ (prev', mutant') _ _ _ Hloop);
    [|done].
  intros [[p m] c] h0 d0 r h1 d1 [Hp0 Hm0]. simpl in Hm0.
  destruct (Nat.eqb_spec c 0) as [->|_].
  - intros (m' & h2 & d2 & Hmut & Hrest)%prog_bind_ret.
    apply prog_bind_ret in Hrest as (c' & h3 & d3 & Hasym & Hret).
    apply asym_ret in Hasym as (_ & -> & ->).
    apply prog_ret_ret in Hret as (Hr & -> & ->). subst r.
    by eapply (call_mutate_parent m (Objects.config_mutation_rate config) h0 d0).
  - intros (Hr & -> & ->)%prog_ret_ret. by subst r.
Qed.

Lemma hand_over_parent (index : nat) (prev mutant : Objects.ref)
    (slots : list Objects.ref) (h : heap) d slots' (h' : heap) rest :
  at_parent h → mutant ≠ parent →
  Objects.hand_over consumer config parent index prev mutant slots h d
  = Ret (slots', h') rest →
  at_parent h'.
Proof.
  intros Hp Hne. unfold Objects.hand_over.
  intros ([] & h1 & d1 & Hcons & Hrest)%prog_bind_ret.
  assert (at_parent h1) as Hp1.
  { unfold at_parent. by rewrite (consumer_keeps _ _ _ _ _ Hcons parent). }
  destruct (Objects.speed_is config "accumulate").
  - apply prog_bind_ret in Hrest as (worse & h2 & d2 & Hlt & Hret).
    apply reads_ret in Hlt as (_ & -> & _).
    by apply prog_ret_ret in Hret as (_ & -> & _).
  - by apply prog_ret_ret in Hrest as (_ & -> & _).
Qed.

Lemma offspring_round_parent (active index : nat) (mutant : Objects.ref)
    (slots : list Objects.ref) (h : heap) d slots' (h' : heap) rest :
  at_parent h → mutant ≠ parent →
  Objects.offspring_round consumer config parent active (index, mutant) slots h d
  = Ret (slots', h') rest →
  at_parent h'.
Proof.
  intros Hp Hne. unfold Objects.offspring_round.
  intros ([] & h1 & d1 & Hest & Hrest)%prog_bind_ret.
  apply writes_ret in Hest as (-> & ->).
  set (h1 := Objects.set_output_dict h _) in *.
  assert (at_parent h1) as Hp1 by done.
  destruct (negb _); [|by eapply hand_over_parent].
  apply prog_bind_ret in Hrest as (change & h2 & d2 & Hasym & Hrest).
  apply asym_ret in Hasym as (_ & -> & ->).
  destruct (change =? 0)%nat; [|by eapply hand_over_parent].
  apply prog_bind_ret in Hrest as ([] & h2 & d2 & Hskip & Hrest).
  apply writes_ret in Hskip as (-> & ->).
  set (h2 := Objects.set_output_dict h1 _) in *.
  assert (at_parent h2) as Hp2 by done.
  destruct (Objects.speed_is config "skip").
  { by apply prog_ret_ret in Hrest as (_ & -> & _). }
  destruct (Objects.speed_is config "accumulate"); [|by eapply hand_over_parent].
  apply prog_bind_ret in Hrest as ([prev' mutant'] & h3 & d3 & Hloop & Hrest).
  destruct (accumulate_loop_parent _ _ _ _ _ _ _ _ _ Hp2 Hne Hloop) as [Hp3 Hne3].
  by eapply hand_over_parent.
Qed.

(** The loop over the offspring leaves the parent as it is. *)
Lemma offspring_parent (h : heap) d mutants (h' : heap) rest :
  at_parent h →
  Objects.offspring consumer config parent h d = Ret (mutants, h') rest →
  at_parent h'.
Proof.
  intros Hp. unfold Objects.offspring.
  intros (ms & h1 & d1 & Hms & Hrest)%prog_bind_ret.
  apply (prog_map_inv at_parent (λ m, m ≠ parent)) in Hms as [Hp1 Hne];
    [|intros _ h0 d0 m h2 d2 Hp0 Hm; by eapply call_mutate_parent|done].
  apply prog_bind_ret in Hrest as (me & h2 & d2 & Hme & Hrest).
  apply reads_ret in Hme as (_ & -> & ->).
  revert Hrest. apply prog_fold_inv; [|done].
  intros [index m] s h0 d0 s' h3 d3 Hin Hp0.
  apply offspring_round_parent; [done|].
  apply elem_of_lookup_imap in Hin as (i & m' & [= _ ->] & Hm').
  rewrite Forall_forall in Hne. apply Hne. by eapply list_elem_of_lookup_2.
Qed.
End generation.
End parent.

(** ** The claims on gene values and mutation *)

Section claims_genes.
Context {func value : Type} `{!Runtime func value}.
Local Abbreviation gene := (gene func).
Local Abbreviation Individual := (Individual func value).

Lemma random_gene_single_function (self : Individual) index invalid d f :
  (0 < node_step self)%nat →
  ¬ output_index self index → (index mod node_step self = 0)%nat →
  function_list self = [f] →
  random_gene self index invalid d = Ret (GFun f) d.
Proof.
  intros Hns Ho Hmod Hfl. unfold random_gene.
  destruct (Nat.eqb_spec (node_step self) 0) as [|_]; [lia|].
  pose proof (output_index_div self index ltac:(lia)) as Hout.
  destruct (Nat.leb_spec (graph_length self) (index / node_step self)) as [Hle|_];
    [by apply Hout in Hle|].
  rewrite Hmod, Hfl. done.
Qed.

Lemma random_gene_single_reference (self : Individual) index invalid d :
  (0 < node_step self)%nat →
  output_index self index ∨ (index mod node_step self ≠ 0)%nat →
  (reference_bound self index + input_length self = 1)%nat →
  random_gene self index invalid d = Ret (GInt (-1)) d.
Proof.
  intros Hns Hk Hb. unfold random_gene, reference_bound in *.
  destruct (Nat.eqb_spec (node_step self) 0) as [|_]; [lia|].
  pose proof (output_index_div self index ltac:(lia)) as Hout.
  destruct (Nat.leb_spec (graph_length self) (index / node_step self)) as [Hle|Hlt].
  - rewrite decide_True in Hb by (by apply Hout). simpl.
    by rewrite (proj2 (Nat.eqb_eq _ _) Hb).
  - assert (¬ output_index self index) as Ho by (rewrite <-Hout; lia).
    rewrite decide_False in Hb by done.
    destruct (Z.eqb_spec (Z.of_nat (index mod node_step self)) 0) as [H0|_];
      [destruct Hk; [done|lia]|].
    by rewrite (proj2 (Nat.eqb_eq _ _) Hb).
Qed.

(** X19.  [random_gene] asked to avoid a value: when the gene
    has more than one legal value, a returned value is legal and is not
    the avoided one, and the call returns as soon as a draw gives another
    value; when [function_list] has a single entry (function gene), or
    there is a single input and the gene is a connection gene of node 0 or
    an output gene of an empty graph, the call draws nothing and returns
    the one legal value, also when that is the value to avoid. *)
Theorem random_gene_avoid (self : Individual) (index : nat) (avoid : gene) (d : draws) :
  (0 < node_step self)%nat →
  (several_legal self index →
     (∀ g rest, random_gene self index (Some avoid) d = Ret g rest →
                legal self index g ∧ g ≠ avoid)
     ∧ ((∃ k g, k ∈ d ∧ candidate self index k = Some g ∧ g ≠ avoid) →
        ∃ g rest, random_gene self index (Some avoid) d = Ret g rest))
  ∧ (∀ f, ¬ output_index self index → (index mod node_step self = 0)%nat →
          function_list self = [f] →
          random_gene self index (Some avoid) d = Ret (GFun f) d
          ∧ ∀ g, legal self index g ↔ g = GFun f)
  ∧ (output_index self index ∨ (index mod node_step self ≠ 0)%nat →
     input_length self = 1%nat → reference_bound self index = 0%nat →
     random_gene self index (Some avoid) d = Ret (GInt (-1)) d
     ∧ ∀ g, legal self index g ↔ g = GInt (-1)).
Proof.
  intros Hns. split_and!.
  - intros Hsev. split; [|by apply random_gene_returns].
    intros g rest Hret.
    destruct (random_gene_ret _ _ _ _ _ _ Hret)
      as (_ & [(Ho & Hmod & f & -> & Hf & Hcase)|(Hk & node & Hnode & Hg)]).
    + pose proof (several_legal_function self index Ho Hmod Hsev) as Hlen.
      destruct Hcase as [[Hfl _]|[_ Hd]]; [by rewrite Hfl in Hlen|].
      split; [|by apply differs_Some].
      unfold legal. by rewrite decide_False, decide_True.
    + pose proof (several_legal_reference self index Hk Hsev) as H2.
      unfold reference_bound in H2. rewrite <-Hnode in H2.
      destruct Hg as [(? & _)|(_ & Hd & v & -> & Hv)]; [lia|].
      split; [|by apply differs_Some].
      unfold legal. case_decide; subst node; [done|].
      rewrite decide_False; [done|]. by destruct Hk.
  - intros f Ho Hmod Hfl. split; [by apply random_gene_single_function|].
    intros g. unfold legal. rewrite decide_False, decide_True, Hfl by done.
    destruct g; [|by split]. rewrite list_elem_of_singleton. naive_solver.
  - intros Hk Hil Hb. split; [apply random_gene_single_reference; [done..|lia]|].
    intros g. unfold legal. unfold reference_bound in Hb. case_decide.
    + rewrite Hil, Hb. destruct g; simpl; [by split|]. split; [intros; f_equal; lia|].
      intros [= ->]. lia.
    + rewrite decide_False by (by destruct Hk). rewrite Hil, Hb.
      destruct g; simpl; [by split|]. split; [intros; f_equal; lia|].
      intros [= ->]. lia.
Qed.

(** With at least one input, the genes of a produced individual are
    legal. *)
Lemma produced_legal (self : Individual) :
  produced self → (1 ≤ input_length self)%nat → legal_genes self.
Proof.
  induction 1 as [gl il ol ma fl d self rest Hinit
                 |self rate d mutant rest _ IH Hm
                 |self rate d mutant rest _ IH Hm
                 |self inputs _ IH _|self f _ IH].
  - destruct (init_spec _ _ _ _ _ _ _ _ Hinit)
      as (_ & <- & _ & _ & _ & _ & _ & _ & _ & Hlegal). auto.
  - apply mutate_kept in Hm as [((_ & <- & _) & _ & _ & _ & _ & Hleg) _]. auto.
  - apply one_active_mutation_spec in Hm
      as [(((_ & <- & _) & _ & _ & _ & _ & Hleg) & _) _]. auto.
  - exact IH.
  - exact IH.
Qed.

(** X18.  In a configuration with at least one input, every individual
    the program produces, by construction or by any number of
    applications of [mutate] and [one_active_mutation], satisfies the
    acyclicity invariant: each connection gene of node [i] holds a value
    in [[-input_length, i)] and each output gene one in
    [[-input_length, graph_length)]. *)
Theorem produced_acyclic (self : Individual) :
  produced self → (1 ≤ input_length self)%nat → acyclic self.
Proof. intros Hp Hil. by apply legal_genes_acyclic, produced_legal. Qed.

(** C1, as amended.  The mutant [one_active_mutation] returns has the
    parent's number of genes and differs from the parent in exactly one
    gene among those of the output slots and of the nodes of the parent's
    active set; whatever else differs is a gene of a node outside that
    set. *)
Theorem one_active_mutation_changes (self mutant : Individual) (r : Q) (d rest : draws) :
  one_active_mutation self r d = Ret mutant rest →
  length (genes mutant) = length (genes self)
  ∧ ∃ index : nat,
      (index < length (genes self))%nat
      ∧ active_index self index
      ∧ genes mutant !! index ≠ genes self !! index
      ∧ ∀ j, j ≠ index → active_index self j → genes mutant !! j = genes self !! j.
Proof.
  intros Hm.
  by apply one_active_mutation_spec in Hm as [((_ & Hlen & _) & Hex) _].
Qed.
End claims_genes.

(** ** The claim on the active set *)

Section claims_active.
Context {func value : Type} `{!Runtime func value}.
Local Abbreviation gene := (gene func).
Local Abbreviation Individual := (Individual func value).

(** X17.  For a gene array with at least one output gene that
    satisfies the acyclicity invariant, the single descending pass of
    [determine_active_nodes] leaves as active set the list, in strictly
    ascending order, of exactly the non-negative references reached by
    full backward traversal from the output genes through the connection
    genes. *)
Theorem determine_active_nodes_reachable (self : Individual) :
  (0 < node_step self)%nat →
  length (genes self) = (graph_length self * node_step self + output_length self)%nat →
  (1 ≤ output_length self)%nat →
  acyclic self →
  ∃ nodes : list Z,
    active (determine_active_nodes self) = GInt <$> nodes
    ∧ StronglySorted Z.lt nodes
    ∧ ∀ v, v ∈ nodes ↔ 0 ≤ v ∧ reachable self v.
Proof. intros Hns Hlen Hol Hacy. by apply determine_active_nodes_spec. Qed.
End claims_active.

(** ** The claims on evaluation *)

Section claims_evaluate.
Context {func value : Type} `{!Runtime func value}.
Local Abbreviation gene := (gene func).
Local Abbreviation Individual := (Individual func value).


(** A difference of 0 between two individuals of the shape [__init__]
    gives them, with an output, of which the first has acyclic genes:
    the two evaluate alike. *)
Lemma asym_zero_evaluate (parent mutant : Individual) (x : list value) :
  same_sizes parent mutant →
  shaped parent → shaped mutant →
  (1 ≤ output_length parent)%nat →
  acyclic parent →
  consistent parent → consistent mutant →
  asym_phenotypic_difference parent mutant = Ok 0%nat →
  length x = input_length parent →
  evaluate parent x = evaluate mutant x.
Proof.
  intros Hcfg (Hns & Hlen & Hscr) (Hns' & Hlen' & Hscr') Hol Hacy Hcons Hcons' Hzero Hx.
  assert (length (genes parent) = length (genes mutant)) as Hgenes.
  { destruct Hcfg as (Hs & _ & Hg & Ho). rewrite Hlen, Hlen'. by rewrite Hs, Hg, Ho. }
  assert (active mutant = active parent) as Hact.
  { rewrite Hcons'. by apply asym_zero_active. }
  destruct (determine_active_nodes_spec parent Hns Hlen Hacy Hol)
    as (nodes & Hactive & Hsorted & Hnodes).
  rewrite <-Hcons in Hactive.
  unfold evaluate, evaluate_run.
  rewrite (asym_zero_body parent mutant x _ Hcfg Hgenes Hact Hzero).
  apply (evaluate_body_stale parent Hns Hlen Hacy Hol nodes Hactive Hsorted Hnodes);
    [done| |done].
  destruct Hcfg as (_ & Hi & Hg & _). by rewrite Hscr', Hi, Hg.
Qed.
End claims_evaluate.

(** ** The claim on the smallest AND graph *)

Section claims_init.
Import Problems.

(** The individuals [Individual(1, 2, 1, 2, [and_])] can build: the node
    reads the inputs [a] and [b], and the output gene holds [c]. *)
Lemma init_and_genes d (self : Individual pyfunc pyval) rest :
  __init__ 1 2 1 2 [and_] d = Ret self rest →
  ∃ a b c,
    (a = -2 ∨ a = -1) ∧ (b = -2 ∨ b = -1) ∧ (c = -2 ∨ c = -1 ∨ c = 0)
    ∧ self = {| node_step := 3; input_length := 2; graph_length := 1;
                function_list := [and_]; output_length := 1;
                genes := [GFun and_; GInt a; GInt b; GInt c];
                active := if c =? 0 then [GInt 0] else [];
                scratch := [PyNone; PyNone; PyNone];
                fitness := inject_Z (- sys_maxint) |}.
Proof.
  intros Hinit.
  destruct (init_spec _ _ _ _ _ _ _ _ Hinit)
    as (Hns & Hil & Hgl & Hfl & Hol & (_ & Hlen & _) & Hcons & Hscr & Hfit & Hlegal).
  specialize (Hlegal ltac:(lia)).
  destruct self as [ns il gl fl ol gs act scr fit]. simpl in *. subst.
  destruct gs as [|g0 [|g1 [|g2 [|g3 [|g4 gs]]]]]; try done.
  pose proof (Hlegal 0%nat g0 eq_refl) as H0.
  pose proof (Hlegal 1%nat g1 eq_refl) as H1.
  pose proof (Hlegal 2%nat g2 eq_refl) as H2.
  pose proof (Hlegal 3%nat g3 eq_refl) as H3.
  unfold legal, output_index in H0, H1, H2, H3. simpl in H0, H1, H2, H3.
  destruct g0 as [f|]; [|done]. apply list_elem_of_singleton in H0 as ->.
  destruct g1 as [|a]; [done|]. destruct g2 as [|b]; [done|].
  destruct g3 as [|c]; [done|]. simpl in H1, H2, H3.
  exists a, b, c.
  assert (a = -2 ∨ a = -1) as Ha by lia.
  assert (b = -2 ∨ b = -1) as Hb by lia.
  assert (c = -2 ∨ c = -1 ∨ c = 0) as Hc by lia.
  split_and!; [done..|]. unfold consistent in Hcons. simpl in Hcons. rewrite Hcons.
  destruct Ha as [-> | ->], Hb as [-> | ->], Hc as [-> | [-> | ->]]; reflexivity.
Qed.

(** C7, as amended.  An individual built with [graph_length = 1],
    [input_length = 2], [output_length = 1], [max_arity = 2] and
    [function_list = [and_]] returns [[1]] on [[1, 1]], whatever was
    drawn; on [[1, 0]] it returns [[0]] or [[1]], and [[0]] exactly when
    its output gene holds [-2] (the second input), or holds 0 (the node)
    and a connection gene of the node holds [-2]. *)
Theorem init_and_evaluate d (self : Individual pyfunc pyval) rest :
  __init__ 1 2 1 2 [and_] d = Ret self rest →
  evaluate self [PyInt 1; PyInt 1] = Ok [PyInt 1]
  ∧ (evaluate self [PyInt 1; PyInt 0] = Ok [PyInt 0]
     ∨ evaluate self [PyInt 1; PyInt 0] = Ok [PyInt 1])
  ∧ (evaluate self [PyInt 1; PyInt 0] = Ok [PyInt 0]
     ↔ genes self !! 3%nat = Some (GInt (-2))
       ∨ (genes self !! 3%nat = Some (GInt 0)
          ∧ (genes self !! 1%nat = Some (GInt (-2))
             ∨ genes self !! 2%nat = Some (GInt (-2))))).
Proof.
  intros (a & b & c & Ha & Hb & Hc & ->)%init_and_genes.
  destruct Ha as [-> | ->], Hb as [-> | ->], Hc as [-> | [-> | ->]];
    (split_and!; [vm_compute; reflexivity|vm_compute; auto|]);
    vm_compute; split; intros H; try done; auto;
    repeat match goal with
           | H : _ ∨ _ |- _ => destruct H
           | H : _ ∧ _ |- _ => destruct H
           end; done.
Qed.
End claims_init.

(** ** The claims on clones and on the generation boundary *)

Section claims_objects.
Context {func value : Type} `{!Runtime func value}.
Local Abbreviation heap := (Objects.heap (func:=func) (value:=value)).


(** C4, as amended.  At the generation boundary [best_child] is an
    individual of the offspring slots whose fitness is maximal among
    them, and of several slots of that fitness the first in slot order:
    every slot before the selected one holds a strictly smaller fitness.
    The selection reads the heap and draws nothing. *)
Theorem best_child_first_maximal (mutants : list Objects.ref) (h : heap) (d : draws)
    (best : Objects.ref) (h' : heap) (rest : draws) :
  Objects.best_child mutants h d = Ret (best, h') rest →
  h' = h ∧ rest = d
  ∧ ∃ i : nat,
      mutants !! i = Some best
      ∧ (∀ j m, mutants !! j = Some m →
           (fitness (Objects.view h m) <= fitness (Objects.view h best))%Q)
      ∧ (∀ j m, (j < i)%nat → mutants !! j = Some m →
           (fitness (Objects.view h m) < fitness (Objects.view h best))%Q).
Proof. apply best_child_spec. Qed.

(** C8.  A generation step of the driver ends at the generation boundary
    with [best_child = max(mutants)]; the parent of the next generation
    is [best_child] exactly when [parent <= best_child], that is, when
    the parent's fitness is at most that of [best_child] (equal fitness
    replaces the parent), and is the old parent otherwise.  The fitness
    of the new parent after the step is at least the fitness the old
    parent had before the step: the step itself never touches the parent,
    and between the yields the caller sets the fitness of the individual
    it is handed, which is never the parent, and leaves the other
    instances as they are. *)
Theorem generation_parent (consumer : Objects.ref → Objects.prog ())
    (config : Objects.config) (parent : Objects.ref) (h : heap) (d : draws)
    (parent' : Objects.ref) (h' : heap) (rest : draws) :
  Objects.generation consumer config parent h d = Ret (parent', h') rest →
  ∃ mutants best,
    Objects.offspring consumer config parent h d = Ret (mutants, h') rest
    ∧ Objects.best_child mutants h' rest = Ret (best, h') rest
    ∧ ((fitness (Objects.view h' parent) <= fitness (Objects.view h' best))%Q →
       parent' = best)
    ∧ (¬ (fitness (Objects.view h' parent) <= fitness (Objects.view h' best))%Q →
       parent' = parent)
    ∧ (fitness (Objects.view h' parent) <= fitness (Objects.view h' parent'))%Q
    ∧ ((parent < length (Objects.instances h))%nat → keeps_others consumer →
       Objects.instance_at h' parent = Objects.instance_at h parent
       ∧ (fitness (Objects.view h parent) <= fitness (Objects.view h' parent'))%Q).
Proof.
  unfold Objects.generation. intros Hrun.
  apply prog_bind_ret in Hrun as (mutants & h1 & d1 & Hoff & Hsel).
  apply select_spec in Hsel as (-> & -> & best & Hbest & ->).
  assert (fitness (Objects.view h1 parent)
          <= fitness (Objects.view h1
               (if __le__ (Objects.view h1 parent) (Objects.view h1 best)
                then best else parent)))%Q as Hle.
  { destruct (__le__ _ _) eqn:Hb; [by apply le_fitness|apply Qle_refl]. }
  exists mutants, best. split_and!; [done..| | |done|].
  - intros Hle'. by rewrite (proj2 (le_fitness _ _) Hle').
  - intros Hle'. destruct (__le__ _ _) eqn:Hb; [|done].
    by apply le_fitness in Hb.
  - intros Hparent Hkeeps.
    destruct (lookup_lt_is_Some_2 _ _ Hparent) as [o Ho].
    pose proof (offspring_parent consumer config parent o Hkeeps _ _ _ _ _ Ho Hoff)
      as Ho'.
    assert (Objects.instance_at h1 parent = Objects.instance_at h parent) as Hsame.
    { unfold Objects.instance_at. by rewrite Ho, Ho'. }
    split; [done|].
    change (fitness (Objects.view h parent))
      with (Objects.attr_fitness (Objects.instance_at h parent)).
    by rewrite <-Hsame.
Qed.
End claims_objects.

(** ** Further properties: evaluation and the scratch buffer *)

Section more_evaluate.
Context {func value : Type} `{!Runtime func value}.
Local Abbreviation gene := (gene func).
Local Abbreviation Individual := (Individual func value).

Lemma keeps_length_bind {A B} (c : scratchM value A) (k : A → scratchM value B) :
  keeps_length c → (∀ a, keeps_length (k a)) → keeps_length (x ← c; k x).
Proof.
  intros Hc Hk m. unfold mbind, scratch_mbind, scratch_bind.
  specialize (Hc m). destruct (c m) as [[a|e] m']; simpl in *; [|done].
  by rewrite Hk.
Qed.

Lemma keeps_length_lift {A} (r : result A) :
  keeps_length (scratch_lift (value:=value) r).
Proof. done. Qed.

Lemma keeps_length_get i : keeps_length (scratch_get (value:=value) i).
Proof. done. Qed.

Lemma keeps_length_set i (v : value) : keeps_length (scratch_set i v).
Proof.
  intros m. unfold scratch_set.
  destruct (py_setitem (cells m) i v) as [c|e] eqn:Hset; simpl; [|done].
  by apply py_setitem_length in Hset.
Qed.

Lemma keeps_length_map {A B} (f : A → scratchM value B) (l : list A) :
  (∀ x, keeps_length (f x)) → keeps_length (scratch_map f l).
Proof.
  intros Hf. induction l as [|x l IH]; [done|]. simpl.
  apply (keeps_length_bind (f x)); [done|]. intros y.
  apply (keeps_length_bind (scratch_map f l)); [done|]. done.
Qed.

Lemma keeps_length_for {A} (l : list A) (body : A → scratchM value ()) :
  (∀ x, keeps_length (body x)) → keeps_length (scratch_for l body).
Proof.
  intros Hf. induction l as [|x l IH]; [done|]. simpl.
  by apply (keeps_length_bind (body x)).
Qed.

Lemma keeps_length_scratch_at (g : gene) :
  keeps_length (scratch_at (value:=value) g).
Proof.
  unfold scratch_at. apply keeps_length_bind; [apply keeps_length_lift|].
  intros i. apply keeps_length_get.
Qed.

(** [evaluate] on at most as many inputs as the buffer has slots leaves
    the buffer as long as it was, whether it returns or raises. *)
Lemma evaluated_scratch_length (self : Individual) (inputs : list value) :
  (1 ≤ length inputs ≤ length (scratch self))%nat →
  length (scratch (evaluated self inputs)) = length (scratch self).
Proof.
  intros Hin. unfold evaluated, evaluate_run, evaluate_body. simpl.
  unfold mbind at 1, scratch_mbind, scratch_bind.
  destruct (scratch_assign_from _ _ _) as [[[]|e] m0] eqn:Hload; [|done].
  injection Hload as <-.
  set (m0 := Mem _ _).
  assert (length (cells m0) = length (scratch self)) as <-.
  { subst m0. simpl. unfold py_slice_from_assign.
    rewrite py_clamp_last by lia.
    rewrite length_app, length_take, length_reverse. lia. }
  apply keeps_length_bind.
  - apply keeps_length_for. intros node_index.
    apply keeps_length_bind; [apply keeps_length_lift|]. intros node.
    apply keeps_length_bind; [apply keeps_length_lift|]. intros function.
    apply keeps_length_bind; [apply keeps_length_map, keeps_length_scratch_at|].
    intros args.
    apply keeps_length_bind; [apply keeps_length_lift|]. intros r.
    apply keeps_length_set.
  - intros _. apply keeps_length_map, keeps_length_scratch_at.
Qed.

(** X1.  What [evaluate] returns does not depend on what the scratch
    buffer holds when it is called: for an individual of the shape
    [__init__] gives it, with at least one output, acyclic genes and a
    consistent active set, [evaluate] on [input_length] inputs returns
    the same list (or raises the same exception) from any buffer of the
    same size. *)
Theorem evaluate_ignores_scratch (self : Individual) (inputs cells' : list value) :
  shaped self → acyclic self → consistent self →
  (1 ≤ output_length self)%nat →
  length inputs = input_length self →
  length cells' = length (scratch self) →
  evaluate (set_scratch self cells') inputs = evaluate self inputs.
Proof.
  intros (Hns & Hlen & Hscr) Hacy Hcons Hol Hinputs Hcells.
  destruct (determine_active_nodes_spec self Hns Hlen Hacy Hol)
    as (nodes & Hactive & Hsorted & Hnodes).
  rewrite <-Hcons in Hactive.
  unfold evaluate, evaluate_run.
  change (evaluate_body (set_scratch self cells') inputs)
    with (evaluate_body self inputs).
  apply (evaluate_body_stale self Hns Hlen Hacy Hol nodes Hactive Hsorted Hnodes);
    [simpl; by rewrite Hcells|done..].
Qed.

(** X2.  An evaluation leaves the individual in a state in which every
    later evaluation returns what it would have returned before:
    [evaluate(y)] after [evaluate(x)] is [evaluate(y)], also when the
    first call raised or was given the wrong number of inputs, as long
    as [x] holds at least one value and no more than the buffer has
    slots.  (A call on no inputs empties the buffer.) *)
Theorem evaluate_after_evaluate (self : Individual) (x y : list value) :
  shaped self → acyclic self → consistent self →
  (1 ≤ output_length self)%nat →
  (1 ≤ length x ≤ graph_length self + input_length self)%nat →
  length y = input_length self →
  evaluate (evaluated self x) y = evaluate self y.
Proof.
  intros Hshape Hacy Hcons Hol Hx Hy.
  pose proof Hshape as (_ & _ & Hscr).
  assert (length (scratch (evaluated self x)) = length (scratch self)) as Hlen.
  { apply evaluated_scratch_length. lia. }
  unfold evaluated in *.
  by apply (evaluate_ignores_scratch self y).
Qed.
End more_evaluate.

(** ** Further properties: [diff_count], construction, the function set *)

Section more_diff_count.
Context {A : Type} `{!EqDecision A}.


End more_diff_count.

Section more_init.
Context {func value : Type} `{!Runtime func value}.
Local Abbreviation gene := (gene func).
Local Abbreviation Individual := (Individual func value).

(** X4.  Construction fails for an empty [function_list]: with at least
    one node, [Individual(...)] raises the [IndexError] of
    [random.choice] on an empty sequence, at the first gene. *)
Theorem init_empty_function_list (gl il ol ma : nat) (k : Z) (d : draws) :
  (1 ≤ gl)%nat →
  __init__ (func:=func) (value:=value) gl il ol ma [] (k :: d) = Throw IndexError.
Proof.
  intros Hgl. unfold __init__.
  destruct (gl * (ma + 1) + ol)%nat as [|n] eqn:Hn; [lia|].
  cbn [node_step]. rewrite Hn. simpl seq. cbn [rand_map].
  unfold mbind, rand_mbind. unfold rand_bind at 1.
  unfold rand_bind at 1.
  assert (random_gene (func:=func) (value:=value)
            {| node_step := ma + 1; input_length := il; graph_length := gl;
               function_list := []; output_length := ol; genes := [];
               active := []; scratch := []; fitness := 0 |} 0 None (k :: d)
          = Throw IndexError) as ->; [|done].
  unfold random_gene. cbn [node_step graph_length function_list input_length].
  destruct (Nat.eqb_spec (ma + 1) 0) as [|_]; [lia|].
  rewrite Nat.Div0.div_0_l, Nat.Div0.mod_0_l.
  destruct (Nat.leb_spec gl 0) as [|_]; [lia|]. simpl.
  unfold while_true. simpl. unfold rand_bind, choice. reflexivity.
Qed.

(** X5.  Construction fails without inputs: with at least one node that
    takes arguments and [input_length = 0], a connection gene of node 0
    has no legal value, and [Individual(...)] raises the [ValueError] of
    [random.randrange] on an empty range. *)
Theorem init_no_input (gl ol ma : nat) (f : func) (d : draws) :
  (1 ≤ gl)%nat → (1 ≤ ma)%nat →
  __init__ (func:=func) (value:=value) gl 0 ol ma [f] d = Throw ValueError.
Proof.
  intros Hgl Hma. unfold __init__.
  destruct (gl * (ma + 1) + ol)%nat as [|[|n]] eqn:Hn; [nia..|].
  cbn [node_step]. rewrite Hn. simpl seq. cbn [rand_map].
  unfold mbind, rand_mbind.
  set (self := {| node_step := ma + 1; input_length := 0; graph_length := gl;
                  function_list := [f]; output_length := ol; genes := [];
                  active := []; scratch := []; fitness := 0 |}).
  assert (random_gene (func:=func) (value:=value) self 0 None d = Ret (GFun f) d)
    as H0.
  { apply random_gene_single_function; [simpl; lia| |simpl|done].
    - unfold output_index. simpl. nia.
    - apply Nat.Div0.mod_0_l. }
  assert (random_gene (func:=func) (value:=value) self 1 None d = Throw ValueError)
    as H1.
  { unfold random_gene. cbn [node_step graph_length function_list input_length self].
    destruct (Nat.eqb_spec (ma + 1) 0) as [|_]; [lia|].
    rewrite Nat.div_small, Nat.mod_small by lia.
    destruct (Nat.leb_spec gl 0) as [|_]; [lia|]. simpl.
    unfold while_true. by destruct d. }
  unfold rand_bind. by rewrite H0, H1.
Qed.
End more_init.

Section more_driver.
Context {func value : Type} `{!Runtime func value}.
Local Abbreviation heap := (Objects.heap (func:=func) (value:=value)).

(** X6.  A generation without offspring fails: with [off_size = 0] the
    list of mutants is empty, and the generation boundary raises the
    [ValueError] of [max] on an empty sequence, without the caller being
    handed anything. *)
Theorem generation_no_offspring (consumer : Objects.ref → Objects.prog ())
    (config : Objects.config) (parent : Objects.ref) (h : heap) (d : draws) :
  Objects.config_off_size config = 0%nat →
  Objects.generation consumer config parent h d = Throw ValueError.
Proof.
  intros Hoff. unfold Objects.generation, Objects.offspring. by rewrite Hoff.
Qed.
End more_driver.

Section more_problems.
Import Problems.

Lemma truthy_py_and (x y : pyval) : truthy (py_and x y) = truthy x && truthy y.
Proof. unfold py_and. by destruct (truthy x) eqn:Hx; simpl. Qed.

Lemma truthy_py_or (x y : pyval) : truthy (py_or x y) = truthy x || truthy y.
Proof. unfold py_or. by destruct (truthy x) eqn:Hx; simpl. Qed.

(** X7.  [nand] and [nor] return on any two objects, [None] among them,
    and return a boolean: the negated conjunction, and the negated
    disjunction, of the truth values of the arguments.  The operators
    [or_] and [and_] of the same function set raise a [TypeError] when an
    argument, the first or the second, is [None], and every function of
    the set raises one when it is not called on two arguments. *)
Theorem nand_nor_total (x y : pyval) :
  apply nand [x; y] = Ok (PyBool (negb (truthy x && truthy y)))
  ∧ apply nor [x; y] = Ok (PyBool (negb (truthy x || truthy y)))
  ∧ apply or_ [PyNone; y] = Raise TypeError
  ∧ apply or_ [x; PyNone] = Raise TypeError
  ∧ apply and_ [PyNone; y] = Raise TypeError
  ∧ apply and_ [x; PyNone] = Raise TypeError
  ∧ ∀ f args, length args ≠ 2%nat → apply f args = Raise TypeError.
Proof.
  split_and!.
  - simpl. unfold py_not. by rewrite truthy_py_and.
  - simpl. unfold py_not. by rewrite truthy_py_or.
  - done.
  - by destruct x.
  - done.
  - by destruct x.
  - intros f [|a [|b [|c args]]] Hlen; done.
Qed.
End more_problems.

(** ** Further properties: mutation *)

Section more_mutation.
Context {func value : Type} `{!Runtime func value}.
Local Abbreviation gene := (gene func).
Local Abbreviation Individual := (Individual func value).

Lemma random_below_never (rate : Q) (k : Z) (rest : draws) :
  (rate <= 0)%Q → random_below rate (k :: rest) = Ret false rest.
Proof.
  intros Hrate. unfold random_below. f_equal.
  apply Z.ltb_ge. unfold Qle in Hrate. simpl in Hrate.
  pose proof (fraction_bounds k). pose proof two53_pos. nia.
Qed.

Lemma mutate_rounds_never (rate : Q) (xs : list nat) (s : Individual) (d : draws) :
  (rate <= 0)%Q →
  for_each xs (mutate_round rate) s d
  = if decide (length xs ≤ length d)%nat then Ret s (drop (length xs) d)
    else OutOfDraws.
Proof.
  intros Hrate. revert d. induction xs as [|x xs IH]; intros d.
  - rewrite decide_True by (simpl; lia). done.
  - cbn [for_each]. unfold rand_bind at 1. unfold mutate_round at 1.
    unfold mbind, rand_mbind. unfold rand_bind at 1.
    destruct d as [|k d].
    + by rewrite decide_False by (simpl; lia).
    + rewrite random_below_never by done. unfold rand_ret. rewrite IH.
      cbn [length drop].
      destruct (decide (length xs ≤ length d)%nat);
        [rewrite decide_True by lia|rewrite decide_False by lia]; done.
Qed.

(** X8.  With a mutation rate of 0 (or less) [mutate] changes no gene:
    it draws one number per gene and returns a copy of the individual
    with the active set recomputed; on fewer draws than genes it has not
    finished. *)
Theorem mutate_rate_zero (self : Individual) (rate : Q) (d : draws) :
  (rate <= 0)%Q →
  mutate self rate d
  = if decide (length (genes self) ≤ length d)%nat
    then Ret (determine_active_nodes (copy self)) (drop (length (genes self)) d)
    else OutOfDraws.
Proof.
  intros Hrate. unfold mutate, mbind, rand_mbind, rand_bind.
  rewrite mutate_rounds_never by done. rewrite length_seq. simpl.
  by destruct (decide _).
Qed.

Lemma one_active_round_frozen (self : Individual) (d : draws) :
  frozen self →
  match one_active_round self (copy self) d with
  | Ret r rest => r = inl (copy self)
  | _ => True
  end.
Proof.
  intros Hfrozen. unfold one_active_round, mbind, rand_mbind.
  unfold rand_bind at 1.
  destruct (randrange 0 _ d) as [index d1| |] eqn:Hindex; [|done..].
  assert (Z.to_nat index < length (genes self))%nat as Hlt.
  { apply randrange_ret in Hindex. simpl in Hindex. lia. }
  assert (0 ≤ index) as Hpos by (apply randrange_ret in Hindex; lia).
  unfold rand_bind at 1.
  change (random_gene (copy self) (Z.to_nat index) None d1)
    with (random_gene self (Z.to_nat index) None d1).
  destruct (random_gene self _ None d1) as [newval d2| |] eqn:Hnew; [|done..].
  pose proof (Hfrozen _ _ _ _ Hlt Hnew) as Hold.
  unfold rand_bind at 1. simpl genes.
  rewrite <-(Z2Nat.id index) by lia.
  rewrite (proj2 (py_getitem_nat _ _ _) Hold). simpl.
  unfold gene_ne. by rewrite bool_decide_eq_false_2 by auto.
Qed.

Lemma one_active_loop_frozen (self : Individual) (fuel : nat) (d : draws) :
  frozen self →
  ∀ mutant rest,
    while_true_fuel fuel (one_active_round self) (copy self) d ≠ Ret mutant rest.
Proof.
  intros Hfrozen. revert d. induction fuel as [|fuel IH]; intros d mutant rest; [done|].
  simpl. pose proof (one_active_round_frozen self d Hfrozen) as Hround.
  destruct (one_active_round self (copy self) d) as [[s|a] d1| |]; [| |done..].
  - injection Hround as ->. apply IH.
  - done.
Qed.

(** X9.  [one_active_mutation] does not return when no gene of the
    individual can change: if every resampling of every gene gives the
    value the gene has, the loop goes round for ever (or, without genes,
    raises the [ValueError] of an empty [randrange]); it never returns a
    mutant. *)
Theorem one_active_mutation_frozen (self : Individual) (r : Q) (d : draws) :
  frozen self →
  ∀ mutant rest, one_active_mutation self r d ≠ Ret mutant rest.
Proof.
  intros Hfrozen mutant rest. unfold one_active_mutation, mbind, rand_mbind.
  unfold rand_bind, while_true.
  pose proof (one_active_loop_frozen self (S (length d)) d Hfrozen) as Hloop.
  destruct (while_true_fuel _ _ _ _) as [m d1| |]; [|done..].
  by destruct (Hloop m d1).
Qed.
End more_mutation.

(** ** Further properties: the benchmark problems *)

Section more_benchmarks.
Import Problems.

Lemma binary_value_from (acc : N) (t : list bool) :
  foldl (fun acc b => (2 * acc + N.b2n b)%N) acc t
  = (acc * 2 ^ N.of_nat (length t) + binary_value t)%N.
Proof.
  unfold binary_value. revert acc. induction t as [|b t IH]; intros acc.
  - simpl. lia.
  - cbn [foldl length]. rewrite IH, (IH (2 * 0 + N.b2n b)%N).
    replace (N.of_nat (S (length t))) with (N.succ (N.of_nat (length t))) by lia.
    rewrite N.pow_succ_r'. lia.
Qed.

Lemma binary_value_app (s t : list bool) :
  binary_value (s ++ t) = (binary_value s * 2 ^ N.of_nat (length t) + binary_value t)%N.
Proof. unfold binary_value at 1. by rewrite foldl_app, binary_value_from. Qed.

Lemma binary_value_cons (b : bool) (s : list bool) :
  binary_value (b :: s) = (N.b2n b * 2 ^ N.of_nat (length s) + binary_value s)%N.
Proof.
  change (b :: s) with ([b] ++ s). rewrite binary_value_app.
  f_equal; unfold binary_value; simpl; lia.
Qed.

Lemma binary_value_bound (s : list bool) :
  (binary_value s < 2 ^ N.of_nat (length s))%N.
Proof.
  induction s as [|b s IH].
  - done.
  - rewrite binary_value_cons. simpl length.
    replace (N.of_nat (S (length s))) with (N.succ (N.of_nat (length s))) by lia.
    rewrite N.pow_succ_r'. destruct b; simpl N.b2n; lia.
Qed.

Lemma binary_value_replicate (n : nat) (s : list bool) :
  binary_value (replicate n false ++ s) = binary_value s.
Proof.
  induction n as [|n IH]; [done|]. simpl. rewrite binary_value_cons, IH. simpl. lia.
Qed.

Lemma product_succ (n : nat) :
  product [false; true] (S n)
  = ((false ::.) <$> product [false; true] n) ++ ((true ::.) <$> product [false; true] n).
Proof.
  simpl. rewrite app_nil_r.
  f_equal; (induction (product [false; true] n) as [|l ls IH];
            [done|simpl; by rewrite ?IH]).
Qed.

Lemma binary_range_length (n : nat) : length (binary_range n) = (2 ^ n)%nat.
Proof.
  unfold binary_range. induction n as [|n IH]; [done|].
  rewrite product_succ, length_app, !length_fmap, IH. simpl. lia.
Qed.

Lemma binary_range_lookup (n : nat) (s : list bool) :
  length s = n → binary_range n !! N.to_nat (binary_value s) = Some s.
Proof.
  unfold binary_range. revert s. induction n as [|n IH]; intros s Hlen.
  - by destruct s.
  - destruct s as [|b s]; [done|]. injection Hlen as Hlen.
    rewrite product_succ, binary_value_cons.
    pose proof (binary_value_bound s) as Hb. rewrite Hlen in *.
    fold (binary_range n) in *. pose proof (binary_range_length n) as Hl.
    assert (N.to_nat (2 ^ N.of_nat n) = 2 ^ n)%nat as Hpow.
    { rewrite <-(Nat2N.id (2 ^ n)), Nat2N.inj_pow. done. }
    destruct b; simpl N.b2n.
    + rewrite lookup_app_r by (rewrite length_fmap, Hl; lia).
      rewrite length_fmap, Hl.
      replace (N.to_nat (1 * 2 ^ N.of_nat n + binary_value s) - 2 ^ n)%nat
        with (N.to_nat (binary_value s)) by lia.
      by rewrite list_lookup_fmap, IH.
    + rewrite lookup_app_l by (rewrite length_fmap, Hl; lia).
      replace (0 * 2 ^ N.of_nat n + binary_value s)%N with (binary_value s) by lia.
      by rewrite list_lookup_fmap, IH.
Qed.

(** X10.  [binary_range] lists all [2 ^ input_length] tuples of bits of
    length [input_length], each once, in counting order: the tuple at
    position [i] is the one that, read as a binary number with the most
    significant bit first, denotes [i]. *)
Theorem binary_range_counts (input_length : nat) :
  length (binary_range input_length) = (2 ^ input_length)%nat
  ∧ (∀ s, length s = input_length →
          binary_range input_length !! N.to_nat (binary_value s) = Some s)
  ∧ (∀ i s, binary_range input_length !! i = Some s →
            length s = input_length ∧ N.to_nat (binary_value s) = i)
  ∧ NoDup (binary_range input_length).
Proof.
  assert (∀ i s, binary_range input_length !! i = Some s → length s = input_length)
    as Hlen.
  { unfold binary_range. induction input_length as [|n IH]; intros i s.
    - destruct i; [|done]. by intros [= <-].
    - rewrite product_succ. intros Hs.
      apply lookup_app_Some in Hs as [Hs|[_ Hs]];
        apply list_lookup_fmap_Some in Hs as (t & -> & Ht); simpl;
        f_equal; by eapply IH. }
  assert (∀ i s, binary_range input_length !! i = Some s →
                 N.to_nat (binary_value s) = i) as Hval.
  { intros i s Hs. pose proof (Hlen _ _ Hs) as Hl.
    pose proof (binary_range_lookup _ _ Hl) as Hs'.
    pose proof (lookup_lt_Some _ _ _ Hs) as Hi.
    rewrite binary_range_length in Hi.
    pose proof (binary_value_bound s) as Hb. rewrite Hl in Hb.
    assert (N.to_nat (2 ^ N.of_nat input_length) = 2 ^ input_length)%nat as Hpow.
    { rewrite <-(Nat2N.id (2 ^ input_length)), Nat2N.inj_pow. done. }
    clear Hs'. revert i s Hs Hl Hi Hb. unfold binary_range.
    clear Hlen. induction input_length as [|n IH]; intros i s Hs Hl Hi Hb.
    - destruct i; [|done]. by injection Hs as <-.
    - rewrite product_succ in Hs.
      assert (length (product [false; true] n) = 2 ^ n)%nat as Hn
        by apply binary_range_length.
      assert (N.to_nat (2 ^ N.of_nat n) = 2 ^ n)%nat as Hpow'.
      { rewrite <-(Nat2N.id (2 ^ n)), Nat2N.inj_pow. done. }
      apply lookup_app_Some in Hs as [Hs|[Hge Hs]];
        apply list_lookup_fmap_Some in Hs as (t & -> & Ht);
        rewrite binary_value_cons; simpl N.b2n.
      + pose proof (lookup_lt_Some _ _ _ Ht) as Hit. rewrite Hn in Hit.
        injection Hl as Hl. pose proof (binary_value_bound t) as Hbt.
        rewrite Hl in Hbt.
        rewrite N.mul_0_l, N.add_0_l. apply (IH Hpow'); [done..|lia|done].
      + rewrite length_fmap, Hn in Ht, Hge.
        pose proof (lookup_lt_Some _ _ _ Ht) as Hit. rewrite Hn in Hit.
        injection Hl as Hl. pose proof (binary_value_bound t) as Hbt.
        rewrite Hl in Hbt.
        pose proof (IH Hpow' _ _ Ht Hl Hit Hbt) as Hrec.
        rewrite Hl. lia. }
  split_and!.
  - apply binary_range_length.
  - apply binary_range_lookup.
  - intros i s Hs. split; [by eapply Hlen|by apply Hval].
  - apply NoDup_alt. intros i j s Hi Hj.
    by rewrite <-(Hval _ _ Hi), <-(Hval _ _ Hj).
Qed.

(** X11.  [single_bit_set] returns [input_length] tuples of length
    [input_length]; the tuple at position [i] holds a one at position [i]
    and zeros everywhere else. *)
Theorem single_bit_set_one_hot (input_length i : nat) :
  length (single_bit_set input_length) = input_length
  ∧ ((i < input_length)%nat →
     single_bit_set input_length !! i
     = Some (<[i := true]> (replicate input_length false))).
Proof.
  unfold single_bit_set. split; [by rewrite length_fmap, length_seq|].
  intros Hi. rewrite list_lookup_fmap, lookup_seq_lt by done. simpl. f_equal.
  unfold ljust, rjust. simpl length.
  rewrite length_app, length_replicate. simpl length.
  replace (i + 1 - 1)%nat with i by lia.
  replace (input_length - (i + 1))%nat with (input_length - S i)%nat by lia.
  assert (replicate input_length false
          = replicate i false ++ false :: replicate (input_length - S i) false)
    as ->.
  { change (false :: replicate (input_length - S i) false)
      with (replicate (S (input_length - S i)) false).
    rewrite <-replicate_add. f_equal. lia. }
  rewrite insert_app_r_alt by (rewrite length_replicate; lia).
  rewrite length_replicate, Nat.sub_diag. simpl. by rewrite <-app_assoc.
Qed.

Lemma sum_count (inputs : list bool) :
  sum inputs = Z.of_nat (length (filter (λ b, b = true) inputs)).
Proof.
  unfold sum. induction inputs as [|[] inputs IH]; [done| |].
  - rewrite filter_cons_True by done. csimpl. rewrite IH. lia.
  - rewrite filter_cons_False by done. csimpl. by rewrite IH.
Qed.

(** X12.  [even_parity] returns the list of a single value, which is 1
    when the number of ones among the inputs is even and 0 when it is
    odd. *)
Theorem even_parity_even (inputs : list bool) :
  even_parity inputs
  = [if Nat.even (length (filter (λ b, b = true) inputs)) then 1 else 0].
Proof.
  unfold even_parity. rewrite sum_count. f_equal.
  set (n := length _).
  destruct (Nat.even n) eqn:Hn.
  - apply Nat.even_spec in Hn as [k ->]. rewrite Nat2Z.inj_mul.
    rewrite Z.add_comm, Z.mul_comm. by rewrite Z.mod_add.
  - assert (Nat.odd n = true) as Ho by (by rewrite <-Nat.negb_even, Hn).
    apply Nat.odd_spec in Ho as [k ->].
    replace (Z.of_nat (2 * k + 1) + 1) with (0 + (Z.of_nat k + 1) * 2) by lia.
    by rewrite Z.mod_add.
Qed.

Lemma positive_digits_value (p : positive) :
  binary_value (positive_digits p) = Npos p.
Proof.
  induction p as [p IH|p IH|]; simpl; [| |done];
    rewrite binary_value_app, IH; unfold binary_value; simpl; lia.
Qed.

Lemma bin_value (n : N) : binary_value (bin n) = n.
Proof. destruct n; [done|apply positive_digits_value]. Qed.

Lemma positive_digits_length (p : positive) (k : nat) :
  (Npos p < 2 ^ N.of_nat k)%N → (length (positive_digits p) ≤ k)%nat.
Proof.
  revert k. induction p as [p IH|p IH|]; intros k Hk; simpl.
  - destruct k as [|k]; [simpl in Hk; lia|].
    rewrite length_app. simpl.
    replace (N.of_nat (S k)) with (N.succ (N.of_nat k)) in Hk by lia.
    rewrite N.pow_succ_r' in Hk. specialize (IH k). lia.
  - destruct k as [|k]; [simpl in Hk; lia|].
    rewrite length_app. simpl.
    replace (N.of_nat (S k)) with (N.succ (N.of_nat k)) in Hk by lia.
    rewrite N.pow_succ_r' in Hk. specialize (IH k). lia.
  - destruct k as [|k]; [simpl in Hk; lia|lia].
Qed.

Lemma bin_length (n : N) (k : nat) :
  (1 ≤ k)%nat → (n < 2 ^ N.of_nat k)%N → (length (bin n) ≤ k)%nat.
Proof.
  intros Hk Hn. destruct n as [|p]; [simpl; lia|]. by apply positive_digits_length.
Qed.

(** X13.  [binary_multiply] on at least two bits returns as many bits as
    it is given, and the number they denote is the product of the numbers
    that the first half and the second half of the inputs denote (the
    first half being the shorter one when the length is odd); on fewer
    than two bits it raises the [ValueError] of [int] on an empty
    string. *)
Theorem binary_multiply_product (inputs : list bool) :
  ((2 ≤ length inputs)%nat →
   ∃ out,
     binary_multiply inputs = Ok out
     ∧ length out = length inputs
     ∧ binary_value out
       = (binary_value (take (length inputs / 2) inputs)
          * binary_value (drop (length inputs / 2) inputs))%N)
  ∧ ((length inputs < 2)%nat → binary_multiply inputs = Raise ValueError).
Proof.
  unfold binary_multiply. split.
  - intros Hlen.
    set (middle := (length inputs / 2)%nat).
    assert (1 ≤ middle ∧ middle < length inputs)%nat as [Hm1 Hm2].
    { subst middle. split.
      - apply Nat.div_le_lower_bound; lia.
      - apply Nat.div_lt; lia. }
    set (a := take middle inputs). set (b := drop middle inputs).
    assert (length a = middle) as Ha by (subst a; rewrite length_take; lia).
    assert (length b = (length inputs - middle)%nat) as Hb
      by (subst b; by rewrite length_drop).
    assert (int2 a = Ok (binary_value a)) as -> by (destruct a; [simpl in Ha; lia|done]).
    assert (int2 b = Ok (binary_value b)) as -> by (destruct b; [simpl in Hb; lia|done]).
    simpl. eexists. split; [done|].
    pose proof (binary_value_bound a) as Hba. pose proof (binary_value_bound b) as Hbb.
    assert (binary_value a * binary_value b < 2 ^ N.of_nat (length inputs))%N as Hprod.
    { replace (length inputs) with (length a + length b)%nat by lia.
      rewrite Nat2N.inj_add, N.pow_add_r. nia. }
    pose proof (bin_length _ (length inputs) ltac:(lia) Hprod) as Hbin.
    unfold rjust. split.
    + rewrite length_app, length_replicate. lia.
    + by rewrite binary_value_replicate, bin_value.
  - intros Hlen. destruct inputs as [|x [|y inputs]]; [done..|simpl in Hlen; lia].
Qed.

(** X14.  [binary_decode] on the tuple at position [i] of [binary_range]
    returns [2 ^ input_length] values with a 1 at position [i] and zeros
    everywhere else; the index it computes is always within the list.  On
    no input at all it raises the [ValueError] of [int] on an empty
    string. *)
Theorem binary_decode_range (input_length i : nat) (inputs : list bool) :
  ((1 ≤ input_length)%nat →
   binary_range input_length !! i = Some inputs →
   binary_decode inputs = Ok (<[i := 1]> (replicate (2 ^ input_length) 0)))
  ∧ binary_decode [] = Raise ValueError.
Proof.
  split; [|done]. intros Hn Hi.
  destruct (binary_range_counts input_length) as (_ & _ & Hlookup & _).
  destruct (Hlookup _ _ Hi) as [Hlen Hval].
  unfold binary_decode.
  assert (int2 inputs = Ok (binary_value inputs)) as ->
    by (destruct inputs; [simpl in Hlen; lia|done]).
  simpl. rewrite Hlen.
  pose proof (lookup_lt_Some _ _ _ Hi) as Hlt.
  destruct (binary_range_counts input_length) as (Hl & _). rewrite Hl in Hlt.
  replace (Z.of_N (binary_value inputs)) with (Z.of_nat i) by lia.
  unfold py_setitem. rewrite py_index_nat by (rewrite length_replicate; lia).
  done.
Qed.
End more_benchmarks.

(** ** Further properties: the search driver *)

Section more_offspring.
Context {func value : Type} `{!Runtime func value}.
Local Abbreviation heap := (Objects.heap (func:=func) (value:=value)).
Local Abbreviation prog := (Objects.prog (func:=func) (value:=value)).

Lemma prog_bind_ext {A B} (c : prog A) (k1 k2 : A → prog B) (h : heap) d :
  (∀ a h' d', c h d = Ret (a, h') d' → k1 a h' d' = k2 a h' d') →
  (x ← c; k1 x) h d = (x ← c; k2 x) h d.
Proof.
  intros Hk. unfold mbind, Objects.prog_mbind, Objects.prog_bind.
  destruct (c h d) as [[a h'] d'| |]; [|done..]. by apply Hk.
Qed.

Lemma prog_fold_ext {X S} (xs : list X) (body1 body2 : X → S → prog S) :
  (∀ x s h d, x ∈ xs → body1 x s h d = body2 x s h d) →
  ∀ s h d, Objects.prog_fold xs body1 s h d = Objects.prog_fold xs body2 s h d.
Proof.
  induction xs as [|x xs IH]; intros Hbody s h d; [done|]. simpl.
  unfold Objects.prog_bind. rewrite Hbody by left.
  destruct (body2 x s h d) as [[s' h'] d'| |]; [|done..].
  apply IH. intros y ???? . apply Hbody. by right.
Qed.

(** X15.  In the speeds [normal] and [single] the loop over the
    offspring computes no difference and skips nothing: every mutant of
    the generation is counted in [estimated] and handed to the caller,
    in slot order, and the slots are left as they were filled. *)
Theorem offspring_normal (consumer : Objects.ref → prog ())
    (config : Objects.config) (parent : Objects.ref) (h : heap) (d : draws) :
  Objects.config_speed config = "normal"%string
  ∨ Objects.config_speed config = "single"%string →
  Objects.offspring consumer config parent h d
  = hand_over_all consumer config parent h d.
Proof.
  intros Hspeed. unfold Objects.offspring, hand_over_all.
  apply prog_bind_ext. intros mutants h1 d1 _.
  apply prog_bind_ext. intros me h2 d2 _.
  set (active := (Objects.config_output_length config
                  + length (Objects.attr_active me)
                    * (Objects.config_max_arity config + 1))%nat).
  assert (∀ (l : list Objects.ref) (k : nat) (slots : list Objects.ref) h d,
    Objects.prog_fold (imap (λ index mutant, (k + index, mutant)%nat) l)
      (Objects.offspring_round consumer config parent active) slots h d
    = (_ ← Objects.prog_for l (λ mutant,
            _ ← Objects.add_estimated
                  (Qpower (1 - Objects.config_mutation_rate config)%Q (Z.of_nat active));
            consumer mutant);
       Objects.prog_ret slots) h d) as Hloop.
  { induction l as [|m l IH]; intros k slots h' d'; [done|].
    cbn [imap Objects.prog_fold Objects.prog_for].
    unfold Objects.offspring_round at 1.
    assert (negb (Objects.speed_is config "normal" || Objects.speed_is config "single")
            = false) as ->.
    { unfold Objects.speed_is. by destruct Hspeed as [-> | ->]. }
    unfold Objects.hand_over.
    assert (Objects.speed_is config "accumulate" = false) as ->.
    { unfold Objects.speed_is. by destruct Hspeed as [-> | ->]. }
    unfold mbind, Objects.prog_mbind, Objects.prog_bind.
    destruct (Objects.add_estimated _ h' d') as [[[] h3] d3| |]; [|done..].
    destruct (consumer m h3 d3) as [[[] h4] d4| |]; [|done..].
    etransitivity; [|exact (IH (S k) slots h4 d4)].
    f_equal. apply imap_ext. intros i x _. simpl. f_equal. lia. }
  apply (Hloop mutants 0%nat).
Qed.

Lemma refusing_changed (consumer : Objects.ref → prog ()) (parent mutant : Objects.ref)
    (change : nat) (h : heap) d :
  asym_phenotypic_difference (Objects.view h parent) (Objects.view h mutant) = Ok change →
  change ≠ 0%nat →
  refusing parent consumer mutant h d = consumer mutant h d.
Proof.
  intros Hchange Hne.
  unfold refusing, Objects.asym_phenotypic_difference, mbind, Objects.prog_mbind,
    Objects.prog_bind, Objects.reads.
  rewrite Hchange. simpl. by destruct (Nat.eqb_spec change 0).
Qed.

Lemma hand_over_refusing (consumer : Objects.ref → prog ()) (config : Objects.config)
    (parent : Objects.ref) (index : nat) (prev mutant : Objects.ref)
    (slots : list Objects.ref) (change : nat) (h : heap) d :
  asym_phenotypic_difference (Objects.view h parent) (Objects.view h mutant) = Ok change →
  change ≠ 0%nat →
  Objects.hand_over (refusing parent consumer) config parent index prev mutant slots h d
  = Objects.hand_over consumer config parent index prev mutant slots h d.
Proof.
  intros Hchange Hne. unfold Objects.hand_over, mbind, Objects.prog_mbind.
  unfold Objects.prog_bind at 1 3.
  by rewrite (refusing_changed consumer parent mutant change h d).
Qed.

(** The loop of the speed [accumulate] ends on a mutant that differs
    from the parent. *)
Lemma accumulate_loop_changed (config : Objects.config) (parent prev mutant : Objects.ref)
    (h : heap) d prev' mutant' h' rest :
  Objects.accumulate_loop config parent prev mutant 0 h d = Ret ((prev', mutant'), h') rest →
  ∃ change,
    asym_phenotypic_difference (Objects.view h' parent) (Objects.view h' mutant')
    = Ok change
    ∧ change ≠ 0%nat.
Proof.
  unfold Objects.accumulate_loop. intros Hloop.
  refine (prog_while_inv
    (λ s h,
       s.2 = 0%nat
       ∨ asym_phenotypic_difference (Objects.view h parent) (Objects.view h s.1.2)
         = Ok s.2)
    (λ a h,
       ∃ change,
         asym_phenotypic_difference (Objects.view h parent) (Objects.view h a.2)
         = Ok change ∧ change ≠ 0%nat) _ _ _ _ _ (prev', mutant') _ _ _ Hloop);
    [|by left].
  intros [[p m] change] h0 d0 r h1 d1 Hinv. simpl in Hinv.
  destruct (Nat.eqb_spec change 0) as [->|Hne].
  - intros (m' & h2 & d2 & _ & Hrest)%prog_bind_ret.
    apply prog_bind_ret in Hrest as (change' & h3 & d3 & Hasym & Hret).
    apply asym_ret in Hasym as (Hasym & -> & ->).
    apply prog_ret_ret in Hret as (Hr & -> & ->). subst r. by right.
  - intros (Hr & -> & ->)%prog_ret_ret. subst r.
    destruct Hinv as [|Hasym]; [done|]. by exists change.
Qed.

(** X16.  In the speeds [skip] and [accumulate] the caller is never
    handed an individual whose difference from the parent is 0: a caller
    that would refuse such an individual is never refused. *)
Theorem offspring_changed (consumer : Objects.ref → prog ())
    (config : Objects.config) (parent : Objects.ref) (h : heap) (d : draws) :
  Objects.config_speed config = "skip"%string
  ∨ Objects.config_speed config = "accumulate"%string →
  Objects.offspring (refusing parent consumer) config parent h d
  = Objects.offspring consumer config parent h d.
Proof.
  intros Hspeed. unfold Objects.offspring.
  apply prog_bind_ext. intros mutants h1 d1 _.
  apply prog_bind_ext. intros me h2 d2 _.
  apply prog_fold_ext. intros [index mutant] slots h3 d3 _.
  unfold Objects.offspring_round.
  assert (negb (Objects.speed_is config "normal" || Objects.speed_is config "single")
          = true) as ->.
  { unfold Objects.speed_is. by destruct Hspeed as [-> | ->]. }
  apply prog_bind_ext. intros [] h4 d4 _.
  apply prog_bind_ext. intros change h5 d5 Hchange.
  apply asym_ret in Hchange as (Hchange & -> & ->).
  destruct (Nat.eqb_spec change 0) as [->|Hne];
    [|by apply (hand_over_refusing _ _ _ _ _ _ _ change)].
  apply prog_bind_ext. intros [] h6 d6 _.
  destruct (Objects.speed_is config "skip") eqn:Hskip; [done|].
  assert (Objects.speed_is config "accumulate" = true) as ->.
  { unfold Objects.speed_is in *. destruct Hspeed as [Hs | ->]; [|done].
    by rewrite Hs in Hskip. }
  apply prog_bind_ext. intros [prev' mutant'] h7 d7 Hloop.
  apply accumulate_loop_changed in Hloop as (change' & Hchange' & Hne').
  by apply (hand_over_refusing _ _ _ _ _ _ _ change').
Qed.
End more_offspring.

(** ** The claim on a phenotypic difference of 0 *)

Section claim_asym.
Context {func value : Type} `{!Runtime func value}.
Local Abbreviation gene := (gene func).
Local Abbreviation Individual := (Individual func value).

(** A produced individual has the shape [__init__] gives it; its scratch
    buffer, which an evaluation without inputs empties, when it has an
    input. *)
Lemma produced_shape (self : Individual) :
  produced self →
  (0 < node_step self)%nat
  ∧ length (genes self) = (graph_length self * node_step self + output_length self)%nat
  ∧ ((1 ≤ input_length self)%nat →
     length (scratch self) = (graph_length self + input_length self)%nat).
Proof.
  induction 1 as [gl il ol ma fl d self rest Hinit
                 |self rate d mutant rest _ IH Hm
                 |self rate d mutant rest _ IH Hm
                 |self inputs _ IH Hin|self f _ IH].
  - destruct (init_spec _ _ _ _ _ _ _ _ Hinit)
      as (_ & _ & _ & _ & _ & (Hns & Hlen & Hscr) & _). auto.
  - apply mutate_kept in Hm as [((Hs & Hi & Hg & _ & Ho) & Hlen & Hscr & _) _].
    rewrite <-Hs, <-Hi, <-Hg, <-Ho, Hlen, Hscr. exact IH.
  - apply one_active_mutation_spec in Hm
      as [(((Hs & Hi & Hg & _ & Ho) & Hlen & Hscr & _) & _) _].
    rewrite <-Hs, <-Hi, <-Hg, <-Ho, Hlen, Hscr. exact IH.
  - destruct IH as (Hns & Hlen & Hscr). split_and!; [done..|].
    intros Hil. simpl in Hil. specialize (Hscr Hil).
    rewrite evaluated_scratch_length; [done|]. lia.
  - exact IH.
Qed.

(** An evaluation on no inputs starts by emptying the scratch buffer. *)
Lemma evaluate_no_inputs (self : Individual) (cells1 cells2 : list value) :
  evaluate_body self [] (Mem cells1 []) = evaluate_body self [] (Mem cells2 []).
Proof.
  assert (∀ cells0 : list value,
    scratch_assign_from (- Z.of_nat (length (@nil value))) (reverse [])
      (Mem cells0 []) = (Ok (), Mem [] [])) as Hload.
  { intros cells0. unfold scratch_assign_from, py_slice_from_assign.
    change (length (@nil value)) with 0%nat. cbn [cells log].
    by rewrite py_clamp_zero. }
  unfold evaluate_body, mbind, scratch_mbind.
  set (rest := λ _ : (), scratch_bind _ _).
  unfold scratch_bind. by rewrite !Hload.
Qed.

(** Without genes and active nodes, [evaluate] returns no output. *)
Lemma evaluate_no_genes (self : Individual) (inputs : list value) :
  genes self = [] → active self = [] → evaluate self inputs = Ok [].
Proof.
  intros Hgenes Hactive. unfold evaluate, evaluate_run, evaluate_body.
  rewrite Hgenes, Hactive. unfold py_slice_from. by rewrite drop_nil.
Qed.

(** Without output genes, the active set of a graph with a node holds
    the function object of node 0. *)
Lemma no_output_function_active (self : Individual) (g : gene) :
  output_length self = 0%nat →
  genes self !! 0%nat = Some g → ge0 g →
  g ∈ active (determine_active_nodes self).
Proof.
  intros Hol Hg Hge. unfold determine_active_nodes, sorted. simpl.
  rewrite merge_sort_Permutation, list_elem_of_filter. split; [done|].
  apply active_sweep_mono. unfold py_set, py_slice_from.
  rewrite elem_of_remove_dups, Hol, py_clamp_zero. simpl.
  by eapply list_elem_of_lookup_2.
Qed.

(** A difference of 0 between two produced individuals: the two evaluate
    alike, whatever the scratch buffer of the second holds. *)
Lemma asym_zero_produced (parent mutant : Individual) (x cells' : list value) :
  produced parent → produced mutant →
  same_sizes parent mutant →
  consistent parent → consistent mutant →
  asym_phenotypic_difference parent mutant = Ok 0%nat →
  length x = input_length parent →
  ((1 ≤ input_length parent)%nat → length cells' = length (scratch mutant)) →
  evaluate parent x = evaluate (set_scratch mutant cells') x.
Proof.
  intros Hp Hm Hcfg Hcons Hcons' Hzero Hx Hcells.
  destruct (produced_shape parent Hp) as (Hns & Hlen & Hscr).
  destruct (produced_shape mutant Hm) as (Hns' & Hlen' & Hscr').
  pose proof Hcfg as (Hs & Hi & Hg & Ho).
  assert (length (genes parent) = length (genes mutant)) as Hgenes.
  { rewrite Hlen, Hlen'. by rewrite Hs, Hg, Ho. }
  assert (active mutant = active parent) as Hact.
  { rewrite Hcons'. by apply asym_zero_active. }
  destruct (decide (input_length parent = 0%nat)) as [Hil|Hil].
  { (* no input: both calls start from an empty buffer *)
    assert (x = []) as -> by (apply nil_length_inv; lia).
    unfold evaluate, evaluate_run.
    change (evaluate_body (set_scratch mutant cells') [])
      with (evaluate_body mutant []).
    rewrite (asym_zero_body parent mutant [] _ Hcfg Hgenes Hact Hzero).
    by rewrite (evaluate_no_inputs parent (scratch parent) cells'). }
  assert (1 ≤ input_length parent)%nat as Hin by lia.
  assert (1 ≤ input_length mutant)%nat as Hin' by lia.
  pose proof (produced_legal parent Hp Hin) as Hlegal.
  destruct (decide (output_length parent = 0%nat)) as [Hol|Hol].
  - destruct (decide (graph_length parent = 0%nat)) as [Hgl|Hgl].
    + (* neither nodes nor outputs *)
      assert (genes parent = []) as Hnil by (apply nil_length_inv; lia).
      assert (genes mutant = []) as Hnil'.
      { apply nil_length_inv. by rewrite <-Hgenes, Hnil. }
      assert (active parent = []) as Hnone.
      { rewrite Hcons. unfold determine_active_nodes, active_sweep. simpl.
        rewrite Hgl, Hnil. unfold py_slice_from. by rewrite drop_nil. }
      rewrite !evaluate_no_genes; [done|done|simpl; by rewrite Hact|done|done].
    + (* no outputs: the difference is not a number *)
      destruct (genes parent !! 0%nat) as [g0|] eqn:Hg0;
        [|apply lookup_ge_None in Hg0; nia].
      assert (∃ f, g0 = GFun f) as [f ->].
      { specialize (Hlegal 0%nat g0 Hg0). unfold legal in Hlegal.
        rewrite decide_False in Hlegal by (unfold output_index; nia).
        rewrite decide_True in Hlegal by (by apply Nat.Div0.mod_0_l).
        destruct g0; [by eexists|done]. }
      assert (GFun f ∈ active parent) as Hin0.
      { rewrite Hcons. by apply no_output_function_active. }
      destruct (asym_zero parent mutant Hgenes Hs Hzero) as [_ Hall].
      rewrite Forall_forall in Hall.
      by destruct (Hall _ Hin0) as (node & Hnode & _).
  - apply asym_zero_evaluate; try done.
    + split_and!; [done..|]. by apply Hscr.
    + split_and!; [done..|]. simpl. rewrite Hcells by done. by apply Hscr'.
    + lia.
    + by apply legal_genes_acyclic.
Qed.

(** C3.  For a parent and a mutant that the program has produced, of the
    same [graph_length], [input_length], [output_length] and [max_arity],
    whose active sets are consistent with their genes: if
    [parent.asym_phenotypic_difference(mutant)] returns 0, then on every
    input vector [x] of length [input_length], [parent.evaluate(x)] and
    [mutant.evaluate(x)] are equal: the two calls return the same list,
    or raise the same exception.  That is so also when the mutant is
    evaluated on the scratch buffer the parent's call has written, which
    a mutant shares with its parent. *)
Theorem asym_zero_same_outputs (parent mutant : Individual) (x : list value) :
  produced parent → produced mutant →
  same_sizes parent mutant →
  consistent parent → consistent mutant →
  asym_phenotypic_difference parent mutant = Ok 0%nat →
  length x = input_length parent →
  evaluate parent x = evaluate mutant x
  ∧ evaluate parent x
    = evaluate (set_scratch mutant (scratch (evaluated parent x))) x.
Proof.
  intros Hp Hm Hcfg Hcons Hcons' Hzero Hx. split.
  - change (evaluate mutant x) with (evaluate (set_scratch mutant (scratch mutant)) x).
    by apply asym_zero_produced.
  - apply asym_zero_produced; try done. intros Hil.
    destruct (produced_shape parent Hp) as (_ & _ & Hscr).
    destruct (produced_shape mutant Hm) as (_ & _ & Hscr').
    destruct Hcfg as (_ & Hi & Hg & _).
    rewrite evaluated_scratch_length by (rewrite Hscr by done; lia).
    rewrite Hscr, Hscr' by lia. by rewrite Hi, Hg.
Qed.
End claim_asym.

(** ** The claims on concrete individuals *)

Section instances_genes.
Import Problems Examples.

(** [two_nodes] is an individual [__init__] builds. *)
Lemma two_nodes_built :
  __init__ 2 1 1 2 [or_; and_] [pick 0 2; pick 0 2; pick 0 2; pick 1 2; pick 1 3]
  = Ret two_nodes [].
Proof. vm_compute. reflexivity. Qed.

Lemma two_nodes_produced : produced two_nodes.
Proof. eapply produced_init. apply two_nodes_built. Qed.

(** C1 fails as stated: on [two_changes], [one_active_mutation] first
    changes the function gene of node 1, which is not active, keeps that
    change, and goes on until it has changed the output gene; the mutant
    differs from the parent in two genes (at 3 and at 6). *)
Lemma one_active_mutation_two_genes :
  consistent two_nodes
  ∧ one_active_mutation two_nodes 0 two_changes = Ret two_nodes_mutant []
  ∧ diff_count (genes two_nodes) (genes two_nodes_mutant) = 2%nat
  ∧ genes two_nodes !! 3%nat = Some (GFun or_)
  ∧ genes two_nodes_mutant !! 3%nat = Some (GFun and_)
  ∧ genes two_nodes !! 6%nat = Some (GInt 0)
  ∧ genes two_nodes_mutant !! 6%nat = Some (GInt (-1)).
Proof. split_and!; vm_compute; reflexivity. Qed.

Lemma one_active_mutation_changes_witness :
  length (genes two_nodes_mutant) = length (genes two_nodes)
  ∧ ∃ index : nat,
      (index < length (genes two_nodes))%nat
      ∧ active_index two_nodes index
      ∧ genes two_nodes_mutant !! index ≠ genes two_nodes !! index
      ∧ ∀ j, j ≠ index → active_index two_nodes j →
             genes two_nodes_mutant !! j = genes two_nodes !! j.
Proof.
  apply (one_active_mutation_changes two_nodes two_nodes_mutant 0 two_changes []).
  vm_compute. reflexivity.
Defined.

(** C6, where the code departs from it.  [Individual(1, 0, 1, 0, [and_])]
    builds an individual that breaks the acyclicity invariant: without
    inputs, the shortcut of [random_gene] for a single legal value gives
    the output gene of the one-node graph the value [-1], which is below
    [-input_length]; the gene's one legal value is 0. *)
Lemma no_input_not_acyclic :
  __init__ 1 0 1 0 [and_] [] = Ret no_input []
  ∧ output_index no_input 1
  ∧ genes no_input !! 1%nat = Some (GInt (-1))
  ∧ ¬ acyclic no_input.
Proof.
  split_and!; [vm_compute; reflexivity|by_decide|done|].
  intros Hacy.
  pose proof (proj1 (acyclic_lookup no_input) Hacy 1%nat (GInt (-1)) eq_refl) as H1.
  vm_compute in H1. tauto.
Qed.

Lemma produced_acyclic_witness : acyclic two_nodes_mutant.
Proof.
  apply produced_acyclic; [|vm_compute; lia].
  eapply (produced_one_active two_nodes 0 two_changes);
    [|vm_compute; reflexivity].
  eapply (produced_init 2 1 1 2 [or_; and_]
            [pick 0 2; pick 0 2; pick 0 2; pick 1 2; pick 1 3]).
  vm_compute. reflexivity.
Defined.

(** C9, where the code departs from it.  Without inputs, the output
    gene of a one-node graph has [node_number + input_length = 1] and the
    single legal value 0; asked to avoid [-1], [random_gene] returns
    [-1], which is not the legal value. *)
Lemma random_gene_no_input :
  (reference_bound no_input 1 + input_length no_input = 1)%nat
  ∧ (∀ g, legal no_input 1 g ↔ g = GInt 0)
  ∧ random_gene no_input 1 (Some (GInt (-1))) [] = Ret (GInt (-1)) [].
Proof.
  split_and!; [done| |done].
  intros g. unfold legal. rewrite decide_True by by_decide.
  destruct g as [f|v]; simpl; [by split|].
  split; [intros; f_equal; lia|intros [= ->]; lia].
Qed.

Lemma random_gene_avoid_witness :
  (∃ g rest, random_gene two_nodes 5 (Some (GInt 0)) [pick 1 2; pick 0 2] = Ret g rest)
  ∧ random_gene two_nodes 1 (Some (GInt (-1))) [] = Ret (GInt (-1)) [].
Proof.
  assert (0 < node_step two_nodes)%nat as Hns by (vm_compute; lia).
  destruct (random_gene_avoid two_nodes 5 (GInt 0) [pick 1 2; pick 0 2] Hns)
    as (Hseveral & _ & _).
  destruct (random_gene_avoid two_nodes 1 (GInt (-1)) [] Hns) as (_ & _ & Hsingle).
  split.
  - apply Hseveral.
    + exists (GInt (-1)), (GInt 0).
      split_and!; [by_decide..|done].
    + exists (pick 0 2), (GInt (-1)). split_and!; [|done..].
      apply list_elem_of_In. right. left. done.
  - apply Hsingle; [right; by_decide|done..].
Defined.
End instances_genes.

Section instances_active.
Import Problems Examples.

(** C2, where the code departs from it.  For the individual that
    [Individual(2, 1, 0, 2, [and_])] builds, which satisfies the
    acyclicity invariant and has no output gene, nothing is reached by
    backward traversal.  The slice [genes[-0:]] that seeds the pass of
    [determine_active_nodes] is the whole gene array, so the pass marks
    node 0 (a connection gene of node 1 holds 0) and, as Python 2 finds a
    function object [>= 0], the function object too: the active set is
    not the list of the reached nodes. *)
Lemma no_output_active :
  __init__ 2 1 0 2 [and_] [pick 1 2; pick 0 2] = Ret no_output []
  ∧ acyclic no_output
  ∧ active (determine_active_nodes no_output) = [GInt 0; GFun and_]
  ∧ ∀ v, ¬ reachable no_output v.
Proof.
  split_and!; [vm_compute; reflexivity|by_decide|vm_compute; reflexivity|].
  intros v. induction 1 as [v Hv|]; [|done].
  vm_compute in Hv. by apply elem_of_nil in Hv.
Qed.

Lemma determine_active_nodes_reachable_witness :
  ∃ nodes : list Z,
    active (determine_active_nodes two_nodes) = GInt <$> nodes
    ∧ StronglySorted Z.lt nodes
    ∧ ∀ v, v ∈ nodes ↔ 0 ≤ v ∧ reachable two_nodes v.
Proof.
  apply (determine_active_nodes_reachable two_nodes);
    [vm_compute; lia|reflexivity|vm_compute; lia|by_decide].
Defined.
End instances_active.

Section instances_evaluate.
Import Problems Examples.







Lemma two_nodes_inactive_produced : produced two_nodes_inactive.
Proof.
  eapply (produced_init 2 1 1 2 [or_; and_]
            [pick 0 2; pick 1 2; pick 0 2; pick 1 2; pick 1 3]).
  vm_compute. reflexivity.
Qed.

Lemma asym_zero_same_outputs_witness :
  evaluate two_nodes [PyInt 1] = evaluate two_nodes_inactive [PyInt 1]
  ∧ evaluate two_nodes [PyInt 1]
    = evaluate (set_scratch two_nodes_inactive
                  (scratch (evaluated two_nodes [PyInt 1]))) [PyInt 1].
Proof.
  apply (asym_zero_same_outputs two_nodes two_nodes_inactive [PyInt 1]);
    first [apply two_nodes_produced | apply two_nodes_inactive_produced
          | by_decide | vm_compute; reflexivity].
Defined.
End instances_evaluate.

Section instances_init.
Import Problems Examples.

(** C7 fails as stated: the configuration has twelve genomes, not one.
    On the draws below the output gene holds [-1], the first input, and
    [evaluate([1, 0])] returns [[1]]. *)
Lemma init_and_first_input :
  __init__ 1 2 1 2 [and_] [pick 1 2; pick 1 2; pick 1 3] = Ret and_first []
  ∧ genes and_first = [GFun and_; GInt (-1); GInt (-1); GInt (-1)]
  ∧ evaluate and_first [PyInt 1; PyInt 0] = Ok [PyInt 1].
Proof. split_and!; vm_compute; reflexivity. Qed.

Lemma init_and_evaluate_witness :
  evaluate and_node [PyInt 1; PyInt 1] = Ok [PyInt 1]
  ∧ (evaluate and_node [PyInt 1; PyInt 0] = Ok [PyInt 0]
     ∨ evaluate and_node [PyInt 1; PyInt 0] = Ok [PyInt 1])
  ∧ (evaluate and_node [PyInt 1; PyInt 0] = Ok [PyInt 0]
     ↔ genes and_node !! 3%nat = Some (GInt (-2))
       ∨ (genes and_node !! 3%nat = Some (GInt 0)
          ∧ (genes and_node !! 1%nat = Some (GInt (-2))
             ∨ genes and_node !! 2%nat = Some (GInt (-2))))).
Proof.
  apply (init_and_evaluate [pick 0 2; pick 1 2; pick 2 3] and_node []).
  vm_compute. reflexivity.
Defined.
End instances_init.

Section instances_objects.
Import Problems Examples.



(** C4 fails as stated: a generation whose two offspring are given the
    same fitness ends with the first of them as [best_child] and as the
    next parent, not the last. *)
Lemma generation_keeps_first :
  ∃ h',
    Objects.offspring (score 1) (two_offspring 0 "normal") 0 (allocated [two_nodes])
      (replicate 14 miss)
    = Ret ([1; 2]%nat, h') []
    ∧ fitness (Objects.view h' 1) = fitness (Objects.view h' 2)
    ∧ Objects.best_child [1; 2]%nat h' [] = Ret (1%nat, h') []
    ∧ Objects.generation (score 1) (two_offspring 0 "normal") 0 (allocated [two_nodes])
        (replicate 14 miss)
      = Ret (1%nat, h') [].
Proof.
  eexists. split_and!; [vm_compute; reflexivity|reflexivity|vm_compute; reflexivity..].
Qed.

Lemma best_child_first_maximal_witness :
  ∃ i : nat,
    [1; 2]%nat !! i = Some 2%nat
    ∧ (∀ j m, [1; 2]%nat !! j = Some m →
         (fitness (Objects.view (allocated [two_nodes; set_fitness two_nodes 0;
                                            set_fitness two_nodes 1]) m)
          <= fitness (Objects.view (allocated [two_nodes; set_fitness two_nodes 0;
                                               set_fitness two_nodes 1]) 2))%Q)
    ∧ (∀ j m, (j < i)%nat → [1; 2]%nat !! j = Some m →
         (fitness (Objects.view (allocated [two_nodes; set_fitness two_nodes 0;
                                            set_fitness two_nodes 1]) m)
          < fitness (Objects.view (allocated [two_nodes; set_fitness two_nodes 0;
                                              set_fitness two_nodes 1]) 2))%Q).
Proof.
  apply (best_child_first_maximal [1; 2]%nat
           (allocated [two_nodes; set_fitness two_nodes 0; set_fitness two_nodes 1])
           [] 2%nat
           (allocated [two_nodes; set_fitness two_nodes 0; set_fitness two_nodes 1])
           []).
  vm_compute. reflexivity.
Defined.

Lemma score_keeps_others (f : Q) : keeps_others (score f).
Proof.
  intros r h d h' rest Hrun r' Hne. unfold score, Objects.rebind in Hrun.
  apply writes_ret in Hrun as (-> & _). simpl.
  by apply list_lookup_insert_ne.
Qed.

Lemma generation_parent_witness :
  ∃ h',
    Objects.generation (score 1) (two_offspring 0 "normal") 0 (allocated [two_nodes])
      (replicate 14 miss)
    = Ret (1%nat, h') []
    ∧ (fitness (Objects.view h' 0) <= fitness (Objects.view h' 1))%Q
    ∧ Objects.instance_at h' 0 = Objects.instance_at (allocated [two_nodes]) 0
    ∧ (fitness (Objects.view (allocated [two_nodes]) 0)
       <= fitness (Objects.view h' 1))%Q.
Proof.
  eexists. split; [vm_compute; reflexivity|].
  match goal with
  | |- (fitness (Objects.view ?h' _) <= _)%Q ∧ _ =>
      destruct (generation_parent (score 1) (two_offspring 0 "normal") 0
                  (allocated [two_nodes]) (replicate 14 miss) 1%nat h' [])
        as (mutants & best & _ & _ & _ & _ & Hle & Hbefore); [vm_compute; reflexivity|]
  end.
  destruct Hbefore as [Hsame Hle']; [vm_compute; lia|apply score_keeps_others|].
  split_and!; [exact Hle|exact Hsame|exact Hle'].
Defined.
End instances_objects.

Section instances_extra.
Import Problems Examples.

Lemma evaluate_ignores_scratch_witness :
  evaluate (set_scratch two_nodes [PyInt 5; PyBool true; PyNone]) [PyInt 1]
  = evaluate two_nodes [PyInt 1].
Proof.
  apply (evaluate_ignores_scratch two_nodes [PyInt 1] [PyInt 5; PyBool true; PyNone]);
    first [by_decide | vm_compute; lia | reflexivity].
Defined.

Lemma evaluate_after_evaluate_witness :
  evaluate (evaluated two_nodes [PyInt 0; PyNone]) [PyInt 1]
  = evaluate two_nodes [PyInt 1].
Proof.
  apply (evaluate_after_evaluate two_nodes [PyInt 0; PyNone] [PyInt 1]);
    first [by_decide | vm_compute; lia | reflexivity].
Defined.

Lemma init_empty_function_list_witness :
  __init__ (func:=pyfunc) (value:=pyval) 1 1 1 2 [] [0] = Throw IndexError.
Proof. apply (init_empty_function_list 1 1 1 2 0 []). lia. Defined.

Lemma init_no_input_witness :
  __init__ (func:=pyfunc) (value:=pyval) 1 0 1 2 [and_] [] = Throw ValueError.
Proof. apply (init_no_input 1 1 2 and_ []); lia. Defined.

Lemma generation_no_offspring_witness :
  Objects.generation (score 1) no_offspring 0 (allocated [two_nodes]) []
  = Throw ValueError.
Proof.
  apply (generation_no_offspring (score 1) no_offspring 0 (allocated [two_nodes]) []).
  reflexivity.
Defined.

Lemma mutate_rate_zero_witness :
  mutate two_nodes 0 (replicate 7 hit)
  = Ret (determine_active_nodes (copy two_nodes)) [].
Proof.
  exact (mutate_rate_zero two_nodes 0 (replicate 7 hit) ltac:(vm_compute; discriminate)).
Defined.

Lemma only_output_frozen : frozen only_output.
Proof.
  intros index d g rest Hlt. destruct index as [|index]; [|simpl in Hlt; lia].
  by intros [= <- _].
Qed.

Lemma one_active_mutation_frozen_witness :
  frozen only_output
  ∧ one_active_mutation only_output 0 [hit; hit; hit] ≠ Ret only_output [].
Proof.
  split; [apply only_output_frozen|].
  apply (one_active_mutation_frozen only_output 0 [hit; hit; hit]).
  apply only_output_frozen.
Defined.

Lemma offspring_normal_witness :
  Objects.offspring (score 1) (two_offspring 0 "normal") 0 (allocated [two_nodes])
    (replicate 14 miss)
  = hand_over_all (score 1) (two_offspring 0 "normal") 0 (allocated [two_nodes])
      (replicate 14 miss).
Proof.
  apply (offspring_normal (score 1) (two_offspring 0 "normal") 0 (allocated [two_nodes])
           (replicate 14 miss)).
  left. reflexivity.
Defined.

Lemma offspring_changed_witness :
  Objects.offspring (refusing 0 (score 1)) (two_offspring 0 "skip") 0
    (allocated [two_nodes]) (replicate 14 miss)
  = Objects.offspring (score 1) (two_offspring 0 "skip") 0
      (allocated [two_nodes]) (replicate 14 miss).
Proof.
  apply (offspring_changed (score 1) (two_offspring 0 "skip") 0 (allocated [two_nodes])
           (replicate 14 miss)).
  left. reflexivity.
Defined.
End instances_extra.
